(** * ChoiceScript Save Manager: save record lifecycle engine

    A shallow embedding of the core of [choicescript-save-manager.user.js]:
    the codec ([enc]/[dec]), the IndexedDB wrapper ([DB]), and the
    [SaveManager] operations [create], [quick], [load] and [import].

    Modelling conventions.
    - JavaScript strings are [string]s whose characters stand for code units
      below 256.
    - The numbers kept in records and JSON values (timestamps, slots,
      format versions) are integers ([Z]). The numbers that [create]
      computes from the names of records are doubles ([number]): [Number],
      [Math.max], addition and the conversion back to text follow
      ECMAScript, with correct rounding.
    - What the script's own code throws is an [Error] object (message and
      optional cause), and a rejected promise is the left injection of
      [result]; what a host function called by [load] throws is any value
      ([thrown]).
    - [undefined] is [None] in [option json]; [null] is [JNull].
    - IndexedDB requests succeed, except [put] on a record whose key path
      does not yield a valid key (DataError).
    - Asynchronous operations run one after the other. *)

From Stdlib Require Import List String Ascii ZArith Lia Bool DecimalString.
From Stdlib Require Import Permutation Sorted.
From Stdlib Require Import DecimalPos.
Import ListNotations.

Set Warnings "-register-all".

Local Open Scope string_scope.
Local Open Scope Z_scope.

(** ** Configuration constants (CONFIG & UTILS) *)

Definition QUICK_SLOTS : Z := 5.
Definition METADATA_FORMAT_VERSION : Z := 1.
Definition STATE_PLAIN : string := "plain".
Definition STATE_LZ : string := "lz".

(** ** JavaScript values *)

Inductive json : Type :=
| JNull
| JBool (b : bool)
| JNum (z : Z)
| JStr (s : string)
| JArr (items : list json)
| JObj (fields : list (string * json)).

(** [new Error(message, { cause })] *)
Inductive error : Type :=
| Error (msg : string) (cause : option error).

Definition message (e : error) : string :=
  match e with Error m _ => m end.

Definition result (A : Type) : Type := (error + A)%type.

Definition throw {A : Type} (m : string) : result A := inl (Error m None).

Definition bind {A B : Type} (c : result A) (k : A -> result B) : result B :=
  match c with
  | inl e => inl e
  | inr a => k a
  end.

Notation "x <- c ;; k" := (bind c (fun x => k))
  (at level 61, c at next level, right associativity).

(** Own-property lookup [o.k]; every other value has none of the properties
    read by the program. *)
Fixpoint assoc (k : string) (fields : list (string * json)) : option json :=
  match fields with
  | [] => None
  | (k', v) :: rest => if String.eqb k k' then Some v else assoc k rest
  end.

Definition prop (k : string) (v : json) : option json :=
  match v with
  | JObj fields => assoc k fields
  | _ => None
  end.

(** Optional chaining [v?.k] on a possibly undefined value. *)
Definition chain (k : string) (v : option json) : option json :=
  match v with
  | Some o => prop k o
  | None => None
  end.

(** Assignment [o.k = v]: an existing property keeps its place. *)
Fixpoint assign (k : string) (v : json) (fields : list (string * json))
  : list (string * json) :=
  match fields with
  | [] => [(k, v)]
  | (k', v') :: rest =>
      if String.eqb k k' then (k, v) :: rest else (k', v') :: assign k v rest
  end.

Definition set_prop (k : string) (v : json) (o : json) : json :=
  match o with
  | JObj fields => JObj (assign k v fields)
  | _ => o
  end.

(** ToBoolean *)
Definition truthy (v : option json) : bool :=
  match v with
  | None => false
  | Some JNull => false
  | Some (JBool b) => b
  | Some (JNum z) => negb (z =? 0)
  | Some (JStr s) => negb (s =? "")%string
  | Some (JArr _) => true
  | Some (JObj _) => true
  end.

(** [a || b] *)
Definition js_or (a : option json) (b : json) : json :=
  match a with
  | Some v => if truthy a then v else b
  | None => b
  end.

(** [v != null] *)
Definition not_nullish (v : option json) : bool :=
  match v with
  | None => false
  | Some JNull => false
  | Some _ => true
  end.

(** [v === n] for a number [n]. *)
Definition strict_eq_num (v : json) (n : Z) : bool :=
  match v with
  | JNum z => z =? n
  | _ => false
  end.

(** ** String helpers *)

(** WhiteSpace and LineTerminator code units below 256. *)
Definition is_ws (c : ascii) : bool :=
  let n := nat_of_ascii c in
  (((9 <=? n) && (n <=? 13)) || (n =? 32) || (n =? 160))%nat.

Fixpoint trimStart (s : string) : string :=
  match s with
  | EmptyString => EmptyString
  | String c s' => if is_ws c then trimStart s' else s
  end.

Fixpoint trimEnd (s : string) : string :=
  match s with
  | EmptyString => EmptyString
  | String c s' =>
      match trimEnd s' with
      | EmptyString => if is_ws c then EmptyString else String c EmptyString
      | t => String c t
      end
  end.

Definition trim (s : string) : string := trimEnd (trimStart s).

Definition startsWith (p s : string) : bool := String.prefix p s.

(** [s.slice(n)] for [n >= 0] *)
Fixpoint slice (n : nat) (s : string) : string :=
  match n, s with
  | O, _ => s
  | S n', String _ s' => slice n' s'
  | S _, EmptyString => EmptyString
  end.

(** Template-literal rendering of an integer. *)
Definition show_Z (z : Z) : string := NilZero.string_of_int (Z.to_int z).

(** ** Numbers *)

(** A Number is an IEEE 754 double: not-a-number, an infinity, or a finite
    value [mant * 2^expo], negated when [neg]. The mantissa of a finite
    value is odd, or mantissa and exponent are both 0, so that every finite
    double is written in one way only (the two zeros apart). *)
Inductive number : Type :=
| Num (neg : bool) (mant : N) (expo : Z)
| Inf (neg : bool)
| NaN.

Definition MAX_SAFE_INTEGER : Z := 9007199254740991.

(** Factors of two move from the mantissa to the exponent. *)
Fixpoint strip (m : positive) (e : Z) : positive * Z :=
  match m with
  | xO m' => strip m' (e + 1)
  | _ => (m, e)
  end.

(** The finite value [m * 2^e] for [m >= 0], negated when [neg]. *)
Definition make (neg : bool) (m e : Z) : number :=
  match m with
  | Zpos p => let (p', e') := strip p e in Num neg (Npos p') e'
  | _ => Num neg 0 0
  end.

(** An integer as a Number; exact, and a double when it has at most 53
    significant bits. *)
Definition Int (z : Z) : number := make (z <? 0) (Z.abs z) 0.

(** The integer part of the binary logarithm of [p / q], for positive [p]
    and [q]. *)
Definition log2_ratio (p q : Z) : Z :=
  let e := Z.log2 p - Z.log2 q in
  if (if 0 <=? e then q * 2 ^ e <=? p else q <=? p * 2 ^ (- e))
  then e else e - 1.

(** The Number value for the rational [p / q] ([p >= 0], [q > 0]), negated
    when [neg]: the double nearest to it, the one with the even significand
    when two are as near, and an infinity from halfway between the largest
    double and 2^1024 on. Doubles are the multiples of [2^u] with a
    significand below 2^53, where [u] is at least -1074. *)
Definition round_ratio (neg : bool) (p q : Z) : number :=
  if p =? 0 then Num neg 0 0
  else
    let u := Z.max (log2_ratio p q - 52) (-1074) in
    let P := if u <? 0 then p * 2 ^ (- u) else p in
    let Q := if u <? 0 then q else q * 2 ^ u in
    let m := P / Q in
    let r := P mod Q in
    let m' := if (Q <? 2 * r) || ((Q =? 2 * r) && Z.odd m) then m + 1 else m in
    if (0 <=? u) && (2 ^ 1024 <=? m' * 2 ^ u) then Inf neg
    else make neg m' u.

(** The value of a Number in units of 2^-1074, the smallest positive
    double; the infinities lie beyond every double. *)
Definition units (x : number) : Z :=
  match x with
  | Num neg m e => (if neg then -1 else 1) * Z.of_N m * 2 ^ (e + 1074)
  | Inf neg => (if neg then -1 else 1) * 2 ^ 2100
  | NaN => 0
  end.

Definition isNaN (n : number) : bool :=
  match n with NaN => true | _ => false end.

(** One round of the loop of [Math.max]: [highest] so far, and the next
    argument. *)
Definition max_step (highest x : number) : number :=
  match highest, x with
  | NaN, _ => NaN
  | _, NaN => NaN
  | Num true 0%N _, Num false 0%N _ => x
  | _, _ => if units highest <? units x then x else highest
  end.

(** [Math.max(...args)] *)
Definition Math_max (args : list number) : number :=
  fold_left max_step args (Inf true).

(** [x + y] *)
Definition number_add (x y : number) : number :=
  match x, y with
  | NaN, _ => NaN
  | _, NaN => NaN
  | Inf a, Inf b => if Bool.eqb a b then Inf a else NaN
  | Inf a, _ => Inf a
  | _, Inf b => Inf b
  | Num a m e, Num b n f =>
      let g := Z.min e f in
      let s := (if a then -1 else 1) * Z.of_N m * 2 ^ (e - g)
               + (if b then -1 else 1) * Z.of_N n * 2 ^ (f - g) in
      if s =? 0 then Num (a && b) 0 0
      else if 0 <=? g then round_ratio (s <? 0) (Z.abs s * 2 ^ g) 1
      else round_ratio (s <? 0) (Z.abs s) (2 ^ (- g))
  end.

(** ** Number(text) *)

Definition digit_value (c : ascii) : option Z :=
  let n := Z.of_nat (nat_of_ascii c) in
  if (48 <=? n) && (n <=? 57) then Some (n - 48)
  else if (97 <=? n) && (n <=? 102) then Some (n - 87)
  else if (65 <=? n) && (n <=? 70) then Some (n - 55)
  else None.

(** Value of a non-empty run of digits in [base]; [None] on any other text. *)
Fixpoint digits_from (base : Z) (acc : Z) (s : string) : option Z :=
  match s with
  | EmptyString => Some acc
  | String c s' =>
      match digit_value c with
      | Some d => if d <? base then digits_from base (base * acc + d) s' else None
      | None => None
      end
  end.

Definition digits (base : Z) (s : string) : option Z :=
  match s with
  | EmptyString => None
  | _ => digits_from base 0 s
  end.

Fixpoint all_chars (p : ascii -> bool) (s : string) : bool :=
  match s with
  | EmptyString => true
  | String c s' => p c && all_chars p s'
  end.

(** The decimal digits. *)
Definition decimal_digit (c : ascii) : bool :=
  ((48 <=? nat_of_ascii c) && (nat_of_ascii c <=? 57))%nat.

(** The longest run of decimal digits a text starts with, and the rest. *)
Fixpoint span_digits (s : string) : string * string :=
  match s with
  | EmptyString => (EmptyString, EmptyString)
  | String c s' =>
      if decimal_digit c
      then let (d, r) := span_digits s' in (String c d, r)
      else (EmptyString, s)
  end.

(** The value of a run of decimal digits, 0 for the empty run. *)
Definition decimal_value (d : string) : Z :=
  match digits_from 10 0 d with
  | Some v => v
  | None => 0
  end.

(** ExponentPart, or nothing at all: the exponent. *)
Definition exponent_part (s : string) : option Z :=
  match s with
  | EmptyString => Some 0
  | String c r =>
      if Ascii.eqb c "e" || Ascii.eqb c "E" then
        let signed :=
          match r with
          | String c' r' =>
              if Ascii.eqb c' "-" then (true, r')
              else if Ascii.eqb c' "+" then (false, r')
              else (false, r)
          | EmptyString => (false, r)
          end in
        match span_digits (snd signed) with
        | (String d ds, EmptyString) =>
            Some ((if fst signed then -1 else 1) * decimal_value (String d ds))
        | _ => None
        end
      else None
  end.

(** StrUnsignedDecimalLiteral other than Infinity: digits with an optional
    point and an optional exponent, at least one digit before the exponent.
    The answer [(m, k)] stands for [m * 10^k]. *)
Definition unsigned_decimal (s : string) : option (Z * Z) :=
  let (ip, r1) := span_digits s in
  let (fp, r2) :=
    match r1 with
    | String c r => if Ascii.eqb c "." then span_digits r else (EmptyString, r1)
    | EmptyString => (EmptyString, r1)
    end in
  if (ip =? "")%string && (fp =? "")%string then None
  else
    match exponent_part r2 with
    | Some e => Some (decimal_value (ip ++ fp), e - Z.of_nat (String.length fp))
    | None => None
    end.

(** StrDecimalLiteral: an optional sign, then Infinity or an unsigned
    decimal. *)
Definition decimal_literal (t : string) : number :=
  let signed :=
    match t with
    | String c r =>
        if Ascii.eqb c "-" then (true, r)
        else if Ascii.eqb c "+" then (false, r)
        else (false, t)
    | EmptyString => (false, t)
    end in
  if (snd signed =? "Infinity")%string then Inf (fst signed)
  else
    match unsigned_decimal (snd signed) with
    | Some (m, k) =>
        if 0 <=? k then round_ratio (fst signed) (m * 10 ^ k) 1
        else round_ratio (fst signed) m (10 ^ (- k))
    | None => NaN
    end.

Definition Number_trimmed (t : string) : number :=
  match t with
  | EmptyString => Int 0
  | String _ _ =>
      let prefixed (b : Z) :=
        match digits b (slice 2 t) with
        | Some v => round_ratio false v 1
        | None => NaN
        end in
      if startsWith "0x" t || startsWith "0X" t then prefixed 16
      else if startsWith "0o" t || startsWith "0O" t then prefixed 8
      else if startsWith "0b" t || startsWith "0B" t then prefixed 2
      else decimal_literal t
  end.

Definition Number (s : string) : number := Number_trimmed (trim s).

(** ** Number to text *)

(** [p / q * 10^j] *)
Definition scale10 (p q j : Z) : Z * Z :=
  if 0 <=? j then (p * 10 ^ j, q) else (p, q * 10 ^ (- j)).

(** The least [n], from [n] upwards, with [a / b < 1], where [b] grows
    tenfold with every step. *)
Fixpoint magnitude (fuel : nat) (a b n : Z) : Z :=
  match fuel with
  | O => n
  | S fuel' => if a <? b then n else magnitude fuel' a (10 * b) (n + 1)
  end.

Definition number_eqb (x y : number) : bool :=
  match x, y with
  | Num a m e, Num b n f => Bool.eqb a b && (m =? n)%N && (e =? f)
  | Inf a, Inf b => Bool.eqb a b
  | NaN, NaN => true
  | _, _ => false
  end.

(** Does the decimal [s * 10^j] convert to [x]. *)
Definition reads_back (x : number) (s j : Z) : bool :=
  let (a, b) := scale10 s 1 j in number_eqb (round_ratio false a b) x.

(** The digits of the positive double [x = p / q] of magnitude [n]: the
    least number [k] of digits, from [k] upwards, for which an integer [s]
    exists such that [s * 10^(n-k)] converts to [x], and the [s] nearest to
    [x] among these (the even one of two as near). Seventeen digits always
    identify a double. *)
Fixpoint shortest (fuel : nat) (x : number) (p q n k : Z) : Z * Z :=
  let (a, b) := scale10 p q (k - n) in
  let lo := a / b in
  let r := a mod b in
  let nearest :=
    if 2 * r <? b then lo
    else if b <? 2 * r then lo + 1
    else if Z.even lo then lo else lo + 1 in
  match fuel with
  | O => (nearest, k)
  | S fuel' =>
      match reads_back x lo (n - k), reads_back x (lo + 1) (n - k) with
      | true, true => (nearest, k)
      | true, false => (lo, k)
      | false, true => (lo + 1, k)
      | false, false => shortest fuel' x p q n (k + 1)
      end
  end.

Fixpoint zeros (n : nat) : string :=
  match n with
  | O => EmptyString
  | S n' => String "0" (zeros n')
  end.

(** Number::toString for the digits [s] ([k] of them) of a value of
    magnitude [n]. *)
Definition format_digits (s k n : Z) : string :=
  let ds := show_Z s in
  if (k <=? n) && (n <=? 21) then show_Z (s * 10 ^ (n - k))
  else if (0 <? n) && (n <=? 21)
  then substring 0 (Z.to_nat n) ds ++ "." ++ substring (Z.to_nat n) (Z.to_nat (k - n)) ds
  else if (-6 <? n) && (n <=? 0) then "0." ++ zeros (Z.to_nat (- n)) ++ ds
  else
    let e := n - 1 in
    let es := (if e <? 0 then "-" else "+") ++ show_Z (Z.abs e) in
    match ds with
    | String d EmptyString => String d ("e" ++ es)
    | String d rest => String d ("." ++ rest ++ "e" ++ es)
    | EmptyString => EmptyString
    end.

(** Number::toString(x), as used by a template literal. *)
Definition Number_toString (x : number) : string :=
  match x with
  | NaN => "NaN"
  | Inf neg => if neg then "-Infinity" else "Infinity"
  | Num _ 0%N _ => "0"
  | Num neg m e =>
      let p := if 0 <=? e then Z.of_N m * 2 ^ e else Z.of_N m in
      let q := if 0 <=? e then 1 else 2 ^ (- e) in
      let n := magnitude 660 (p * 10 ^ 330) q (-330) in
      let (s, k) := shortest 16 (Num false m e) p q n 1 in
      (if neg then "-" else "")
      ++ (if s =? 10 ^ k then format_digits 1 1 (n + 1) else format_digits s k n)
  end.

(** ** Codec: [enc] and [dec] *)

(** The LZ-String backend, when the global [LZString] is defined.
    [decompressFromBase64] answers [null] ([None]) on some inputs. *)
Record lzstring : Type := {
  compressToBase64 : string -> string;
  decompressFromBase64 : string -> option string;
}.

(** The pair [{ state, enc }] produced by [enc] and read by [dec]. *)
Module Encoded.
Record t : Type := {
  state : string;
  enc : string;
}.
End Encoded.

Section Codec.
Variable JSON_stringify : json -> string.
Variable JSON_parse : string -> result json.
Variable LZString : option lzstring.
Variable compression : bool.          (* settings.compression *)

Definition HAS_LZ : bool :=
  match LZString with Some _ => true | None => false end.

Definition plain (o : json) : Encoded.t :=
  {| Encoded.state := JSON_stringify o; Encoded.enc := STATE_PLAIN |}.

(** The compressed branch is taken only under [HAS_LZ], that is, when the
    backend is defined. *)
Definition enc (o : json) : Encoded.t :=
  if compression && HAS_LZ then
    match LZString with
    | Some lz =>
        {| Encoded.state := compressToBase64 lz (JSON_stringify o);
           Encoded.enc := STATE_LZ |}
    | None => plain o
    end
  else plain o.

(** [JSON.parse(x)] where [x] may be [null]: the text is then ["null"]. *)
Definition parse_nullable (x : option string) : result json :=
  match x with
  | Some t => JSON_parse t
  | None => JSON_parse "null"
  end.

Definition dec_body (r : Encoded.t) : result json :=
  if (Encoded.enc r =? STATE_LZ)%string then
    match LZString with
    | None => throw "LZString unavailable for decompression."
    | Some lz => parse_nullable (decompressFromBase64 lz (Encoded.state r))
    end
  else JSON_parse (Encoded.state r).

Definition dec (r : Encoded.t) : result json :=
  match dec_body r with
  | inl e => inl (Error "Corrupted save data or decode failure." (Some e))
  | inr v => inr v
  end.
End Codec.

(** ** IndexedDB keys *)

Inductive idbkey : Type :=
| KNum (z : Z)
| KStr (s : string)
| KArr (ks : list idbkey).

(** Lexicographic comparison of two lists. *)
Fixpoint lex_compare {A : Type} (cmp : A -> A -> comparison) (xs ys : list A)
  {struct xs} : comparison :=
  match xs, ys with
  | [], [] => Eq
  | [], _ :: _ => Lt
  | _ :: _, [] => Gt
  | x :: xs', y :: ys' =>
      match cmp x y with
      | Eq => lex_compare cmp xs' ys'
      | c => c
      end
  end.

(** Key order: numbers, then strings, then arrays (element-wise). *)
Fixpoint key_compare (a b : idbkey) : comparison :=
  match a, b with
  | KNum x, KNum y => Z.compare x y
  | KNum _, _ => Lt
  | KStr _, KNum _ => Gt
  | KStr x, KStr y => String.compare x y
  | KStr _, KArr _ => Lt
  | KArr xs, KArr ys => lex_compare key_compare xs ys
  | KArr _, _ => Gt
  end.

Definition key_eqb (a b : idbkey) : bool :=
  match key_compare a b with Eq => true | _ => false end.

(** [f] on every element, if it succeeds on all of them. *)
Fixpoint map_all {A B : Type} (f : A -> option B) (l : list A) : option (list B) :=
  match l with
  | [] => Some []
  | x :: rest =>
      match f x, map_all f rest with
      | Some y, Some ys => Some (y :: ys)
      | _, _ => None
      end
  end.

(** The key a value converts to, if it is a valid key. *)
Fixpoint key_of_json (v : json) : option idbkey :=
  match v with
  | JNum z => Some (KNum z)
  | JStr s => Some (KStr s)
  | JArr items =>
      match map_all key_of_json items with
      | Some ks => Some (KArr ks)
      | None => None
      end
  | _ => None
  end.

Definition key_of (v : option json) : option idbkey :=
  match v with
  | Some j => key_of_json j
  | None => None
  end.

(** ** Save records *)

Module Meta.
Record t : Type := {
  name : string;
  scene : json;
  ts : Z;
  quick : option Z;      (* [null] for a manual save *)
  fmt : Z;
}.
End Meta.

Module Save.
Record t : Type := {
  id : string;
  game : string;
  meta : Meta.t;
  state : string;
  enc : string;
}.

Definition name (r : t) : string := Meta.name (meta r).
Definition ts (r : t) : Z := Meta.ts (meta r).
Definition quick (r : t) : option Z := Meta.quick (meta r).

(** The two properties [dec] reads from a record. *)
Definition payload (r : t) : Encoded.t :=
  {| Encoded.state := state r; Encoded.enc := enc r |}.

Definition keyPath_id (r : t) : option idbkey := Some (KStr (id r)).
Definition index_game (r : t) : option idbkey := Some (KStr (game r)).
End Save.

(** ** Array.prototype.sort with a comparator (stable) *)

Section Sort.
Context {A : Type}.
Variable cmp : A -> A -> Z.

Fixpoint sort_insert (x : A) (l : list A) : list A :=
  match l with
  | [] => [x]
  | y :: l' => if cmp x y <=? 0 then x :: y :: l' else y :: sort_insert x l'
  end.

Definition Array_sort (l : list A) : list A :=
  fold_right sort_insert [] l.
End Sort.

(** ** Database wrapper (class DB) *)

Module DB.
Section ObjectStore.
Context {V : Type}.
(** [createObjectStore(STORE, { keyPath: "id" })] and
    [createIndex("game", "game")] *)
Variable keyPath_id : V -> option idbkey.
Variable index_game : V -> option idbkey.

(** The records of the object store, in ascending key order. *)
Definition store : Type := Datatypes.list V.

Definition has_key (k : idbkey) (x : V) : bool :=
  match keyPath_id x with
  | Some kx => key_eqb kx k
  | None => false
  end.

(** Insert-or-replace at key [k]. *)
Fixpoint insert (k : idbkey) (o : V) (db : store) : store :=
  match db with
  | [] => [o]
  | x :: rest =>
      match keyPath_id x with
      | Some kx =>
          match key_compare k kx with
          | Lt => o :: x :: rest
          | Eq => o :: rest
          | Gt => x :: insert k o rest
          end
      | None => x :: insert k o rest
      end
  end.

Definition put (o : V) (db : store) : result store :=
  match keyPath_id o with
  | Some k => inr (insert k o db)
  | None => throw "DataError"
  end.

Definition get (k : idbkey) (db : store) : option V :=
  find (has_key k) db.

Definition delete (k : idbkey) (db : store) : store :=
  filter (fun x => negb (has_key k x)) db.

(** [index("game").getAll(g)] *)
Definition getAll_game (g : idbkey) (db : store) : Datatypes.list V :=
  filter (fun x => match index_game x with
                   | Some kg => key_eqb kg g
                   | None => false
                   end) db.
End ObjectStore.

(** The store of save records written by [SaveManager.create]. *)
Definition saves : Type := Datatypes.list Save.t.

Definition put_save : Save.t -> saves -> result saves :=
  put Save.keyPath_id.
Definition get_save (id : string) : saves -> option Save.t :=
  get Save.keyPath_id (KStr id).
Definition delete_save (id : string) : saves -> saves :=
  delete Save.keyPath_id (KStr id).

(** [list(g)]: the records of game [g], newest first. *)
Definition list (g : string) (db : saves) : Datatypes.list Save.t :=
  Array_sort (fun a b => Save.ts b - Save.ts a)
             (getAll_game Save.index_game (KStr g) db).
End DB.

(** ** Core save logic (class SaveManager) *)

(** What the host page answers during one call. *)
Record world : Type := {
  getCSApi : bool;                (* are [restoreObject] and [initStore] functions? *)
  restoreObject : option json;    (* the state handed to the capture callback *)
  now_id : Z;                     (* [now()] inside the record id *)
  uid : string;
  now_ts : Z;                     (* [now()] for [meta.ts] *)
}.

Module SaveManager.
Section Engine.
Variable JSON_stringify : json -> string.
Variable LZString : option lzstring.
Variable compression : bool.
Variable gameId : string.

Definition capture (w : world) : result json :=
  if negb (getCSApi w) then throw "Game API not found."
  else
    match restoreObject w with
    | Some s =>
        if truthy (Some s) then inr s
        else throw "No safe state found. Try making a choice first."
    | None => throw "No safe state found. Try making a choice first."
    end.

(** Truthiness of [r.meta.quick]. *)
Definition quick_truthy (q : option Z) : bool :=
  match q with
  | Some z => negb (z =? 0)
  | None => false
  end.

(** The callback mapped over the listing in [create]. *)
Definition save_number (r : Save.t) : number :=
  if quick_truthy (Save.quick r) || negb (startsWith "Save " (Save.name r))
  then Int 0
  else
    let n := Number (slice 5 (Save.name r)) in
    if isNaN n then Int 0 else n.

(** [Math.max(0, ...rows.map(...))] *)
Definition max_number (rows : list Save.t) : number :=
  Math_max (Int 0 :: map save_number rows).

(** [`Save ${max + 1}`]. The answer is always [Some]; the type is that of
    [resolve_name]. *)
Definition default_name (rows : list Save.t) : option string :=
  Some ("Save " ++ Number_toString (number_add (max_number rows) (Int 1))).

(** [name?.trim() || `Save ${max + 1}`] *)
Definition resolve_name (name : string) (rows : list Save.t) : option string :=
  if (trim name =? "")%string then default_name rows else Some (trim name).

Definition new_id (w : world) : string :=
  gameId ++ "_" ++ show_Z (now_id w) ++ "_" ++ uid w.

Definition new_record (w : world) (nm : string) (quick : option Z) (s : json)
  : Save.t :=
  let e := enc JSON_stringify LZString compression s in
  {| Save.id := new_id w;
     Save.game := gameId;
     Save.meta :=
       {| Meta.name := nm;
          Meta.scene := js_or (chain "sceneName" (prop "stats" s)) (JStr "");
          Meta.ts := now_ts w;
          Meta.quick := quick;
          Meta.fmt := METADATA_FORMAT_VERSION |};
     Save.state := Encoded.state e;
     Save.enc := Encoded.enc e |}.

(** [create(name, quick)]: the store afterwards and the outcome of the
    call. *)
Definition create (w : world) (name : string) (quick : option Z) (db : DB.saves)
  : option (DB.saves * result unit) :=
  match capture w with
  | inl e => Some (db, inl e)
  | inr s =>
      match resolve_name name (DB.list gameId db) with
      | None => None
      | Some nm =>
          match DB.put_save (new_record w nm quick s) db with
          | inl e => Some (db, inl e)
          | inr db' => Some (db', inr tt)
          end
      end
  end.

(** The loop [for (let i = 1; i <= QUICK_SLOTS; i++)], [n] iterations
    left, [s] being the value kept when no iteration breaks. *)
Fixpoint first_unused (usedSlots : list (option Z)) (i : Z) (n : nat) (s : Z) : Z :=
  match n with
  | O => s
  | S n' =>
      if negb (existsb (fun u => match u with
                                 | Some z => z =? i
                                 | None => false
                                 end) usedSlots)
      then i
      else first_unused usedSlots (i + 1) n' s
  end.

Definition qSaves (db : DB.saves) : list Save.t :=
  Array_sort (fun a b => Save.ts a - Save.ts b)
             (filter (fun r => match Save.quick r with
                               | Some _ => true
                               | None => false
                               end) (DB.list gameId db)).

(** The slot [s] chosen by [quick]. *)
Definition target_slot (db : DB.saves) : result (option Z) :=
  let q := qSaves db in
  if Z.of_nat (List.length q) <? QUICK_SLOTS then
    inr (Some (first_unused (map Save.quick q) 1 (Z.to_nat QUICK_SLOTS) 1))
  else
    match q with
    | r :: _ => inr (Save.quick r)
    | [] => throw "TypeError"
    end.

(** [r.meta.quick === s] *)
Definition slot_eqb (a b : option Z) : bool :=
  match a, b with
  | Some x, Some y => x =? y
  | None, None => true
  | _, _ => false
  end.

Definition evict (s : option Z) (db : DB.saves) : DB.saves :=
  fold_left (fun d r => if slot_eqb (Save.quick r) s
                        then DB.delete_save (Save.id r) d
                        else d)
            (qSaves db) db.

Definition show_slot (s : option Z) : string :=
  match s with
  | Some z => show_Z z
  | None => "null"
  end.

Definition slot_name (s : option Z) : string :=
  "Slot " ++ show_slot s ++ "/" ++ show_Z QUICK_SLOTS.

Definition quick (w : world) (db : DB.saves) : option (DB.saves * result unit) :=
  match target_slot db with
  | inl e => Some (db, inl e)
  | inr s => create w (slot_name s) s (evict s db)
  end.

(** Successive [quick()] calls: the store after each call. *)
Fixpoint quick_run (ws : list world) (db : DB.saves) : option (list DB.saves) :=
  match ws with
  | [] => Some []
  | w :: ws' =>
      match quick w db with
      | None => None
      | Some (db', _) =>
          match quick_run ws' db' with
          | None => None
          | Some rest => Some (db' :: rest)
          end
      end
  end.

(** The slots chosen by successive [quick()] calls. *)
Fixpoint quick_slots (ws : list world) (db : DB.saves) : list (result (option Z)) :=
  match ws with
  | [] => []
  | w :: ws' =>
      target_slot db ::
      match quick w db with
      | Some (db', _) => quick_slots ws' db'
      | None => []
      end
  end.
End Engine.

(** *** load *)

(** A thrown value: an [Error] object, or any other value ([None] is
    [undefined]). *)
Inductive thrown : Type :=
| Err (e : error)
| Val (v : option json).

(** What a host function does when called: it returns, or throws. *)
Definition hook (A : Type) : Type := (thrown + A)%type.

(** The TypeError for reading property [p] of [null] or [undefined], in the
    wording of V8. *)
Definition cannot_read (base p : string) : error :=
  Error ("Cannot read properties of " ++ base ++ " (reading '" ++ p ++ "')") None.

(** ToString, as applied by a string concatenation. *)
Fixpoint to_text (v : json) : string :=
  match v with
  | JNull => "null"
  | JBool b => if b then "true" else "false"
  | JNum z => show_Z z
  | JStr s => s
  | JArr items =>
      (fix join (l : list json) : string :=
         match l with
         | [] => ""
         | x :: rest =>
             (match x with JNull => "" | _ => to_text x end)
             ++ match rest with [] => "" | _ => "," ++ join rest end
         end) items
  | JObj _ => "[object Object]"
  end.

(** The text of [e.message] for a caught value [e]. Reading a property of
    [null] or [undefined] throws; an [Error] object has its message; of the
    other values only an object can have a [message] of its own. *)
Definition message_text (x : thrown) : result string :=
  match x with
  | Err e => inr (message e)
  | Val None => inl (cannot_read "undefined" "message")
  | Val (Some JNull) => inl (cannot_read "null" "message")
  | Val (Some (JObj fields)) =>
      match assoc "message" fields with
      | Some v => inr (to_text v)
      | None => inr "undefined"
      end
  | Val (Some _) => inr "undefined"
  end.

(** Behaviour of a host function that is handed a callback. *)
Record call : Type := {
  calls_back : bool;          (* the callback runs before the function returns *)
  outcome : hook unit;        (* the function then returns or throws *)
}.

(** The ChoiceScript page as seen by one [load] call. *)
Record csapi : Type := {
  initStore : hook unit;                   (* [api.i()] *)
  saveCookie : option call;                (* [api.w.saveCookie], when truthy *)
  set_slot : call;                         (* [st.set("state" + slot, parsedState, run)] *)
  set_state : hook unit;                   (* [st.set("state", ...)] after an engine error *)
  set_state_run : hook unit;               (* [st.set("state", ...)] inside [run] *)
  restore_fn : bool;                       (* [typeof fn === "function"] *)
  clearScreen : option (hook unit);        (* [api.w.clearScreen(...)], when truthy *)
}.

Inductive event : Type :=
| Toast (m : string)
| ConsoleError (x : thrown)
| ConsoleWarn (x : thrown)
| StandardLoad        (* [clearScreen] accepted the restore function *)
| HardInject.         (* the canonical state was written; the page reloads *)

Section Load.
Variable JSON_parse : string -> result json.
Variable LZString : option lzstring.

(** The [try] block of [run]. *)
Definition run_try (api : csapi) (parsedState : json) : hook bool :=
  match clearScreen api with
  | Some cs =>
      if restore_fn api then
        match prop "stats" parsedState with
        | Some JNull => inl (Err (cannot_read "null" "scene"))   (* [stats.scene] *)
        | _ =>
            match cs with
            | inl x => inl x
            | inr _ => inr true
            end
        end
      else inr false
  | None => inr false
  end.

(** The callback [run]: the events it causes and whether it throws. *)
Definition run (api : csapi) (parsedState : json) : list event * hook unit :=
  let hard (pre : list event) :=
    match set_state_run api with
    | inl x => (pre, inl x)
    | inr _ => (pre ++ [HardInject], inr tt)%list
    end in
  match run_try api parsedState with
  | inr true => ([StandardLoad], inr tt)
  | inr false => hard []
  | inl x => hard [ConsoleWarn x]
  end.

(** A host function called with a callback. What the callback throws goes
    to the host function that ran it, whose own outcome is [outcome]; a
    callback the host keeps for later runs after [load] has settled. *)
Definition invoke (c : call) (cb : list event * hook unit)
  : list event * hook unit :=
  (if calls_back c then fst cb else [], outcome c).

(** [typeof s === "string" ? JSON.parse(s) : s] *)
Definition parse_state (s : json) : result json :=
  match s with
  | JStr t => JSON_parse t
  | _ => inr s
  end.

(** The host function the state is handed to first. *)
Definition primary (api : csapi) : call :=
  match saveCookie api with
  | Some c => c
  | None => set_slot api
  end.

(** The outer [try] block of [load]. *)
Definition load_body (api : option csapi) (id : string) (db : DB.saves)
  : list event * hook unit :=
  match DB.get_save id db with
  | None => ([], inl (Err (Error "Save file missing from database." None)))
  | Some r =>
      match api with
      | None => ([], inl (Err (Error "Game API not found." None)))
      | Some api =>
          match dec JSON_parse LZString (Save.payload r) with
          | inl e => ([], inl (Err e))
          | inr s =>
              match initStore api with
              | inl x => ([], inl x)
              | inr _ =>
                  match parse_state s with
                  | inl e => ([], inl (Err e))
                  | inr JNull =>                      (* destructuring [null] *)
                      ([], inl (Err (cannot_read "null" "stats")))
                  | inr parsedState =>
                      match invoke (primary api) (run api parsedState) with
                      | (ev, inr _) => (ev, inr tt)
                      | (ev, inl engineErr) =>
                          match set_state api with
                          | inl x => (ev ++ [ConsoleError engineErr], inl x)%list
                          | inr _ =>
                              (ev ++ [ConsoleError engineErr; HardInject], inr tt)%list
                          end
                      end
                  end
              end
          end
      end
  end.

(** [load(id)]: the [catch] block reads the message of what it caught, so
    that the promise is rejected when that value is [null] or
    [undefined]. *)
Definition load (api : option csapi) (id : string) (db : DB.saves)
  : list event * hook unit :=
  match load_body api id db with
  | (ev, inr _) => (ev, inr tt)
  | (ev, inl x) =>
      match message_text x with
      | inr m => (ev ++ [Toast ("Load failed: " ++ m); ConsoleError x], inr tt)%list
      | inl e => (ev, inl (Err e))
      end
  end.
End Load.

(** *** import *)

Definition json_keyPath_id (v : json) : option idbkey := key_of (prop "id" v).
Definition json_index_game (v : json) : option idbkey := key_of (prop "game" v).

(** The object store as [import] sees it: any object with a valid key. *)
Definition objects : Type := Datatypes.list json.

Section Transcoder.
Variable JSON_parse : string -> result json.
Variable gameId : string.

(** [parsed[0]?.meta?.fmt || 0] *)
Definition version (parsed : list json) : json :=
  js_or (chain "fmt" (chain "meta" (nth_error parsed 0))) (JNum 0).

(** [r?.id && r?.state && r?.meta?.ts != null] *)
Definition valid_entry (r : json) : bool :=
  truthy (prop "id" r) && truthy (prop "state" r)
  && not_nullish (chain "ts" (prop "meta" r)).

(** [r.game = gameId()] *)
Definition rehome (r : json) : json := set_prop "game" (JStr gameId) r.

(** [Promise.all(valid.map(...))]: every [put] is issued; the first
    rejection, if any, is the outcome. *)
Fixpoint put_all (valid : list json) (db : objects) : objects * option error :=
  match valid with
  | [] => (db, None)
  | r :: rest =>
      match DB.put json_keyPath_id (rehome r) db with
      | inl e => (fst (put_all rest db), Some e)
      | inr db' => put_all rest db'
      end
  end.

Definition import_body (json_text : string) (db : objects) : objects * result unit :=
  match JSON_parse json_text with
  | inl e => (db, inl e)
  | inr (JArr parsed) =>
      if negb (strict_eq_num (version parsed) METADATA_FORMAT_VERSION)
      then (db, throw "Incompatible save version")
      else
        let valid := filter valid_entry parsed in
        match valid with
        | [] => (db, throw "No valid saves found in file.")
        | _ =>
            match put_all valid db with
            | (db', Some e) => (db', inl e)
            | (db', None) => (db', inr tt)
            end
        end
  | inr _ => (db, throw "Invalid format")
  end.

Definition import (json_text : string) (db : objects) : objects * result unit :=
  match import_body json_text db with
  | (db', inr _) => (db', inr tt)
  | (db', inl err) =>
      let m := message err in
      (db',
       inl (Error (if (m =? "Invalid format")%string
                      || (m =? "No valid saves found in file.")%string
                      || (m =? "Incompatible save version")%string
                   then m
                   else "Invalid or corrupted JSON file.")
                  (Some err)))
  end.
End Transcoder.
End SaveManager.

(** ** Further functions of the script *)

(** *** Text helpers *)

(** [s.replace(/[...]/g, f)]: every character goes through [f]. *)
Fixpoint replace_chars (f : ascii -> string) (s : string) : string :=
  match s with
  | EmptyString => EmptyString
  | String c rest => f c ++ replace_chars f rest
  end.

Definition QUOTE : ascii := ascii_of_nat 34.

Definition esc_char (c : ascii) : string :=
  if Ascii.eqb c "&" then "&amp;"
  else if Ascii.eqb c "<" then "&lt;"
  else if Ascii.eqb c ">" then "&gt;"
  else if Ascii.eqb c QUOTE then "&quot;"
  else if Ascii.eqb c "'" then "&#39;"
  else String c EmptyString.

(** [esc(s)]; [None] is an undefined argument. *)
Definition esc (s : option string) : string :=
  replace_chars esc_char (match s with Some t => t | None => "" end).

(** [h.includes(n)] *)
Fixpoint includes (n h : string) : bool :=
  String.prefix n h
  || match h with
     | EmptyString => false
     | String _ h' => includes n h'
     end.

(** [s.split(sep)] for a one-character separator. *)
Fixpoint split (sep : ascii) (s : string) : list string :=
  match s with
  | EmptyString => [EmptyString]
  | String c rest =>
      if Ascii.eqb c sep then EmptyString :: split sep rest
      else
        match split sep rest with
        | piece :: pieces => String c piece :: pieces
        | [] => [String c EmptyString]
        end
  end.

Definition lower_char (c : ascii) : ascii :=
  let n := nat_of_ascii c in
  if (((65 <=? n) && (n <=? 90))
      || ((192 <=? n) && (n <=? 222) && negb (n =? 215)))%nat
  then ascii_of_nat (n + 32)
  else c.

Fixpoint toLowerCase (s : string) : string :=
  match s with
  | EmptyString => EmptyString
  | String c rest => String (lower_char c) (toLowerCase rest)
  end.

(** *** gameId and gameSlug *)

Record page : Type := {
  storeName : option string;      (* [window.storeName], when defined *)
  hostname : string;
  title : string;                 (* [document.title] *)
  pathname : string;
}.

Definition alnum (c : ascii) : bool :=
  let n := nat_of_ascii c in
  (((48 <=? n) && (n <=? 57)) || ((65 <=? n) && (n <=? 90))
   || ((97 <=? n) && (n <=? 122)))%nat.

(** Removal of one final slash. *)
Fixpoint drop_final_slash (s : string) : string :=
  match s with
  | EmptyString => EmptyString
  | String c EmptyString => if Ascii.eqb c "/" then EmptyString else s
  | String c rest => String c (drop_final_slash rest)
  end.

Definition gameId (pg : page) : string :=
  match storeName pg with
  | Some (String c n) => String c n
  | _ =>
      if includes "itch.zone" (hostname pg) then
        let t := toLowerCase
                   (replace_chars (fun c => if alnum c then String c EmptyString
                                            else EmptyString) (title pg)) in
        if (t =? "")%string then "unknown_itch_game" else t
      else
        hd EmptyString
           (split "#" (hd EmptyString
                         (split "?" (drop_final_slash (pathname pg)))))
  end.

(** The characters replaced by [gameSlug]: the nine characters that a
    file name may not contain. *)
Definition forbidden (c : ascii) : bool :=
  existsb (Ascii.eqb c) ["<"; ">"; ":"; QUOTE; "/"; "\"; "|"; "?"; "*"]%char.

Definition gameSlug (pg : page) : string :=
  replace_chars (fun c => if forbidden c then "_" else String c EmptyString)
    (last (filter (fun piece => negb (piece =? "")%string)
                  (split "/" (pathname pg)))
          "game").

(** *** toast *)

(** [while (h.children.length >= 5) h.removeChild(h.firstChild)] *)
Fixpoint drop_oldest (children : list string) : list string :=
  match children with
  | [] => []
  | _ :: rest =>
      if (5 <=? List.length children)%nat then drop_oldest rest else children
  end.

(** [toast(m)] on the texts shown by the toast host. *)
Definition toast (m : string) (children : list string) : list string :=
  (drop_oldest children ++ [m])%list.

(** *** Settings *)

Definition POSITIONS : list string :=
  ["top-right"; "top-left"; "bottom-right"; "bottom-left"].

Module Settings.
Record buttons : Type := {
  save : json;
  quickSave : json;
  position : json;
}.
Record t : Type := {
  compression : json;
  btns : buttons;
}.
End Settings.

Definition defOpts : Settings.t :=
  {| Settings.compression := JBool true;
     Settings.btns := {| Settings.save := JBool true;
                         Settings.quickSave := JBool true;
                         Settings.position := JStr "top-right" |} |}.

(** [a ?? b] *)
Definition nullish_or (a : option json) (b : json) : json :=
  match a with
  | None => b
  | Some JNull => b
  | Some v => v
  end.

(** The value of key [k] in [{ ...defaults, ...o }]. *)
Definition spread_over (k : string) (o : json) (default : json) : json :=
  match prop k o with
  | Some v => v
  | None => default
  end.

(** [POSITIONS.includes(v)] *)
Definition known_position (v : json) : bool :=
  match v with
  | JStr s => existsb (String.eqb s) POSITIONS
  | _ => false
  end.

(** The initialisation of [settings]; [getItem] is what
    [localStorage.getItem] answers or throws. *)
Definition read_settings (JSON_parse : string -> result json)
  (getItem : result (option string)) : Settings.t :=
  let loaded :=
    match getItem with
    | inl _ => defOpts
    | inr stored =>
        let text := match stored with
                    | Some (String c t) => String c t
                    | _ => "{}"
                    end in
        match JSON_parse text with
        | inl _ => defOpts
        | inr JNull => defOpts          (* [p.compression] throws on [null] *)
        | inr p =>
            let b := js_or (prop "buttons" p) (JObj []) in
            {| Settings.compression :=
                 nullish_or (prop "compression" p) (JBool true);
               Settings.btns :=
                 {| Settings.save := spread_over "save" b (JBool true);
                    Settings.quickSave := spread_over "quickSave" b (JBool true);
                    Settings.position :=
                      spread_over "position" b (JStr "top-right") |} |}
        end
    end in
  if known_position (Settings.position (Settings.btns loaded)) then loaded
  else
    {| Settings.compression := Settings.compression loaded;
       Settings.btns :=
         {| Settings.save := Settings.save (Settings.btns loaded);
            Settings.quickSave := Settings.quickSave (Settings.btns loaded);
            Settings.position := JStr "top-right" |} |}.

(** *** The manager dialog (class Modal) *)

Module Modal.
(** The action "rename-save". *)
Definition rename (rid value : string) (db : DB.saves) : result DB.saves :=
  match DB.get_save rid db with
  | Some obj =>
      let nm := if (trim value =? "")%string then "Unnamed Save" else trim value in
      DB.put_save
        {| Save.id := Save.id obj;
           Save.game := Save.game obj;
           Save.meta := {| Meta.name := nm;
                           Meta.scene := Meta.scene (Save.meta obj);
                           Meta.ts := Meta.ts (Save.meta obj);
                           Meta.quick := Meta.quick (Save.meta obj);
                           Meta.fmt := Meta.fmt (Save.meta obj) |};
           Save.state := Save.state obj;
           Save.enc := Save.enc obj |}
        db
  | None => inr db
  end.

(** The action "del-sel": one [delete] per selected id. *)
Definition delete_selected (sel : list string) (db : DB.saves) : DB.saves :=
  fold_left (fun d i => DB.delete_save i d) sel db.

(** [(v || "").toLowerCase()] *)
Definition lower_text (v : json) : result string :=
  match js_or (Some v) (JStr "") with
  | JStr t => inr (toLowerCase t)
  | _ => throw "TypeError"
  end.

(** The filter callback of [sortRows]. *)
Definition row_matches (q : string) (r : Save.t) : result bool :=
  if includes q (toLowerCase (Save.name r)) then inr true
  else t <- lower_text (Meta.scene (Save.meta r)) ;; inr (includes q t).

Fixpoint filter_rows (q : string) (rows : list Save.t) : result (list Save.t) :=
  match rows with
  | [] => inr []
  | r :: rest =>
      keep <- row_matches q r ;;
      kept <- filter_rows q rest ;;
      inr (if keep then r :: kept else kept)
  end.

(** [sortRows()], for the query [this.q], the order [this.sort] and the
    rows [this.rows]; [localeCompare] is the collation of the browser. *)
Definition sortRows (localeCompare : string -> string -> Z)
  (query sort : string) (rows : list Save.t) : result (list Save.t) :=
  let q := toLowerCase (trim query) in
  o <- (if (q =? "")%string then inr rows else filter_rows q rows) ;;
  inr (Array_sort
         (fun a b =>
            if (sort =? "oldest")%string then Save.ts a - Save.ts b
            else if (sort =? "name")%string
                 then localeCompare (Save.name a) (Save.name b)
                 else Save.ts b - Save.ts a)
         o).
End Modal.

(** *** Export *)

(** A stored record as a JavaScript object. *)
Definition json_of_save (r : Save.t) : json :=
  JObj [("id", JStr (Save.id r));
        ("game", JStr (Save.game r));
        ("meta", JObj [("name", JStr (Save.name r));
                       ("scene", Meta.scene (Save.meta r));
                       ("ts", JNum (Save.ts r));
                       ("quick", match Save.quick r with
                                 | Some z => JNum z
                                 | None => JNull
                                 end);
                       ("fmt", JNum (Meta.fmt (Save.meta r)))]);
        ("state", JStr (Save.state r));
        ("enc", JStr (Save.enc r))].

Section Exporter.
Variable JSON_stringify : json -> string.
Variable LZString : option lzstring.
Variable compression : bool.
Variable gameId : string.

(** The single entry built by [exportCurrent]. *)
Definition exported_entry (w : world) (s : json) : json :=
  let e := enc JSON_stringify LZString compression s in
  JObj [("id", JStr (gameId ++ "_export_" ++ show_Z (now_id w) ++ "_" ++ uid w));
        ("game", JStr gameId);
        ("meta", JObj [("name", JStr "Exported State");
                       ("scene", js_or (chain "sceneName" (prop "stats" s)) (JStr ""));
                       ("ts", JNum (now_ts w));
                       ("quick", JNull);
                       ("fmt", JNum METADATA_FORMAT_VERSION)]);
        ("state", JStr (Encoded.state e));
        ("enc", JStr (Encoded.enc e))].

Definition exportCurrent (w : world) : result string :=
  s <- SaveManager.capture w ;;
  inr (JSON_stringify (JArr [exported_entry w s])).

(** The actions "exp-all" and "exp-sel": [JSON.stringify] of the rows, or
    of the selected rows. *)
Definition export_all (rows : list Save.t) : string :=
  JSON_stringify (JArr (map json_of_save rows)).

Definition export_selected (sel : list string) (rows : list Save.t) : string :=
  JSON_stringify
    (JArr (map json_of_save
             (filter (fun x => existsb (String.eqb (Save.id x)) sel) rows))).
End Exporter.

(** *** Bootstrap *)

Record boot_state : Type := {
  didBoot : bool;
  bootTries : Z;
}.

Inductive boot_effect : Type :=
| Idle             (* nothing happens *)
| Retry            (* [setTimeout(boot, 100)] *)
| Inject.          (* styles and buttons are added to the page *)

(** One call of [boot()]; [api] tells whether [getCSApi()] finds the game. *)
Definition boot (api : bool) (st : boot_state) : boot_state * boot_effect :=
  if didBoot st then (st, Idle)
  else if negb api then
    ({| didBoot := false; bootTries := bootTries st + 1 |},
     if bootTries st <? 100 then Retry else Idle)
  else ({| didBoot := true; bootTries := bootTries st |}, Inject).

(** The calls of [boot()] that follow one another through the timer;
    [apis] is what each call finds. The effects of the calls made. *)
Fixpoint boot_run (apis : list bool) (st : boot_state) : list boot_effect :=
  match apis with
  | [] => []
  | api :: rest =>
      match boot api st with
      | (st', Retry) => Retry :: boot_run rest st'
      | (_, eff) => [eff]
      end
  end.

(** ** Vocabulary of the properties *)

(** A state is serializable when [JSON.parse] reads back what
    [JSON.stringify] wrote. *)
Definition serializable (JSON_stringify : json -> string)
  (JSON_parse : string -> result json) (x : json) : Prop :=
  JSON_parse (JSON_stringify x) = inr x.

(** The backend, when present, decompresses what it compressed. *)
Definition lz_reversible (LZString : option lzstring) (t : string) : Prop :=
  forall lz, LZString = Some lz ->
             decompressFromBase64 lz (compressToBase64 lz t) = Some t.

(** The two errors [dec] can produce. *)
Definition CodecUnavailable : error :=
  Error "LZString unavailable for decompression." None.
Definition CorruptedRecord (cause : error) : error :=
  Error "Corrupted save data or decode failure." (Some cause).

(** The errors of [import], as rethrown with their cause. *)
Definition rethrown (m : string) : error := Error m (Some (Error m None)).
Definition IncompatibleVersion : error := rethrown "Incompatible save version".
Definition NoValidRecords : error := rethrown "No valid saves found in file.".
Definition CorruptedBundle (cause : error) : error :=
  Error "Invalid or corrupted JSON file." (Some cause).

(** [meta.fmt] of the first entry of a bundle, as read by [import]. *)
Definition first_fmt (parsed : list json) : option json :=
  chain "fmt" (chain "meta" (nth_error parsed 0)).

(** A small serializer, parser and compression backend used to exercise the
    codec on concrete values. *)
Definition sample_stringify (o : json) : string :=
  match o with
  | JBool true => "true"
  | JBool false => "false"
  | JNum z => show_Z z
  | _ => "null"
  end.

Definition sample_parse (t : string) : result json :=
  if (t =? "true")%string then inr (JBool true)
  else if (t =? "false")%string then inr (JBool false)
  else if (t =? "null")%string then inr JNull
  else match digits 10 t with
       | Some z => inr (JNum z)
       | None => throw "SyntaxError"
       end.

Definition sample_lz : lzstring :=
  {| compressToBase64 := fun t => String "z" t;
     decompressFromBase64 := fun t =>
       match t with
       | EmptyString => None
       | String _ rest => Some rest
       end |}.

(** The store [import] leaves behind when every [put] succeeds: the valid
    entries, re-homed, written in bundle order. *)
Definition persisted (gameId : string) (valid : list json)
  (db : SaveManager.objects) : SaveManager.objects :=
  fold_left
    (fun d r =>
       match SaveManager.json_keyPath_id r with
       | Some k =>
           DB.insert SaveManager.json_keyPath_id k (SaveManager.rehome gameId r) d
       | None => d
       end)
    valid db.

(** The entry of a bundle that ends up stored under key [k]: the last one. *)
Definition last_with_key (k : idbkey) (valid : list json) : option json :=
  find (DB.has_key SaveManager.json_keyPath_id k) (rev valid).

(** The name of the record stored under the id a [create] call generated,
    when the call succeeded. *)
Definition created_name (gameId : string) (w : world)
  (res : option (DB.saves * result unit)) : option string :=
  match res with
  | Some (db', inr _) =>
      option_map Save.name (DB.get_save (SaveManager.new_id gameId w) db')
  | _ => None
  end.

(** A record of the title counts towards the default name, with value [v]:
    its [quick] field is falsy, its name starts with "Save ", and the rest
    of the name converts to the number [v]. *)
Definition counts (gameId : string) (db : DB.saves) (r : Save.t) (n : number) : Prop :=
  In r db /\ Save.game r = gameId
  /\ SaveManager.quick_truthy (Save.quick r) = false
  /\ startsWith "Save " (Save.name r) = true
  /\ Number (slice 5 (Save.name r)) = n.

(** [a] is at most [b], for Numbers other than NaN. *)
Definition number_le (a b : number) : Prop := units a <= units b.

(** The spec's default pattern: "Save " followed by decimal digits. *)
Definition spec_pattern_number (nm : string) : option Z :=
  if startsWith "Save " nm then digits 10 (slice 5 nm) else None.

(** The spec's default number: one more than the largest number found in
    the names of the title's manual records that match the pattern. *)
Definition spec_default_number (gameId : string) (db : DB.saves) : Z :=
  1 + fold_right Z.max 0
        (map (fun r =>
                match Save.quick r, spec_pattern_number (Save.name r) with
                | None, Some v => if (Save.game r =? gameId)%string then v else 0
                | _, _ => 0
                end) db).

(** A manual save record named [nm]. *)
Definition manual_save (id game nm : string) (t : Z) : Save.t :=
  {| Save.id := id; Save.game := game;
     Save.meta := {| Meta.name := nm; Meta.scene := JStr ""; Meta.ts := t;
                     Meta.quick := None; Meta.fmt := METADATA_FORMAT_VERSION |};
     Save.state := "null"; Save.enc := STATE_PLAIN |}.

(** A page on which capture succeeds. *)
Definition sample_world (t : Z) (u : string) : world :=
  {| getCSApi := true;
     restoreObject := Some (JObj [("stats", JObj [("sceneName", JStr "startup")])]);
     now_id := t; uid := u; now_ts := t |}.

(** The quick records of a title, and the slots they hold. *)
Definition has_slot (r : Save.t) : bool :=
  match Save.quick r with Some _ => true | None => false end.

Definition is_quick_of (gameId : string) (r : Save.t) : bool :=
  (Save.game r =? gameId)%string && has_slot r.

Definition quick_records (gameId : string) (db : DB.saves) : list Save.t :=
  filter (is_quick_of gameId) db.

Definition slots (gameId : string) (db : DB.saves) : list (option Z) :=
  map Save.quick (quick_records gameId db).

(** Slot exclusivity: no slot is held twice, and at most [QUICK_SLOTS]
    quick records exist. *)
Definition slot_invariant (gameId : string) (db : DB.saves) : Prop :=
  NoDup (slots gameId db)
  /\ Z.of_nat (List.length (quick_records gameId db)) <= QUICK_SLOTS.

(** The records that hold slot [s] for the title. *)
Definition holds_slot (gameId : string) (s : option Z) (r : Save.t) : bool :=
  is_quick_of gameId r && SaveManager.slot_eqb (Save.quick r) s.

(** Does a record survive the eviction of slot [s]: no quick record of the
    title that holds [s] has its id. *)
Definition survives (gameId : string) (s : option Z) (db : DB.saves)
  (x : Save.t) : bool :=
  forallb (fun r => negb (SaveManager.slot_eqb (Save.quick r) s
                          && (Save.id r =? Save.id x)%string))
          (SaveManager.qSaves gameId db).

(** The slots held once the slots 1..k are filled. *)
Definition filled (gameId : string) (k : nat) (db : DB.saves) : Prop :=
  NoDup (slots gameId db)
  /\ forall u, In u (slots gameId db) <-> exists j, u = Some j /\ 1 <= j <= Z.of_nat k.

(** A quick save record holding slot [slot]. *)
Definition quick_save (id game : string) (slot t : Z) : Save.t :=
  {| Save.id := id; Save.game := game;
     Save.meta := {| Meta.name := SaveManager.slot_name (Some slot);
                     Meta.scene := JStr ""; Meta.ts := t;
                     Meta.quick := Some slot; Meta.fmt := METADATA_FORMAT_VERSION |};
     Save.state := "null"; Save.enc := STATE_PLAIN |}.

(** A store with all five slots taken; slots 2 and 3 share the smallest
    timestamp. *)
Definition full_store : DB.saves :=
  [manual_save "m1" "/game" "Save 1" 5;
   quick_save "q1" "/game" 1 30;
   quick_save "q2" "/game" 2 10;
   quick_save "q3" "/game" 3 10;
   quick_save "q4" "/game" 4 50;
   quick_save "q5" "/game" 5 40;
   quick_save "x1" "/other" 2 1].

(** A well-formed object store: every record has a key, and the keys
    strictly ascend. *)
Definition key_before {V : Type} (keyPath_id : V -> option idbkey) (x y : V) : Prop :=
  exists kx ky,
    keyPath_id x = Some kx /\ keyPath_id y = Some ky /\ key_compare kx ky = Lt.

Definition well_formed {V : Type} (keyPath_id : V -> option idbkey)
  (db : list V) : Prop :=
  StronglySorted (key_before keyPath_id) db
  /\ Forall (fun x => keyPath_id x <> None) db.

(** The characters with a meaning in HTML text and attribute values, other
    than the ampersand. *)
Definition markup_char (c : ascii) : bool :=
  Ascii.eqb c "<" || Ascii.eqb c ">" || Ascii.eqb c QUOTE || Ascii.eqb c "'".

(** Lowercase letters and digits. *)
Definition lower_alnum (c : ascii) : bool :=
  let n := nat_of_ascii c in
  (((48 <=? n) && (n <=? 57)) || ((97 <=? n) && (n <=? 122)))%nat.

(** The state of the script before its first [boot()]. *)
Definition boot_start : boot_state := {| didBoot := false; bootTries := 0 |}.

(** The text [read_settings] hands to [JSON.parse]. *)
Definition stored_text (stored : option string) : string :=
  match stored with
  | Some (String c t) => String c t
  | _ => "{}"
  end.

(** What the user can do to the saves of a title from the page. *)
Inductive action : Type :=
| DoCreate (w : world) (name : string)       (* the Save button and dialog *)
| DoQuick (w : world)                        (* the Quick Save button *)
| DoRename (rid value : string)
| DoDelete (rid : string)
| DoDeleteSelected (sel : list string).

Section Actions.
Variable JSON_stringify : json -> string.
Variable LZString : option lzstring.
Variable compression : bool.
Variable gameId : string.

(** The store after one action, whether or not the action fails. *)
Definition act (a : action) (db : DB.saves) : option DB.saves :=
  match a with
  | DoCreate w name =>
      option_map fst
        (SaveManager.create JSON_stringify LZString compression gameId w name None db)
  | DoQuick w =>
      option_map fst
        (SaveManager.quick JSON_stringify LZString compression gameId w db)
  | DoRename rid value =>
      match Modal.rename rid value db with
      | inr db' => Some db'
      | inl _ => Some db
      end
  | DoDelete rid => Some (DB.delete_save rid db)
  | DoDeleteSelected sel => Some (Modal.delete_selected sel db)
  end.

Fixpoint act_all (actions : list action) (db : DB.saves) : option DB.saves :=
  match actions with
  | [] => Some db
  | a :: rest =>
      match act a db with
      | Some db' => act_all rest db'
      | None => None
      end
  end.
End Actions.

(** A bundle of two entries, and a parser that reads it from any text. *)
Definition sample_bundle : list json :=
  [JObj [("id", JStr "a"); ("game", JStr "/other"); ("state", JStr "{}");
         ("meta", JObj [("ts", JNum 1); ("fmt", JNum 1)])];
   JObj [("id", JStr "c"); ("state", JStr "{}");
         ("meta", JObj [("ts", JNum 3); ("fmt", JNum 1)])]].

Definition sample_bundle_parse (t : string) : result json :=
  inr (JArr sample_bundle).

(** A record with its title replaced. *)
Definition rehomed (gameId : string) (r : Save.t) : Save.t :=
  {| Save.id := Save.id r; Save.game := gameId; Save.meta := Save.meta r;
     Save.state := Save.state r; Save.enc := Save.enc r |}.

(** Does a row pass the filter of [sortRows] for the query [q]. *)
Definition shown_for (q : string) (r : Save.t) : bool :=
  match Modal.row_matches q r with
  | inr true => true
  | _ => false
  end.

(** The slot the [k]-th quick save of a title goes to, counting from 0,
    when the slots are taken in turn. *)
Definition slot_in_turn (k : nat) : option Z :=
  Some (Z.of_nat (k mod 5) + 1).

(** The quick records of a title after [k] quick saves taken in turn: [Q]
    lists them oldest first. *)
Definition in_turn (gameId : string) (k : nat) (db : DB.saves)
  (Q : list Save.t) : Prop :=
  Permutation (quick_records gameId db) Q
  /\ StronglySorted (fun a b => Save.ts a < Save.ts b) Q
  /\ NoDup (map Save.id Q)
  /\ NoDup (map Save.quick Q)
  /\ map Save.quick Q = map slot_in_turn (seq (k - Nat.min k 5) (Nat.min k 5)).



(** * Theorems *)

(** ** Codec *)

Section CodecFacts.
Variable JSON_stringify : json -> string.
Variable JSON_parse : string -> result json.

Lemma dec_plain (LZString : option lzstring) (t : string) :
  dec JSON_parse LZString {| Encoded.state := t; Encoded.enc := STATE_PLAIN |}
  = match JSON_parse t with
    | inl e => inl (CorruptedRecord e)
    | inr v => inr v
    end.
Proof. reflexivity. Qed.

Lemma dec_lz (lz : lzstring) (t : string) :
  dec JSON_parse (Some lz) {| Encoded.state := t; Encoded.enc := STATE_LZ |}
  = match parse_nullable JSON_parse (decompressFromBase64 lz t) with
    | inl e => inl (CorruptedRecord e)
    | inr v => inr v
    end.
Proof. reflexivity. Qed.

(** C2. Round trip: for a serializable state [x], whatever the compression
    setting and whether or not the backend is present, decoding the
    encoding of [x] gives back [x]. *)
Theorem dec_enc_roundtrip (LZString : option lzstring) (compression : bool)
  (x : json) :
  serializable JSON_stringify JSON_parse x ->
  lz_reversible LZString (JSON_stringify x) ->
  dec JSON_parse LZString (enc JSON_stringify LZString compression x) = inr x.
Proof.
  intros Hser Hlz. unfold enc, HAS_LZ.
  destruct LZString as [lz|]; destruct compression; cbn [andb].
  - rewrite dec_lz, (Hlz lz eq_refl). cbn. now rewrite Hser.
  - unfold plain. now rewrite dec_plain, Hser.
  - unfold plain. now rewrite dec_plain, Hser.
  - unfold plain. now rewrite dec_plain, Hser.
Qed.

(** C3 (as amended). A record tagged as compressed, decoded without a
    backend, never yields a state and never takes the plain path: [dec]
    fails with the same wrapper error as any other decode failure, and the
    unavailability of the backend is that error's cause. *)
Theorem dec_lz_without_backend (r : Encoded.t) :
  Encoded.enc r = STATE_LZ ->
  dec JSON_parse None r = inl (CorruptedRecord CodecUnavailable).
Proof.
  intros Htag. unfold dec, dec_body. now rewrite Htag.
Qed.
End CodecFacts.

Lemma dec_enc_roundtrip_witness :
  serializable sample_stringify sample_parse (JNum 42)
  /\ lz_reversible (Some sample_lz) (sample_stringify (JNum 42))
  /\ dec sample_parse (Some sample_lz)
         (enc sample_stringify (Some sample_lz) true (JNum 42)) = inr (JNum 42).
Proof.
  assert (H1 : serializable sample_stringify sample_parse (JNum 42))
    by reflexivity.
  assert (H2 : lz_reversible (Some sample_lz) (sample_stringify (JNum 42))).
  { intros lz E. injection E as <-. reflexivity. }
  split; [exact H1 | split; [exact H2 |]].
  exact (dec_enc_roundtrip sample_stringify sample_parse (Some sample_lz) true
           (JNum 42) H1 H2).
Defined.

(** C3 fails as stated: without a backend, the error [dec] raises for a
    compressed record is the one it raises for a corrupted plain record, not
    a distinct one. *)
Lemma dec_unavailable_counterexample :
  let compressed := {| Encoded.state := "N4Ig"; Encoded.enc := STATE_LZ |} in
  let garbled := {| Encoded.state := "{"; Encoded.enc := STATE_PLAIN |} in
  dec sample_parse None compressed <> inl CodecUnavailable
  /\ (exists e1 e2,
        dec sample_parse None compressed = inl e1
        /\ dec sample_parse None garbled = inl e2
        /\ message e1 = message e2
        /\ message e1 <> message CodecUnavailable).
Proof.
  cbn zeta. split.
  - vm_compute. discriminate.
  - eexists. eexists. vm_compute.
    repeat split; try reflexivity. discriminate.
Qed.

Lemma dec_lz_without_backend_witness :
  Encoded.enc {| Encoded.state := "N4Ig"; Encoded.enc := "lz" |} = STATE_LZ
  /\ dec sample_parse None {| Encoded.state := "N4Ig"; Encoded.enc := "lz" |}
     = inl (CorruptedRecord CodecUnavailable).
Proof.
  split; [reflexivity |].
  exact (dec_lz_without_backend sample_parse
           {| Encoded.state := "N4Ig"; Encoded.enc := "lz" |} eq_refl).
Defined.

(** ** Key order *)

Lemma idbkey_induction (P : idbkey -> Prop) :
  (forall z, P (KNum z)) ->
  (forall s, P (KStr s)) ->
  (forall ks, Forall P ks -> P (KArr ks)) ->
  forall k, P k.
Proof.
  intros HN HS HA. fix IH 1. intros [z|s|ks].
  - apply HN.
  - apply HS.
  - apply HA. induction ks as [|k ks IHks]; constructor; [apply IH | exact IHks].
Qed.

Lemma string_compare_refl (x : string) : String.compare x x = Eq.
Proof.
  pose proof (String.compare_antisym x x) as H.
  destruct (String.compare x x); [reflexivity | discriminate | discriminate].
Qed.

Lemma key_compare_refl (k : idbkey) : key_compare k k = Eq.
Proof.
  induction k as [z|s|ks IH] using idbkey_induction; cbn.
  - apply Z.compare_refl.
  - apply string_compare_refl.
  - induction IH as [|k ks Hk _ IHks]; cbn; [reflexivity |].
    now rewrite Hk.
Qed.

Lemma key_compare_eq (a b : idbkey) : key_compare a b = Eq -> a = b.
Proof.
  revert b. induction a as [z|s|ks IH] using idbkey_induction;
    intros [z'|s'|ks']; cbn; try discriminate.
  - intros H. apply Z.compare_eq in H. now subst.
  - intros H. apply String.compare_eq_iff in H. now subst.
  - intros H. f_equal. revert ks' H.
    induction IH as [|k ks Hk _ IHks]; intros [|k' ks']; cbn;
      try discriminate; [reflexivity |].
    destruct (key_compare k k') eqn:E; try discriminate.
    intros H. apply Hk in E. subst. f_equal. now apply IHks.
Qed.

Lemma key_compare_antisym (a b : idbkey) :
  key_compare a b = CompOpp (key_compare b a).
Proof.
  revert b. induction a as [z|s|ks IH] using idbkey_induction;
    intros [z'|s'|ks']; cbn; try reflexivity.
  - apply Z.compare_antisym.
  - apply String.compare_antisym.
  - revert ks'. induction IH as [|k ks Hk _ IHks]; intros [|k' ks']; cbn;
      try reflexivity.
    rewrite (Hk k'). destruct (key_compare k' k); cbn; auto.
Qed.

Lemma ascii_compare_trans (a b c : ascii) :
  Ascii.compare a b = Lt -> Ascii.compare b c = Lt -> Ascii.compare a c = Lt.
Proof.
  unfold Ascii.compare. rewrite !N.compare_lt_iff. apply N.lt_trans.
Qed.

Lemma string_compare_trans (a b c : string) :
  String.compare a b = Lt -> String.compare b c = Lt -> String.compare a c = Lt.
Proof.
  revert b c. induction a as [|x a IH]; intros [|y b] [|z c]; cbn;
    try discriminate; try reflexivity.
  destruct (Ascii.compare x y) eqn:Exy; try discriminate;
    destruct (Ascii.compare y z) eqn:Eyz; try discriminate.
  - apply Ascii.compare_eq_iff in Exy, Eyz. subst.
    assert (E : Ascii.compare z z = Eq).
    { pose proof (Ascii.compare_antisym z z) as H.
      destruct (Ascii.compare z z); [reflexivity | discriminate | discriminate]. }
    rewrite E. apply IH.
  - apply Ascii.compare_eq_iff in Exy. subst. now rewrite Eyz.
  - apply Ascii.compare_eq_iff in Eyz. subst. now rewrite Exy.
  - now rewrite (ascii_compare_trans x y z Exy Eyz).
Qed.

Lemma key_compare_trans (a b c : idbkey) :
  key_compare a b = Lt -> key_compare b c = Lt -> key_compare a c = Lt.
Proof.
  revert b c. induction a as [z|s|ks IH] using idbkey_induction;
    intros [z1|s1|ks1] [z2|s2|ks2]; cbn; try discriminate; try reflexivity.
  - rewrite !Z.compare_lt_iff. apply Z.lt_trans.
  - apply string_compare_trans.
  - revert ks1 ks2.
    induction IH as [|x xs Hx _ IHxs]; intros [|y ys] [|z zs]; cbn;
      try discriminate; try reflexivity.
    destruct (key_compare x y) eqn:Exy; try discriminate;
      destruct (key_compare y z) eqn:Eyz; try discriminate.
    + apply key_compare_eq in Exy, Eyz. subst.
      rewrite key_compare_refl. apply IHxs.
    + apply key_compare_eq in Exy. subst. now rewrite Eyz.
    + apply key_compare_eq in Eyz. subst. now rewrite Exy.
    + now rewrite (Hx y z Exy Eyz).
Qed.

Lemma key_eqb_refl (k : idbkey) : key_eqb k k = true.
Proof. unfold key_eqb. now rewrite key_compare_refl. Qed.

Lemma key_eqb_eq (a b : idbkey) : key_eqb a b = true <-> a = b.
Proof.
  unfold key_eqb. split.
  - destruct (key_compare a b) eqn:E; try discriminate.
    intros _. now apply key_compare_eq.
  - intros ->. now rewrite key_compare_refl.
Qed.

Lemma key_eqb_sym (a b : idbkey) : key_eqb a b = key_eqb b a.
Proof.
  unfold key_eqb. rewrite (key_compare_antisym a b).
  destruct (key_compare b a); reflexivity.
Qed.

(** ** The object store *)

Section StoreFacts.
Context {V : Type}.
Variable keyPath_id : V -> option idbkey.

Lemma has_key_own (k : idbkey) (o : V) :
  keyPath_id o = Some k -> DB.has_key keyPath_id k o = true.
Proof. intros H. unfold DB.has_key. rewrite H. apply key_eqb_refl. Qed.

Lemma has_key_iff (k : idbkey) (o : V) :
  DB.has_key keyPath_id k o = true <-> keyPath_id o = Some k.
Proof.
  unfold DB.has_key. destruct (keyPath_id o) as [k'|].
  - rewrite key_eqb_eq. split; [now intros -> | now intros [= ->]].
  - split; discriminate.
Qed.

(** A record just written is the one read back under its key. *)
Lemma get_insert (k : idbkey) (o : V) (db : DB.store) :
  keyPath_id o = Some k ->
  DB.get keyPath_id k (DB.insert keyPath_id k o db) = Some o.
Proof.
  intros Ho. unfold DB.get.
  induction db as [|x db IH]; cbn.
  - now rewrite (has_key_own k o Ho).
  - destruct (keyPath_id x) as [kx|] eqn:Ex.
    + destruct (key_compare k kx) eqn:E; cbn.
      * now rewrite (has_key_own k o Ho).
      * now rewrite (has_key_own k o Ho).
      * unfold DB.has_key at 1. rewrite Ex. unfold key_eqb.
        rewrite (key_compare_antisym kx k), E. cbn. exact IH.
    + cbn. unfold DB.has_key at 1. rewrite Ex. exact IH.
Qed.

(** Writing under one key leaves every other key as it was. *)
Lemma get_insert_other (k k' : idbkey) (o : V) (db : DB.store) :
  keyPath_id o = Some k -> k <> k' ->
  DB.get keyPath_id k' (DB.insert keyPath_id k o db) = DB.get keyPath_id k' db.
Proof.
  intros Ho Hne. unfold DB.get.
  assert (Hno : DB.has_key keyPath_id k' o = false).
  { destruct (DB.has_key keyPath_id k' o) eqn:E; [|reflexivity].
    apply has_key_iff in E. congruence. }
  induction db as [|x db IH]; cbn.
  - now rewrite Hno.
  - destruct (keyPath_id x) as [kx|] eqn:Ex.
    + destruct (key_compare k kx) eqn:E; cbn.
      * rewrite Hno. apply key_compare_eq in E. subst kx.
        assert (Hx : DB.has_key keyPath_id k' x = false).
        { destruct (DB.has_key keyPath_id k' x) eqn:E'; [|reflexivity].
          apply has_key_iff in E'. congruence. }
        now rewrite Hx.
      * now rewrite Hno.
      * now rewrite IH.
    + cbn. now rewrite IH.
Qed.

Lemma get_insert_cases (k k' : idbkey) (o : V) (db : DB.store) :
  keyPath_id o = Some k ->
  DB.get keyPath_id k' (DB.insert keyPath_id k o db)
  = if DB.has_key keyPath_id k' o then Some o else DB.get keyPath_id k' db.
Proof.
  intros Ho. destruct (DB.has_key keyPath_id k' o) eqn:E.
  - apply has_key_iff in E. assert (k = k') by congruence. subst k'.
    now apply get_insert.
  - apply get_insert_other; [exact Ho |].
    intros ->. rewrite (has_key_own k' o Ho) in E. discriminate.
Qed.

(** The shape of a store after a write: the record sits where its key
    belongs, in place of the record that had the key, if any. *)
Lemma insert_shape (k : idbkey) (o : V) (db : DB.store) :
  exists l1 l2,
    DB.insert keyPath_id k o db = (l1 ++ o :: l2)%list
    /\ (db = (l1 ++ l2)%list
        \/ exists x, db = (l1 ++ x :: l2)%list /\ keyPath_id x = Some k).
Proof.
  induction db as [|x db IH]; cbn.
  - exists [], []. split; [reflexivity | left; reflexivity].
  - destruct IH as (l1 & l2 & Hins & Hdb).
    assert (Hskip : exists l1' l2',
               x :: DB.insert keyPath_id k o db = (l1' ++ o :: l2')%list
               /\ (x :: db = (l1' ++ l2')%list
                   \/ exists y, x :: db = (l1' ++ y :: l2')%list
                                /\ keyPath_id y = Some k)).
    { exists (x :: l1), l2. rewrite Hins. split; [reflexivity |].
      destruct Hdb as [-> | (y & -> & Hy)]; [left; reflexivity |].
      right. exists y. split; [reflexivity | exact Hy]. }
    destruct (keyPath_id x) as [kx|] eqn:Ex; [|exact Hskip].
    destruct (key_compare k kx) eqn:E; [| |exact Hskip].
    + exists [], db. split; [reflexivity |]. right. exists x.
      split; [reflexivity |]. apply key_compare_eq in E. now subst.
    + exists [], (x :: db). split; [reflexivity | left; reflexivity].
Qed.

Lemma delete_In (k : idbkey) (x : V) (db : DB.store) :
  In x (DB.delete keyPath_id k db)
  <-> In x db /\ DB.has_key keyPath_id k x = false.
Proof.
  unfold DB.delete. rewrite filter_In.
  destruct (DB.has_key keyPath_id k x); cbn; intuition congruence.
Qed.

(** Writes and deletions keep the store well formed. *)
Lemma insert_well_formed (k : idbkey) (o : V) (db : DB.store) :
  keyPath_id o = Some k ->
  well_formed keyPath_id db ->
  well_formed keyPath_id (DB.insert keyPath_id k o db).
Proof.
  intros Ho [Hs Hk]. split.
  - induction Hs as [|x db Hs IH Hx]; cbn.
    + constructor; constructor.
    + apply Forall_cons_iff in Hk. destruct Hk as [Hkx Hk].
      destruct (keyPath_id x) as [kx|] eqn:Ex; [| contradiction].
      destruct (key_compare k kx) eqn:E.
      * apply key_compare_eq in E. subst kx. constructor; [exact Hs |].
        eapply Forall_impl; [| exact Hx]. cbn.
        intros y (k1 & k2 & H1 & H2 & H3). exists k, k2.
        rewrite Ex in H1. injection H1 as <-. auto.
      * constructor; [now constructor |]. constructor.
        -- exists k, kx. auto.
        -- eapply Forall_impl; [| exact Hx]. cbn.
           intros y (k1 & k2 & H1 & H2 & H3). exists k, k2.
           rewrite Ex in H1. injection H1 as <-.
           split; [exact Ho | split; [exact H2 |]].
           now apply key_compare_trans with kx.
      * constructor; [now apply IH |].
        apply Forall_forall. intros y Hy.
        destruct (insert_shape k o db) as (l1 & l2 & Hins & Hdb).
        rewrite Hins in Hy. rewrite Forall_forall in Hx.
        apply in_app_iff in Hy. destruct Hy as [Hy | [<- | Hy]].
        -- apply Hx. destruct Hdb as [-> | (z & -> & _)];
             apply in_app_iff; now left.
        -- exists kx, k. split; [exact Ex | split; [exact Ho |]].
           rewrite key_compare_antisym, E. reflexivity.
        -- apply Hx. destruct Hdb as [-> | (z & -> & _)];
             apply in_app_iff; right; [exact Hy | now right].
  - destruct (insert_shape k o db) as (l1 & l2 & -> & Hdb).
    rewrite Forall_forall in *. intros y Hy.
    apply in_app_iff in Hy. destruct Hy as [Hy | [<- | Hy]].
    + apply Hk. destruct Hdb as [-> | (z & -> & _)]; apply in_app_iff; now left.
    + rewrite Ho. discriminate.
    + apply Hk. destruct Hdb as [-> | (z & -> & _)];
        apply in_app_iff; right; [exact Hy | now right].
Qed.

Lemma filter_well_formed (f : V -> bool) (db : DB.store) :
  well_formed keyPath_id db -> well_formed keyPath_id (filter f db).
Proof.
  intros [Hs Hk]. split.
  - induction Hs as [|x db Hs IH Hx]; cbn; [constructor |].
    apply Forall_cons_iff in Hk. destruct Hk as [_ Hk].
    destruct (f x); [| now apply IH].
    constructor; [now apply IH |].
    rewrite Forall_forall in *. intros y Hy. apply filter_In in Hy.
    apply Hx. tauto.
  - rewrite Forall_forall in *. intros y Hy. apply filter_In in Hy.
    apply Hk. tauto.
Qed.

Lemma delete_well_formed (k : idbkey) (db : DB.store) :
  well_formed keyPath_id db -> well_formed keyPath_id (DB.delete keyPath_id k db).
Proof. apply filter_well_formed. Qed.
End StoreFacts.

(** ** import: the version gate *)

Section ImportFacts.
Variable JSON_parse : string -> result json.
Variable gameId : string.


Lemma js_or_is_num (a : option json) (n : Z) :
  n <> 0 ->
  strict_eq_num (js_or a (JNum 0)) n = true <-> a = Some (JNum n).
Proof.
  intros Hn.
  assert (H0 : (0 =? n) = false) by (apply Z.eqb_neq; lia).
  unfold js_or, truthy, strict_eq_num.
  destruct a as [[|b|z|s|l|f]|]; try rewrite H0;
    try (split; discriminate).
  - destruct b; try rewrite H0; split; discriminate.
  - destruct (Z.eqb_spec z 0) as [->|Hz]; cbn [negb].
    + rewrite H0. split; [discriminate | intros [=]; lia].
    + rewrite Z.eqb_eq. split; [now intros -> | now intros [= ->]].
  - destruct (String.eqb_spec s ""); cbn [negb]; try rewrite H0;
      split; discriminate.
Qed.

Lemma version_gate_closed (parsed : list json) :
  first_fmt parsed <> Some (JNum METADATA_FORMAT_VERSION) ->
  strict_eq_num (SaveManager.version parsed) METADATA_FORMAT_VERSION = false.
Proof.
  intros H. destruct (strict_eq_num _ _) eqn:E; [|reflexivity].
  apply js_or_is_num in E; [contradiction | discriminate].
Qed.

Lemma version_gate_open (parsed : list json) :
  first_fmt parsed = Some (JNum METADATA_FORMAT_VERSION) ->
  strict_eq_num (SaveManager.version parsed) METADATA_FORMAT_VERSION = true.
Proof.
  intros H. apply js_or_is_num; [discriminate | exact H].
Qed.

Lemma import_rejects_version (json_text : string) (parsed : list json)
  (db : SaveManager.objects) :
  JSON_parse json_text = inr (JArr parsed) ->
  first_fmt parsed <> Some (JNum METADATA_FORMAT_VERSION) ->
  SaveManager.import JSON_parse gameId json_text db = (db, inl IncompatibleVersion).
Proof.
  intros Hp Hv. unfold SaveManager.import, SaveManager.import_body.
  rewrite Hp, (version_gate_closed parsed Hv). reflexivity.
Qed.

(** C7. Version gate: when the bundle parses as a sequence and the format
    version of its first entry is not the current one, [import] fails with
    the incompatible-version error and the store is exactly what it was. *)
Theorem import_version_gate (json_text : string) (parsed : list json)
  (db : SaveManager.objects) :
  JSON_parse json_text = inr (JArr parsed) ->
  first_fmt parsed <> Some (JNum METADATA_FORMAT_VERSION) ->
  SaveManager.import JSON_parse gameId json_text db = (db, inl IncompatibleVersion)
  /\ message IncompatibleVersion = "Incompatible save version".
Proof.
  intros Hp Hv. split; [now apply import_rejects_version with parsed | reflexivity].
Qed.

(** C10. An empty bundle, or one whose first entry carries no format version
    or the version 0, is rejected as incompatible (not as having no valid
    records), and nothing is persisted. *)
Theorem import_missing_version (json_text : string) (parsed : list json)
  (db : SaveManager.objects) :
  JSON_parse json_text = inr (JArr parsed) ->
  parsed = [] \/ first_fmt parsed = None \/ first_fmt parsed = Some (JNum 0) ->
  SaveManager.version parsed = JNum 0
  /\ SaveManager.import JSON_parse gameId json_text db = (db, inl IncompatibleVersion)
  /\ IncompatibleVersion <> NoValidRecords.
Proof.
  intros Hp Hcase.
  assert (Hf : first_fmt parsed = None \/ first_fmt parsed = Some (JNum 0)).
  { destruct Hcase as [-> | [H | H]]; [left; reflexivity | now left | now right]. }
  assert (Hv : SaveManager.version parsed = JNum 0).
  { unfold SaveManager.version. fold (first_fmt parsed).
    destruct Hf as [-> | ->]; reflexivity. }
  split; [exact Hv | split].
  - apply import_rejects_version with parsed; [exact Hp |].
    destruct Hf as [H | H]; rewrite H; discriminate.
  - discriminate.
Qed.
End ImportFacts.

Lemma import_version_gate_witness :
  let parse := fun _ : string =>
    inr (JArr [JObj [("id", JStr "a"); ("state", JStr "{}");
                     ("meta", JObj [("ts", JNum 1); ("fmt", JNum 2)])]]) in
  SaveManager.import parse "/game" "[...]" [] = ([], inl IncompatibleVersion)
  /\ message IncompatibleVersion = "Incompatible save version".
Proof.
  cbn zeta.
  apply (import_version_gate _ "/game" "[...]"
           [JObj [("id", JStr "a"); ("state", JStr "{}");
                  ("meta", JObj [("ts", JNum 1); ("fmt", JNum 2)])]] []).
  - reflexivity.
  - vm_compute. discriminate.
Defined.

Lemma import_missing_version_witness :
  let parse := fun _ : string => inr (JArr []) in
  SaveManager.version [] = JNum 0
  /\ SaveManager.import parse "/game" "[]" [] = ([], inl IncompatibleVersion)
  /\ IncompatibleVersion <> NoValidRecords.
Proof.
  cbn zeta.
  apply (import_missing_version (fun _ => inr (JArr [])) "/game" "[]" [] []).
  - reflexivity.
  - left. reflexivity.
Defined.

(** ** import: what is persisted *)

Lemma assoc_assign_same (k : string) (v : json) (fields : list (string * json)) :
  assoc k (assign k v fields) = Some v.
Proof.
  induction fields as [|[k' v'] fields IH]; cbn.
  - now rewrite String.eqb_refl.
  - destruct (String.eqb_spec k k') as [->|Hne]; cbn.
    + now rewrite String.eqb_refl.
    + destruct (String.eqb_spec k k'); [contradiction | exact IH].
Qed.

Lemma assoc_assign_other (k k' : string) (v : json) (fields : list (string * json)) :
  k <> k' -> assoc k (assign k' v fields) = assoc k fields.
Proof.
  intros Hne. induction fields as [|[k0 v0] fields IH]; cbn.
  - destruct (String.eqb_spec k k'); [contradiction | reflexivity].
  - destruct (String.eqb_spec k' k0) as [->|Hne0]; cbn.
    + destruct (String.eqb_spec k k0); [contradiction | reflexivity].
    + destruct (String.eqb_spec k k0); [reflexivity | exact IH].
Qed.

Lemma valid_entry_object (r : json) :
  SaveManager.valid_entry r = true -> exists fields, r = JObj fields.
Proof.
  destruct r; try discriminate. intros _. eexists. reflexivity.
Qed.

Section ImportPersists.
Variable JSON_parse : string -> result json.
Variable gameId : string.

Lemma rehome_game (r : json) :
  SaveManager.valid_entry r = true ->
  prop "game" (SaveManager.rehome gameId r) = Some (JStr gameId).
Proof.
  intros Hv. destruct (valid_entry_object r Hv) as [fields ->].
  cbn. apply assoc_assign_same.
Qed.

Lemma rehome_other (k : string) (r : json) :
  k <> "game" -> prop k (SaveManager.rehome gameId r) = prop k r.
Proof.
  intros Hne. destruct r; try reflexivity.
  cbn. now apply assoc_assign_other.
Qed.

Lemma rehome_key (r : json) :
  SaveManager.json_keyPath_id (SaveManager.rehome gameId r)
  = SaveManager.json_keyPath_id r.
Proof.
  unfold SaveManager.json_keyPath_id. rewrite rehome_other; [reflexivity |].
  discriminate.
Qed.

Lemma put_all_persisted (valid : list json) (db : SaveManager.objects) :
  Forall (fun r => SaveManager.json_keyPath_id r <> None) valid ->
  SaveManager.put_all gameId valid db = (persisted gameId valid db, None).
Proof.
  intros Hk. revert db. induction Hk as [|r valid Hr _ IH]; intros db; cbn.
  - reflexivity.
  - unfold DB.put. rewrite rehome_key.
    destruct (SaveManager.json_keyPath_id r) as [k|]; [|contradiction].
    apply IH.
Qed.

Lemma find_snoc {A : Type} (f : A -> bool) (l : list A) (x : A) :
  find f (l ++ [x])%list
  = match find f l with
    | Some y => Some y
    | None => if f x then Some x else None
    end.
Proof.
  induction l as [|y l IH]; cbn; [reflexivity |].
  destruct (f y); [reflexivity | exact IH].
Qed.

(** What can be read back after the writes: under each key, the last valid
    entry of the bundle with that key, re-homed; elsewhere, what was there. *)
Lemma get_persisted (k : idbkey) (valid : list json) (db : SaveManager.objects) :
  Forall (fun r => SaveManager.json_keyPath_id r <> None) valid ->
  DB.get SaveManager.json_keyPath_id k (persisted gameId valid db)
  = match last_with_key k valid with
    | Some r => Some (SaveManager.rehome gameId r)
    | None => DB.get SaveManager.json_keyPath_id k db
    end.
Proof.
  intros Hk. revert db. induction Hk as [|r valid Hr _ IH]; intros db.
  - reflexivity.
  - unfold persisted, last_with_key in *. cbn [fold_left rev].
    rewrite IH, find_snoc.
    destruct (find _ (rev valid)); [reflexivity |].
    destruct (SaveManager.json_keyPath_id r) as [kr|] eqn:Er; [|contradiction].
    rewrite get_insert_cases by (now rewrite rehome_key).
    unfold DB.has_key. rewrite rehome_key, Er.
    destruct (key_eqb kr k); reflexivity.
Qed.

(** C8 (as amended). For a bundle that passes the version gate and whose
    surviving entries all carry an id the store accepts as a key: [import]
    writes exactly the entries with a truthy id, a truthy payload and a
    timestamp that is neither missing nor null, each re-homed to the current
    title and otherwise unchanged, in bundle order; with no surviving entry
    it fails with the no-valid-records error and the store is untouched. *)
Theorem import_persists_valid (json_text : string) (parsed : list json)
  (db : SaveManager.objects) :
  JSON_parse json_text = inr (JArr parsed) ->
  first_fmt parsed = Some (JNum METADATA_FORMAT_VERSION) ->
  Forall (fun r => SaveManager.json_keyPath_id r <> None)
         (filter SaveManager.valid_entry parsed) ->
  let valid := filter SaveManager.valid_entry parsed in
  (valid = [] ->
   SaveManager.import JSON_parse gameId json_text db = (db, inl NoValidRecords))
  /\ (valid <> [] ->
      SaveManager.import JSON_parse gameId json_text db
      = (persisted gameId valid db, inr tt))
  /\ (forall r, In r valid ->
        prop "game" (SaveManager.rehome gameId r) = Some (JStr gameId)
        /\ forall k, k <> "game" -> prop k (SaveManager.rehome gameId r) = prop k r)
  /\ (forall k,
        DB.get SaveManager.json_keyPath_id k (persisted gameId valid db)
        = match last_with_key k valid with
          | Some r => Some (SaveManager.rehome gameId r)
          | None => DB.get SaveManager.json_keyPath_id k db
          end).
Proof.
  intros Hp Hv Hk valid. subst valid.
  assert (Hstart : SaveManager.import_body JSON_parse gameId json_text db
                   = match filter SaveManager.valid_entry parsed with
                     | [] => (db, throw "No valid saves found in file.")
                     | _ :: _ =>
                         match SaveManager.put_all gameId
                                 (filter SaveManager.valid_entry parsed) db with
                         | (db', Some e) => (db', inl e)
                         | (db', None) => (db', inr tt)
                         end
                     end).
  { unfold SaveManager.import_body.
    rewrite Hp, (version_gate_open parsed Hv). reflexivity. }
  split; [|split; [|split]].
  - intros He. unfold SaveManager.import. rewrite Hstart, He. reflexivity.
  - intros Hne. unfold SaveManager.import. rewrite Hstart.
    rewrite (put_all_persisted _ db Hk).
    destruct (filter SaveManager.valid_entry parsed); [contradiction | reflexivity].
  - intros r Hr. apply filter_In in Hr. split.
    + apply rehome_game. tauto.
    + intros k Hkne. now apply rehome_other.
  - intros k. now apply get_persisted.
Qed.
End ImportPersists.

(** C8 fails as stated: an entry with a truthy id, a payload and a timestamp
    whose id is not a valid store key survives the filter, yet it is not
    persisted and the import is reported as corrupted, not as having no
    valid records. *)
Lemma import_invalid_key_counterexample :
  let entry := JObj [("id", JBool true); ("game", JStr "/other");
                     ("state", JStr "{}");
                     ("meta", JObj [("ts", JNum 1); ("fmt", JNum 1)])] in
  let parse := fun _ : string => inr (JArr [entry]) in
  first_fmt [entry] = Some (JNum METADATA_FORMAT_VERSION)
  /\ filter SaveManager.valid_entry [entry] = [entry]
  /\ exists cause,
       SaveManager.import parse "/game" "[...]" [] = ([], inl (CorruptedBundle cause))
       /\ CorruptedBundle cause <> NoValidRecords.
Proof.
  cbn zeta. split; [reflexivity | split; [reflexivity |]].
  eexists. split; [reflexivity | discriminate].
Qed.

Lemma import_persists_valid_witness :
  let a := JObj [("id", JStr "a"); ("game", JStr "/other"); ("state", JStr "{}");
                 ("meta", JObj [("ts", JNum 1); ("fmt", JNum 1)])] in
  let b := JObj [("game", JStr "/other"); ("state", JStr "{}");
                 ("meta", JObj [("ts", JNum 2); ("fmt", JNum 1)])] in
  let c := JObj [("id", JStr "c"); ("state", JStr "{}");
                 ("meta", JObj [("ts", JNum 3); ("fmt", JNum 1)])] in
  let parse := fun _ : string => inr (JArr [a; b; c]) in
  SaveManager.import parse "/game" "[...]" []
  = ([SaveManager.rehome "/game" a; SaveManager.rehome "/game" c], inr tt).
Proof.
  cbn zeta.
  set (a := JObj [("id", JStr "a"); ("game", JStr "/other"); ("state", JStr "{}");
                  ("meta", JObj [("ts", JNum 1); ("fmt", JNum 1)])]).
  set (b := JObj [("game", JStr "/other"); ("state", JStr "{}");
                  ("meta", JObj [("ts", JNum 2); ("fmt", JNum 1)])]).
  set (c := JObj [("id", JStr "c"); ("state", JStr "{}");
                  ("meta", JObj [("ts", JNum 3); ("fmt", JNum 1)])]).
  assert (Hp : (fun _ : string => inr (JArr [a; b; c])) "[...]"
               = @inr error json (JArr [a; b; c])) by reflexivity.
  assert (Hv : first_fmt [a; b; c] = Some (JNum METADATA_FORMAT_VERSION))
    by reflexivity.
  assert (Hk : Forall (fun r => SaveManager.json_keyPath_id r <> None)
                 (filter SaveManager.valid_entry [a; b; c])).
  { cbn. repeat constructor; discriminate. }
  destruct (import_persists_valid _ "/game" "[...]" [a; b; c] [] Hp Hv Hk)
    as (_ & Hsome & _).
  rewrite Hsome; [reflexivity | discriminate].
Defined.

(** ** load *)



Section LoadFacts.
Variable JSON_parse : string -> result json.
Variable LZString : option lzstring.




End LoadFacts.



(** ** Listing the records of a title *)

Section SortFacts.
Context {A : Type}.
Variable cmp : A -> A -> Z.

Lemma sort_insert_perm (x : A) (l : list A) :
  Permutation (sort_insert cmp x l) (x :: l).
Proof.
  induction l as [|y l IH]; cbn; [apply Permutation_refl |].
  destruct (cmp x y <=? 0); [apply Permutation_refl |].
  eapply perm_trans; [apply perm_skip, IH | apply perm_swap].
Qed.

Lemma Array_sort_perm (l : list A) : Permutation (Array_sort cmp l) l.
Proof.
  induction l as [|x l IH]; cbn; [constructor |].
  eapply perm_trans; [apply sort_insert_perm | now apply perm_skip].
Qed.

Lemma Array_sort_In (x : A) (l : list A) : In x (Array_sort cmp l) <-> In x l.
Proof.
  split; apply Permutation_in;
    [apply Array_sort_perm | apply Permutation_sym, Array_sort_perm].
Qed.
End SortFacts.

Lemma game_index_eqb (r : Save.t) (g : string) :
  match Save.index_game r with
  | Some kg => key_eqb kg (KStr g)
  | None => false
  end = (Save.game r =? g)%string.
Proof.
  cbn. destruct (String.eqb_spec (Save.game r) g) as [->|Hne].
  - apply key_eqb_refl.
  - destruct (key_eqb _ _) eqn:E; [|reflexivity].
    apply key_eqb_eq in E. congruence.
Qed.

Lemma getAll_game_filter (g : string) (db : DB.saves) :
  DB.getAll_game Save.index_game (KStr g) db
  = filter (fun r => (Save.game r =? g)%string) db.
Proof.
  unfold DB.getAll_game. apply filter_ext. intros r. apply game_index_eqb.
Qed.

Lemma list_perm (g : string) (db : DB.saves) :
  Permutation (DB.list g db) (filter (fun r => (Save.game r =? g)%string) db).
Proof.
  unfold DB.list. rewrite getAll_game_filter. apply Array_sort_perm.
Qed.

Lemma list_In (g : string) (db : DB.saves) (r : Save.t) :
  In r (DB.list g db) <-> In r db /\ Save.game r = g.
Proof.
  rewrite <- (String.eqb_eq (Save.game r) g).
  rewrite <- (filter_In (fun r => (Save.game r =? g)%string) r db). split.
  - apply Permutation_in, list_perm.
  - apply Permutation_in, Permutation_sym, list_perm.
Qed.

(** ** Numbers: integers are exact *)

Lemma strip_value (p : positive) (e : Z) :
  e <= snd (strip p e)
  /\ Z.pos (fst (strip p e)) * 2 ^ (snd (strip p e) - e) = Z.pos p.
Proof.
  revert e. induction p as [p IH | p IH |]; intros e; cbn [strip fst snd].
  - split; [lia | rewrite Z.sub_diag; lia].
  - destruct (IH (e + 1)) as [H1 H2]. split; [lia |].
    replace (snd (strip p (e + 1)) - e)
      with (Z.succ (snd (strip p (e + 1)) - (e + 1))) by lia.
    rewrite Z.pow_succ_r by lia. rewrite (Pos2Z.inj_xO p), <- H2. ring.
  - split; [lia | rewrite Z.sub_diag; lia].
Qed.

Lemma strip_shift (j : nat) (p : positive) (e : Z) :
  strip (Pos.shiftl_nat p j) e = strip p (e + Z.of_nat j).
Proof.
  revert e. induction j as [|j IH]; intros e.
  - cbn [Pos.shiftl_nat nat_rect Z.of_nat]. now rewrite Z.add_0_r.
  - change (Pos.shiftl_nat p (S j)) with (xO (Pos.shiftl_nat p j)).
    cbn [strip]. rewrite IH. f_equal. lia.
Qed.

Lemma shiftl_nat_value (j : nat) (p : positive) :
  Z.pos (Pos.shiftl_nat p j) = Z.pos p * 2 ^ Z.of_nat j.
Proof.
  induction j as [|j IH].
  - cbn [Pos.shiftl_nat nat_rect Z.of_nat]. rewrite Z.pow_0_r. lia.
  - change (Pos.shiftl_nat p (S j)) with (xO (Pos.shiftl_nat p j)).
    rewrite Pos2Z.inj_xO, IH, Nat2Z.inj_succ, Z.pow_succ_r by lia. ring.
Qed.

Lemma make_shift (neg : bool) (m e j : Z) :
  0 < m -> 0 <= j -> make neg (m * 2 ^ j) (e - j) = make neg m e.
Proof.
  intros Hm Hj. destruct m as [|p|p]; try lia.
  remember (Z.to_nat j) as jn eqn:Hjn.
  assert (Ej : j = Z.of_nat jn) by lia. rewrite Ej, <- shiftl_nat_value.
  unfold make. rewrite strip_shift.
  now replace (e - Z.of_nat jn + Z.of_nat jn) with e by lia.
Qed.

Lemma units_make (neg : bool) (m e : Z) :
  0 <= m -> -1074 <= e ->
  units (make neg m e) = (if neg then -1 else 1) * m * 2 ^ (e + 1074).
Proof.
  intros Hm He. destruct m as [|p|p]; try lia.
  - unfold make, units. cbn [Z.of_N]. ring.
  - unfold make. destruct (strip_value p e) as [H1 H2].
    destruct (strip p e) as [p' e']. cbn [fst snd] in H1, H2.
    unfold units. cbn [Z.of_N]. rewrite <- H2.
    replace (e' + 1074) with ((e' - e) + (e + 1074)) by lia.
    rewrite Z.pow_add_r by lia. ring.
Qed.

Lemma units_Int (z : Z) : units (Int z) = z * 2 ^ 1074.
Proof.
  unfold Int. rewrite units_make by lia.
  change (0 + 1074) with 1074.
  destruct (Z.ltb_spec z 0); [rewrite Z.abs_neq by lia | rewrite Z.abs_eq by lia];
    ring.
Qed.

Lemma Int_injective (a b : Z) : Int a = Int b -> a = b.
Proof.
  intros H. apply (f_equal units) in H. rewrite !units_Int in H.
  apply Z.mul_reg_r in H; [exact H |].
  apply Z.pow_nonzero; lia.
Qed.

Lemma log2_ratio_integer (z : Z) : 0 < z -> log2_ratio z 1 = Z.log2 z.
Proof.
  intros Hz. unfold log2_ratio. rewrite Z.log2_1, Z.sub_0_r.
  pose proof (Z.log2_nonneg z) as H0. pose proof (Z.log2_spec z Hz) as [H1 _].
  destruct (Z.leb_spec 0 (Z.log2 z)); [| lia].
  rewrite Z.mul_1_l. destruct (Z.leb_spec (2 ^ Z.log2 z) z); [reflexivity | lia].
Qed.

Lemma pow2_53_below_1024 : 2 ^ 53 < 2 ^ 1024.
Proof. apply Z.pow_lt_mono_r; lia. Qed.

(** The Number value for an integer of at most 53 bits is the integer. *)
Lemma round_integer (z : Z) :
  0 < z <= 2 ^ 53 -> round_ratio false z 1 = Int z.
Proof.
  intros [Hz Hle].
  destruct (Z.eq_dec z (2 ^ 53)) as [-> | Hne]; [vm_compute; reflexivity |].
  assert (Hlt : z < 2 ^ 53) by lia. clear Hle Hne.
  assert (HE : Z.log2 z < 53) by (apply Z.log2_lt_pow2; lia).
  pose proof (Z.log2_nonneg z) as HE0.
  unfold round_ratio. rewrite (log2_ratio_integer z Hz).
  destruct (Z.eqb_spec z 0) as [|_]; [lia |].
  rewrite Z.max_l by lia.
  assert (Hint : Int z = make false z 0).
  { unfold Int. destruct (Z.ltb_spec z 0); [lia |]. now rewrite Z.abs_eq by lia. }
  cbv zeta.
  destruct (Z.ltb_spec (Z.log2 z - 52) 0) as [Hu | Hu].
  - rewrite Z.div_1_r, Z.mod_1_r. cbn [Z.mul Z.ltb Z.eqb Z.compare orb andb].
    destruct (Z.leb_spec 0 (Z.log2 z - 52)); [lia |]. cbn [andb].
    rewrite Hint.
    replace (Z.log2 z - 52) with (0 - (- (Z.log2 z - 52))) at 2 by lia.
    apply make_shift; lia.
  - assert (Hu0 : Z.log2 z - 52 = 0) by lia. rewrite Hu0.
    rewrite Z.pow_0_r, Z.mul_1_r, Z.div_1_r, Z.mod_1_r.
    cbn [Z.mul Z.ltb Z.eqb Z.compare orb andb Z.leb].
    rewrite ?Z.mul_1_r.
    pose proof pow2_53_below_1024.
    destruct (Z.leb_spec (2 ^ 1024) z); [lia |]. now rewrite Hint.
Qed.

(** An integer beyond 2^53 converts to a Number that is at least 2^53. *)
Lemma round_beyond (v : Z) :
  2 ^ 53 < v ->
  round_ratio false v 1 = Inf false
  \/ 2 ^ 53 * 2 ^ 1074 <= units (round_ratio false v 1).
Proof.
  intros Hv.
  assert (H53 : 0 < 2 ^ 53) by (apply Z.pow_pos_nonneg; lia).
  assert (Hpos : 0 < v) by lia.
  assert (HE : 53 <= Z.log2 v) by (apply Z.log2_le_pow2; lia).
  pose proof (Z.log2_spec v Hpos) as [Hlow _].
  unfold round_ratio. rewrite (log2_ratio_integer v Hpos).
  destruct (Z.eqb_spec v 0) as [|_]; [lia |].
  rewrite Z.max_l by lia. cbv zeta.
  set (u := Z.log2 v - 52) in *.
  destruct (Z.ltb_spec u 0) as [|_]; [lia |].
  rewrite Z.mul_1_l.
  assert (Hu : 0 < 2 ^ u) by (apply Z.pow_pos_nonneg; lia).
  assert (Hm : 2 ^ 52 <= v / 2 ^ u).
  { apply Z.div_le_lower_bound; [exact Hu |].
    rewrite <- Z.pow_add_r by lia.
    replace (u + 52) with (Z.log2 v) by lia. exact Hlow. }
  set (m := v / 2 ^ u) in *.
  match goal with
  | |- context [if ?c then m + 1 else m] =>
      set (m' := if c then m + 1 else m);
      assert (Hm' : m <= m') by (unfold m'; destruct c; lia)
  end.
  destruct (Z.leb_spec 0 u); [| lia]. cbn [andb].
  destruct (Z.leb_spec (2 ^ 1024) (m' * 2 ^ u)); [now left | right].
  assert (H52 : 0 < 2 ^ 52) by (apply Z.pow_pos_nonneg; lia).
  rewrite units_make by lia.
  replace (2 ^ 53) with (2 ^ 52 * 2 ^ 1) by (rewrite <- Z.pow_add_r by lia; reflexivity).
  rewrite <- Z.mul_assoc, <- (Z.pow_add_r 2 1 1074) by lia.
  rewrite Z.mul_1_l.
  assert (Hp : 2 ^ (1 + 1074) <= 2 ^ (u + 1074)) by (apply Z.pow_le_mono_r; lia).
  assert (Hq : 0 <= 2 ^ (1 + 1074)) by (apply Z.pow_nonneg; lia).
  apply Z.le_trans with (m' * 2 ^ (1 + 1074)).
  - apply Z.mul_le_mono_nonneg_r; lia.
  - apply Z.mul_le_mono_nonneg_l; lia.
Qed.

(** Only the integer itself converts to a given integer below 2^53. *)
Lemma round_reads_integer (z v : Z) :
  0 < z < 2 ^ 53 -> 0 <= v ->
  round_ratio false v 1 = Int z <-> v = z.
Proof.
  intros Hz Hv. split.
  2: { intros ->. apply round_integer. lia. }
  intros H.
  assert (H1074 : 0 < 2 ^ 1074) by (apply Z.pow_pos_nonneg; lia).
  destruct (Z.eq_dec v 0) as [-> | Hv0].
  { apply (f_equal units) in H. rewrite units_Int in H.
    change (units (round_ratio false 0 1)) with 0 in H. nia. }
  destruct (Z_le_gt_dec v (2 ^ 53)) as [Hle | Hgt].
  - rewrite round_integer in H by lia. now apply Int_injective.
  - exfalso. apply (f_equal units) in H. rewrite units_Int in H.
    destruct (round_beyond v) as [E | E]; [lia | |].
    + rewrite E in H. unfold units in H.
      assert (2 ^ 53 * 2 ^ 1074 < 2 ^ 2100).
      { rewrite <- Z.pow_add_r by lia. apply Z.pow_lt_mono_r; lia. }
      nia.
    + nia.
Qed.

Lemma Int_shape (z : Z) :
  0 <= z ->
  exists m e, Int z = Num false m e /\ 0 <= e /\ Z.of_N m * 2 ^ e = z.
Proof.
  intros Hz. unfold Int. destruct (Z.ltb_spec z 0); [lia |].
  rewrite Z.abs_eq by lia. destruct z as [|p|p]; try lia.
  - exists 0%N, 0. cbn. repeat split; lia.
  - unfold make. destruct (strip_value p 0) as [H1 H2].
    destruct (strip p 0) as [p' e']. cbn [fst snd] in H1, H2.
    exists (Npos p'), e'. split; [reflexivity | split; [exact H1 |]].
    rewrite Z.sub_0_r in H2. exact H2.
Qed.

(** Adding one to an integer below 2^53 is exact. *)
Lemma add_one_integer (z : Z) :
  0 <= z < 2 ^ 53 -> number_add (Int z) (Int 1) = Int (z + 1).
Proof.
  intros Hz. destruct (Int_shape z) as (m & e & -> & He & Hv); [lia |].
  change (Int 1) with (Num false 1 0). unfold number_add.
  rewrite Z.min_r by lia. cbv beta iota zeta.
  rewrite Z.sub_0_r, Z.sub_diag.
  change (1 * Z.of_N 1 * 2 ^ 0) with 1.
  rewrite <- Z.mul_assoc, Z.mul_1_l, Hv.
  destruct (Z.eqb_spec (z + 1) 0); [lia |].
  cbn [Z.leb Z.compare]. destruct (Z.ltb_spec (z + 1) 0); [lia |].
  rewrite Z.abs_eq, Z.pow_0_r, Z.mul_1_r by lia.
  apply round_integer. lia.
Qed.

(** ** Numbers: the text of an integer *)

Lemma magnitude_spec (fuel : nat) :
  forall a b n,
    0 < b ->
    n <= magnitude fuel a b n <= n + Z.of_nat fuel
    /\ (forall j, 0 <= j < magnitude fuel a b n - n -> b * 10 ^ j <= a)
    /\ (magnitude fuel a b n < n + Z.of_nat fuel ->
        a < b * 10 ^ (magnitude fuel a b n - n)).
Proof.
  induction fuel as [|fuel IH]; intros a b n Hb; cbn [magnitude].
  - split; [lia | split; [intros j Hj; lia | lia]].
  - destruct (Z.ltb_spec a b) as [Hlt | Hge].
    + split; [lia | split; [intros j Hj; lia |]].
      intros _. rewrite Z.sub_diag, Z.pow_0_r. lia.
    + destruct (IH a (10 * b) (n + 1)) as (Hr & Hlow & Hup); [lia |].
      set (r := magnitude fuel a (10 * b) (n + 1)) in *.
      split; [lia | split].
      * intros j Hj. destruct (Z.eq_dec j 0) as [-> | Hj0].
        { rewrite Z.pow_0_r. lia. }
        replace j with (Z.succ (j - 1)) by lia.
        rewrite Z.pow_succ_r by lia.
        specialize (Hlow (j - 1)). lia.
      * intros Hf. replace (r - n) with (Z.succ (r - (n + 1))) by lia.
        rewrite Z.pow_succ_r by lia.
        assert (a < 10 * b * 10 ^ (r - (n + 1))) by (apply Hup; lia). lia.
Qed.

Lemma magnitude_integer (z : Z) :
  0 < z < 10 ^ 16 ->
  1 <= magnitude 660 (z * 10 ^ 330) 1 (-330) <= 16
  /\ z < 10 ^ magnitude 660 (z * 10 ^ 330) 1 (-330).
Proof.
  intros Hz.
  destruct (magnitude_spec 660 (z * 10 ^ 330) 1 (-330)) as (Hr & Hlow & Hup);
    [lia |].
  set (r := magnitude 660 (z * 10 ^ 330) 1 (-330)) in *.
  assert (H330 : 0 < 10 ^ 330) by (apply Z.pow_pos_nonneg; lia).
  assert (Hle : r - -330 <= 346).
  { destruct (Z_le_gt_dec (r - -330) 346) as [|Hgt]; [assumption | exfalso].
    specialize (Hlow 346 ltac:(lia)).
    replace 346 with (16 + 330) in Hlow by lia.
    rewrite Z.pow_add_r, Z.mul_1_l in Hlow by lia.
    apply Z.mul_le_mono_pos_r in Hlow; lia. }
  specialize (Hup ltac:(lia)). rewrite Z.mul_1_l in Hup.
  assert (Hge : 331 <= r - -330).
  { destruct (Z_le_gt_dec 331 (r - -330)) as [|Hlt]; [assumption | exfalso].
    assert (10 ^ (r - -330) <= 10 ^ 330) by (apply Z.pow_le_mono_r; lia).
    nia. }
  split; [lia |].
  replace (r - -330) with (r + 330) in Hup by lia.
  rewrite Z.pow_add_r in Hup by lia.
  apply Z.mul_lt_mono_pos_r in Hup; lia.
Qed.

Lemma trailing_zeros (n : nat) :
  forall z, 0 < z <= Z.of_nat n ->
    exists s t, 0 < s /\ 0 <= t /\ z = s * 10 ^ t /\ s mod 10 <> 0.
Proof.
  induction n as [|n IH]; intros z Hz; [lia |].
  destruct (Z.eq_dec (z mod 10) 0) as [H0 | H0].
  - assert (Ez : z = 10 * (z / 10)) by (apply Z_div_exact_full_2; lia).
    destruct (IH (z / 10)) as (s & t & Hs & Ht & E & Hm); [lia |].
    exists s, (t + 1). split; [exact Hs | split; [lia | split; [| exact Hm]]].
    rewrite Z.pow_add_r, Z.pow_1_r by lia. lia.
  - exists z, 0. rewrite Z.pow_0_r. repeat split; lia.
Qed.

Lemma number_eqb_eq (x y : number) : number_eqb x y = true <-> x = y.
Proof.
  split.
  - destruct x as [a m e | a |], y as [b n f | b |]; cbn; try discriminate.
    + intros H. apply andb_true_iff in H. destruct H as [H He].
      apply andb_true_iff in H. destruct H as [Hb Hm].
      apply Bool.eqb_prop in Hb. apply N.eqb_eq in Hm. apply Z.eqb_eq in He.
      now subst.
    + intros H. apply Bool.eqb_prop in H. now subst.
    + reflexivity.
  - intros <-. destruct x as [a m e | a |]; cbn.
    + now rewrite Bool.eqb_reflx, N.eqb_refl, Z.eqb_refl.
    + apply Bool.eqb_reflx.
    + reflexivity.
Qed.

Lemma reads_back_integer (x : number) (z s j : Z) :
  (forall v, 0 <= v -> round_ratio false v 1 = x <-> v = z) ->
  0 <= s -> 0 <= j ->
  reads_back x s j = true <-> s * 10 ^ j = z.
Proof.
  intros Hx Hs Hj. unfold reads_back, scale10.
  destruct (Z.leb_spec 0 j); [| lia]. rewrite number_eqb_eq.
  apply Hx. apply Z.mul_nonneg_nonneg; [lia | apply Z.pow_nonneg; lia].
Qed.

Lemma shortest_step (fuel : nat) (x : number) (p n k : Z) :
  k <= n ->
  shortest (S fuel) x p 1 n k
  = match reads_back x (p / 10 ^ (n - k)) (n - k),
          reads_back x (p / 10 ^ (n - k) + 1) (n - k) with
    | true, true =>
        (if 2 * (p mod 10 ^ (n - k)) <? 10 ^ (n - k) then p / 10 ^ (n - k)
         else if 10 ^ (n - k) <? 2 * (p mod 10 ^ (n - k))
              then p / 10 ^ (n - k) + 1
              else if Z.even (p / 10 ^ (n - k)) then p / 10 ^ (n - k)
                   else p / 10 ^ (n - k) + 1, k)
    | true, false => (p / 10 ^ (n - k), k)
    | false, true => (p / 10 ^ (n - k) + 1, k)
    | false, false => shortest fuel x p 1 n (k + 1)
    end.
Proof.
  intros Hk. cbn [shortest]. unfold scale10 at 1.
  destruct (Z.leb_spec 0 (k - n)) as [H0 | H0].
  - assert (E : k = n) by lia. subst k.
    rewrite !Z.sub_diag, Z.pow_0_r, Z.mul_1_r. reflexivity.
  - replace (- (k - n)) with (n - k) by lia. rewrite Z.mul_1_l. reflexivity.
Qed.

Lemma shortest_integer (x : number) (z s t n : Z) :
  (forall v, 0 <= v -> round_ratio false v 1 = x <-> v = z) ->
  0 < s -> 0 <= t -> z = s * 10 ^ t -> s mod 10 <> 0 ->
  forall (fuel : nat) (k : Z),
    1 <= k <= n - t -> n - t - k < Z.of_nat fuel ->
    shortest fuel x z 1 n k = (s, n - t).
Proof.
  intros Hx Hs Ht Ez Hm.
  assert (Hpow : forall j, 0 <= j -> 0 < 10 ^ j)
    by (intros j Hj; apply Z.pow_pos_nonneg; lia).
  induction fuel as [|fuel IH]; intros k Hk Hfuel; [lia |].
  rewrite shortest_step by lia.
  set (j := n - k) in *.
  assert (Hj : 0 <= j) by lia.
  pose proof (Hpow j Hj) as Hpj.
  pose proof (Z.div_mod z (10 ^ j) ltac:(lia)) as Hdm.
  pose proof (Z.mod_pos_bound z (10 ^ j) Hpj) as Hr.
  assert (Hz : 0 < z) by (rewrite Ez; apply Z.mul_pos_pos; [lia | now apply Hpow]).
  assert (Hlo : 0 <= z / 10 ^ j) by (apply Z.div_pos; lia).
  destruct (Z.eq_dec j t) as [Ejt | Njt].
  - (* the digits of [s] are reached *)
    assert (Emod : z mod 10 ^ j = 0).
    { rewrite Ejt, Ez. apply Z.mod_mul. specialize (Hpow t Ht). lia. }
    assert (Ediv : z / 10 ^ j = s).
    { rewrite Ejt, Ez. apply Z.div_mul. specialize (Hpow t Ht). lia. }
    assert (Hread : reads_back x (z / 10 ^ j) j = true).
    { apply (reads_back_integer x z); try assumption. rewrite Ediv, Ejt. now symmetry. }
    rewrite Hread, Emod, Ediv.
    replace k with (n - t) by lia.
    destruct (reads_back x (s + 1) j); [| reflexivity].
    destruct (Z.ltb_spec (2 * 0) (10 ^ j)); [reflexivity | lia].
  - (* fewer digits do not read back *)
    assert (Hjt : t < j) by lia.
    assert (Hne : z mod 10 ^ j <> 0).
    { intros E0. apply Hm.
      assert (Ej : 10 ^ j = 10 ^ t * (10 * 10 ^ (j - t - 1))).
      { rewrite <- Z.pow_succ_r, <- Z.pow_add_r by lia. f_equal. lia. }
      rewrite E0, Z.add_0_r, Ej, Ez in Hdm.
      assert (E1 : s = 10 * (10 ^ (j - t - 1) * (s * 10 ^ t / (10 ^ t * (10 * 10 ^ (j - t - 1)))))).
      { apply (Z.mul_reg_r _ _ (10 ^ t)); [specialize (Hpow t Ht); lia |].
        rewrite Hdm at 1. ring. }
      rewrite E1, Z.mul_comm. apply Z.mod_mul. lia. }
    assert (Hread1 : reads_back x (z / 10 ^ j) j = false).
    { destruct (reads_back x (z / 10 ^ j) j) eqn:E; [exfalso | reflexivity].
      apply (reads_back_integer x z) in E; try assumption. lia. }
    assert (Hread2 : reads_back x (z / 10 ^ j + 1) j = false).
    { destruct (reads_back x (z / 10 ^ j + 1) j) eqn:E; [exfalso | reflexivity].
      apply (reads_back_integer x z) in E; try assumption; lia. }
    rewrite Hread1, Hread2. apply IH; lia.
Qed.

(** The text of a positive integer below 2^53 is its decimal digits. *)
Lemma Number_toString_integer (z : Z) :
  0 < z < 2 ^ 53 -> Number_toString (Int z) = show_Z z.
Proof.
  intros Hz.
  assert (H16 : 2 ^ 53 < 10 ^ 16) by (vm_compute; reflexivity).
  destruct (Int_shape z) as (m & e & Hint & He & Hv); [lia |].
  assert (Hx : forall v, 0 <= v -> round_ratio false v 1 = Num false m e <-> v = z).
  { intros v Hv0. rewrite <- Hint. now apply round_reads_integer. }
  destruct (trailing_zeros (Z.to_nat z) z) as (s & t & Hs & Ht & Ez & Hm); [lia |].
  destruct (magnitude_integer z) as (Hn & Hlt); [lia |].
  rewrite Hint. unfold Number_toString.
  destruct m as [|pm]; [cbn [Z.of_N] in Hv; lia |].
  destruct (Z.leb_spec 0 e); [| lia].
  rewrite Z.mul_1_l || idtac. rewrite Hv.
  set (n := magnitude 660 (z * 10 ^ 330) 1 (-330)) in *.
  assert (Hpt : 0 < 10 ^ t) by (apply Z.pow_pos_nonneg; lia).
  assert (Hst : s < 10 ^ (n - t)).
  { destruct (Z_lt_ge_dec t n) as [Htn | Htn].
    - apply (Z.mul_lt_mono_pos_r (10 ^ t)); [exact Hpt |].
      rewrite <- Z.pow_add_r, <- Ez by lia. now replace (n - t + t) with n by lia.
    - exfalso. assert (10 ^ n <= 10 ^ t) by (apply Z.pow_le_mono_r; lia). nia. }
  assert (Htn : t < n).
  { destruct (Z_lt_ge_dec t n) as [|Hge]; [assumption | exfalso].
    assert (10 ^ n <= 10 ^ t) by (apply Z.pow_le_mono_r; lia). nia. }
  rewrite (shortest_integer (Num false (Npos pm) e) z s t n Hx Hs Ht Ez Hm 16 1)
    by lia.
  destruct (Z.eqb_spec s (10 ^ (n - t))); [lia |].
  unfold format_digits.
  destruct (Z.leb_spec (n - t) n); [| lia].
  destruct (Z.leb_spec n 21); [| lia]. cbn [andb].
  replace (n - (n - t)) with t by lia. now rewrite <- Ez.
Qed.

(** ** Number(text) on decimal digits *)

Lemma digits_from_step (c : ascii) (k acc : Z) (s : string) :
  digit_value c = Some k -> k < 10 ->
  digits_from 10 acc (String c s) = digits_from 10 (10 * acc + k) s.
Proof.
  intros Hc Hk. cbn [digits_from]. rewrite Hc.
  destruct (Z.ltb_spec k 10); [reflexivity | lia].
Qed.

Lemma digits_from_uint_acc (d : Decimal.uint) (acc : positive) :
  digits_from 10 (Z.pos acc) (NilEmpty.string_of_uint d)
  = Some (Z.pos (Pos.of_uint_acc d acc)).
Proof.
  revert acc.
  induction d as [|d IH|d IH|d IH|d IH|d IH|d IH|d IH|d IH|d IH|d IH];
    intros acc; cbn [NilEmpty.string_of_uint Pos.of_uint_acc];
    [reflexivity | | | | | | | | | |].
  - rewrite (digits_from_step _ 0) by (reflexivity || lia).
    rewrite <- IH. f_equal; lia.
  - rewrite (digits_from_step _ 1) by (reflexivity || lia).
    rewrite <- IH. f_equal; lia.
  - rewrite (digits_from_step _ 2) by (reflexivity || lia).
    rewrite <- IH. f_equal; lia.
  - rewrite (digits_from_step _ 3) by (reflexivity || lia).
    rewrite <- IH. f_equal; lia.
  - rewrite (digits_from_step _ 4) by (reflexivity || lia).
    rewrite <- IH. f_equal; lia.
  - rewrite (digits_from_step _ 5) by (reflexivity || lia).
    rewrite <- IH. f_equal; lia.
  - rewrite (digits_from_step _ 6) by (reflexivity || lia).
    rewrite <- IH. f_equal; lia.
  - rewrite (digits_from_step _ 7) by (reflexivity || lia).
    rewrite <- IH. f_equal; lia.
  - rewrite (digits_from_step _ 8) by (reflexivity || lia).
    rewrite <- IH. f_equal; lia.
  - rewrite (digits_from_step _ 9) by (reflexivity || lia).
    rewrite <- IH. f_equal; lia.
Qed.

Lemma digits_from_uint (d : Decimal.uint) :
  digits_from 10 0 (NilEmpty.string_of_uint d) = Some (Z.of_N (Pos.of_uint d)).
Proof.
  induction d as [|d IH|d IH|d IH|d IH|d IH|d IH|d IH|d IH|d IH|d IH];
    cbn [NilEmpty.string_of_uint Pos.of_uint];
    [reflexivity | | | | | | | | | |].
  - rewrite (digits_from_step _ 0) by (reflexivity || lia). exact IH.
  - rewrite (digits_from_step _ 1) by (reflexivity || lia).
    apply (digits_from_uint_acc d 1).
  - rewrite (digits_from_step _ 2) by (reflexivity || lia).
    apply (digits_from_uint_acc d 2).
  - rewrite (digits_from_step _ 3) by (reflexivity || lia).
    apply (digits_from_uint_acc d 3).
  - rewrite (digits_from_step _ 4) by (reflexivity || lia).
    apply (digits_from_uint_acc d 4).
  - rewrite (digits_from_step _ 5) by (reflexivity || lia).
    apply (digits_from_uint_acc d 5).
  - rewrite (digits_from_step _ 6) by (reflexivity || lia).
    apply (digits_from_uint_acc d 6).
  - rewrite (digits_from_step _ 7) by (reflexivity || lia).
    apply (digits_from_uint_acc d 7).
  - rewrite (digits_from_step _ 8) by (reflexivity || lia).
    apply (digits_from_uint_acc d 8).
  - rewrite (digits_from_step _ 9) by (reflexivity || lia).
    apply (digits_from_uint_acc d 9).
Qed.

Lemma string_of_uint_digits (d : Decimal.uint) :
  all_chars decimal_digit (NilEmpty.string_of_uint d) = true.
Proof.
  induction d; cbn [NilEmpty.string_of_uint all_chars];
    [reflexivity | | | | | | | | | |]; exact IHd.
Qed.

Lemma string_of_uint_empty (d : Decimal.uint) :
  NilEmpty.string_of_uint d = "" -> d = Decimal.Nil.
Proof. destruct d; cbn; intros H; [reflexivity | | | | | | | | | |]; discriminate H. Qed.

Lemma show_Z_pos (p : positive) :
  show_Z (Z.pos p) = NilEmpty.string_of_uint (Pos.to_uint p).
Proof.
  unfold show_Z. cbn [Z.to_int NilZero.string_of_int].
  unfold NilZero.string_of_uint.
  pose proof (DecimalPos.Unsigned.to_uint_nonnil p) as Hnil.
  destruct (Pos.to_uint p); [contradiction | | | | | | | | | |]; reflexivity.
Qed.

Lemma show_Z_pos_digits (p : positive) :
  show_Z (Z.pos p) <> ""
  /\ all_chars decimal_digit (show_Z (Z.pos p)) = true
  /\ digits 10 (show_Z (Z.pos p)) = Some (Z.pos p).
Proof.
  rewrite show_Z_pos.
  assert (Hne : NilEmpty.string_of_uint (Pos.to_uint p) <> "").
  { intros H. apply string_of_uint_empty in H.
    now apply (DecimalPos.Unsigned.to_uint_nonnil p). }
  split; [exact Hne | split; [apply string_of_uint_digits |]].
  unfold digits.
  destruct (NilEmpty.string_of_uint (Pos.to_uint p)) eqn:E; [contradiction |].
  rewrite <- E, digits_from_uint, DecimalPos.Unsigned.of_to. reflexivity.
Qed.

Lemma digit_not_ws (c : ascii) : decimal_digit c = true -> is_ws c = false.
Proof.
  unfold decimal_digit, is_ws. intros H.
  apply andb_true_iff in H. destruct H as [H1 H2].
  apply Nat.leb_le in H1. apply Nat.leb_le in H2.
  destruct (Nat.leb_spec (nat_of_ascii c) 13); [lia |].
  rewrite andb_false_r. cbn [orb].
  destruct (Nat.eqb_spec (nat_of_ascii c) 32); [lia |].
  destruct (Nat.eqb_spec (nat_of_ascii c) 160); [lia | reflexivity].
Qed.

Lemma trimEnd_digits (t : string) :
  all_chars decimal_digit t = true -> trimEnd t = t.
Proof.
  induction t as [|c t IH]; [reflexivity |].
  cbn [all_chars trimEnd]. intros H. apply andb_true_iff in H.
  destruct H as [Hc Ht]. rewrite (IH Ht), (digit_not_ws c Hc).
  destruct t; reflexivity.
Qed.

Lemma trim_digits (t : string) :
  all_chars decimal_digit t = true -> trim t = t.
Proof.
  intros H. unfold trim.
  assert (Hs : trimStart t = t).
  { destruct t as [|c t]; [reflexivity |]. cbn [all_chars] in H.
    apply andb_true_iff in H. destruct H as [Hc _].
    cbn [trimStart]. now rewrite (digit_not_ws c Hc). }
  rewrite Hs. now apply trimEnd_digits.
Qed.

Lemma radix_prefix_digits (c : ascii) (t : string) :
  decimal_digit c = false -> all_chars decimal_digit t = true ->
  startsWith (String "0" (String c "")) t = false.
Proof.
  intros Hc Ht. unfold startsWith.
  destruct t as [|c0 [|c1 r]]; cbn [String.prefix]; [reflexivity | |].
  - destruct (ascii_dec "0" c0); reflexivity.
  - destruct (ascii_dec "0" c0); [| reflexivity].
    destruct (ascii_dec c c1) as [<- |]; [| reflexivity].
    cbn [all_chars] in Ht. rewrite Hc in Ht.
    rewrite andb_false_r in Ht. discriminate Ht.
Qed.


Lemma span_digits_all (t : string) :
  all_chars decimal_digit t = true -> span_digits t = (t, EmptyString).
Proof.
  induction t as [|c t IH]; [reflexivity |].
  cbn [all_chars span_digits]. intros H. apply andb_true_iff in H.
  destruct H as [Hc Ht]. now rewrite Hc, (IH Ht).
Qed.

Lemma append_empty (t : string) : (t ++ "")%string = t.
Proof. induction t as [|c t IH]; [reflexivity | cbn; now rewrite IH]. Qed.

Lemma Number_digits (t : string) (v : Z) :
  t <> "" -> all_chars decimal_digit t = true -> digits 10 t = Some v ->
  Number t = round_ratio false v 1.
Proof.
  intros Hne Hall Hd. unfold Number. rewrite (trim_digits t Hall).
  destruct t as [|c0 rest] eqn:E; [contradiction |].
  unfold Number_trimmed. cbv zeta.
  rewrite !radix_prefix_digits by (reflexivity || exact Hall).
  cbn [orb]. unfold decimal_literal.
  assert (Hc0 : decimal_digit c0 = true).
  { cbn [all_chars] in Hall. now apply andb_true_iff in Hall. }
  assert (Hminus : Ascii.eqb c0 "-" = false).
  { destruct (Ascii.eqb_spec c0 "-") as [-> |]; [discriminate Hc0 | reflexivity]. }
  assert (Hplus : Ascii.eqb c0 "+" = false).
  { destruct (Ascii.eqb_spec c0 "+") as [-> |]; [discriminate Hc0 | reflexivity]. }
  rewrite Hminus, Hplus. cbn [fst snd].
  assert (Hinf : (String c0 rest =? "Infinity")%string = false).
  { destruct (String.eqb_spec (String c0 rest) "Infinity") as [E1 |];
      [| reflexivity].
    injection E1 as -> _. discriminate Hc0. }
  rewrite Hinf. unfold unsigned_decimal.
  rewrite (span_digits_all _ Hall). cbn [exponent_part String.eqb andb].
  rewrite append_empty. unfold decimal_value.
  cbn [digits] in Hd. rewrite Hd.
  cbn [String.length Z.of_nat Z.sub Z.opp Z.add Z.leb Z.compare].
  now rewrite Z.pow_0_r, Z.mul_1_r.
Qed.

Lemma startsWith_append (p x : string) : startsWith p (p ++ x) = true.
Proof.
  unfold startsWith. induction p as [|a p IH]; cbn [String.append String.prefix].
  - destruct x; reflexivity.
  - destruct (ascii_dec a a); [exact IH | contradiction].
Qed.

(** The digits of a positive integer of at most 53 bits convert to it. *)
Lemma Number_show_Z (z : Z) :
  0 < z <= 2 ^ 53 -> Number (show_Z z) = Int z.
Proof.
  intros Hz. destruct z as [|p|p]; [lia | | lia].
  destruct (show_Z_pos_digits p) as (Hne & Hall & Hd).
  rewrite (Number_digits _ _ Hne Hall Hd). now apply round_integer.
Qed.

(** ** create: the default name *)

Lemma max_step_spec (h x : number) :
  h <> NaN -> x <> NaN ->
  (max_step h x = h \/ max_step h x = x)
  /\ max_step h x <> NaN
  /\ units h <= units (max_step h x)
  /\ units x <= units (max_step h x).
Proof.
  intros Hh Hx.
  destruct h as [a [|m] e | a |], x as [b [|n] f | b |]; try congruence;
    try destruct a; try destruct b; unfold max_step;
    repeat lazymatch goal with
      | |- context [units ?p <? units ?q] =>
          destruct (Z.ltb_spec (units p) (units q))
      end;
    repeat split; try (now left); try (now right); try discriminate; try lia;
    unfold units; cbn [Z.of_N]; lia.
Qed.

Lemma fold_max_spec (vals : list number) :
  forall h,
    h <> NaN -> Forall (fun v => v <> NaN) vals ->
    fold_left max_step vals h <> NaN
    /\ (fold_left max_step vals h = h \/ In (fold_left max_step vals h) vals)
    /\ units h <= units (fold_left max_step vals h)
    /\ (forall v, In v vals -> units v <= units (fold_left max_step vals h)).
Proof.
  induction vals as [|x vals IH]; intros h Hh Hall; cbn [fold_left].
  - repeat split; [exact Hh | now left | lia | intros v []].
  - apply Forall_cons_iff in Hall. destruct Hall as [Hx Hall].
    destruct (max_step_spec h x Hh Hx) as (Hsel & Hn & Hhle & Hxle).
    destruct (IH (max_step h x) Hn Hall) as (Hr & Hat & Hle & Hub).
    split; [exact Hr | split; [| split; [lia |]]].
    + destruct Hat as [E | Hin]; [| right; now right].
      rewrite E. destruct Hsel as [-> | ->]; [now left | right; now left].
    + intros v [<- | Hin]; [lia | now apply Hub].
Qed.

Lemma save_number_defined (r : Save.t) : SaveManager.save_number r <> NaN.
Proof.
  unfold SaveManager.save_number.
  destruct (_ || _); [discriminate |].
  destruct (Number (slice 5 (Save.name r))); cbn [isNaN]; discriminate.
Qed.

Lemma max_number_spec (rows : list Save.t) :
  SaveManager.max_number rows <> NaN
  /\ (SaveManager.max_number rows = Int 0
      \/ exists r, In r rows
                   /\ SaveManager.save_number r = SaveManager.max_number rows)
  /\ number_le (Int 0) (SaveManager.max_number rows)
  /\ (forall r, In r rows ->
                number_le (SaveManager.save_number r)
                          (SaveManager.max_number rows)).
Proof.
  unfold SaveManager.max_number, Math_max, number_le. cbn [fold_left].
  change (max_step (Inf true) (Int 0)) with (Int 0).
  destruct (fold_max_spec (map SaveManager.save_number rows) (Int 0))
    as (Hr & Hat & Hle & Hub).
  - discriminate.
  - apply Forall_forall. intros v Hv. apply in_map_iff in Hv.
    destruct Hv as (r & <- & _). apply save_number_defined.
  - split; [exact Hr | split; [| split; [exact Hle |]]].
    + destruct Hat as [E | Hin]; [now left | right].
      apply in_map_iff in Hin. destruct Hin as (r & E & Hin). now exists r.
    + intros r Hin. apply Hub. now apply in_map.
Qed.

Section CreateFacts.
Variable JSON_stringify : json -> string.
Variable LZString : option lzstring.
Variable compression : bool.
Variable gameId : string.

Lemma save_number_counts (db : DB.saves) (r : Save.t) (v : number) :
  counts gameId db r v -> v <> NaN -> SaveManager.save_number r = v.
Proof.
  intros (_ & _ & Hq & Hp & Hn) Hv. unfold SaveManager.save_number.
  rewrite Hq, Hp, Hn. cbn [orb negb]. destruct v; cbn [isNaN]; congruence.
Qed.

Lemma save_number_cases (db : DB.saves) (r : Save.t) :
  In r db -> Save.game r = gameId ->
  SaveManager.save_number r = Int 0
  \/ counts gameId db r (SaveManager.save_number r).
Proof.
  intros Hin Hg. unfold SaveManager.save_number.
  destruct (SaveManager.quick_truthy (Save.quick r)) eqn:Hq; cbn [orb];
    [now left |].
  destruct (startsWith "Save " (Save.name r)) eqn:Hp; cbn [negb]; [| now left].
  destruct (Number (slice 5 (Save.name r))) eqn:Hn; cbn [isNaN];
    [right | right | now left]; repeat split; assumption.
Qed.

(** The largest counted number: 0, or the number some record of the title
    carries, and no counted number is larger. *)
Lemma default_maximum (db : DB.saves) :
  (SaveManager.max_number (DB.list gameId db) = Int 0
   \/ exists r, counts gameId db r (SaveManager.max_number (DB.list gameId db)))
  /\ SaveManager.max_number (DB.list gameId db) <> NaN
  /\ number_le (Int 0) (SaveManager.max_number (DB.list gameId db))
  /\ (forall r v, counts gameId db r v -> v <> NaN ->
                  number_le v (SaveManager.max_number (DB.list gameId db))).
Proof.
  destruct (max_number_spec (DB.list gameId db)) as (Hn & Hat & H0 & Hub).
  split; [| split; [exact Hn | split; [exact H0 |]]].
  - destruct Hat as [E | (r & Hin & E)]; [now left |].
    apply list_In in Hin. destruct Hin as [Hin Hg].
    destruct (save_number_cases db r Hin Hg) as [E0 | Hc].
    + left. now rewrite <- E.
    + right. exists r. now rewrite <- E.
  - intros r v Hc Hv. rewrite <- (save_number_counts db r v Hc Hv).
    apply Hub. apply list_In. destruct Hc as (Hin & Hg & _). now split.
Qed.

Lemma created_by_put (w : world) (nm : string) (q : option Z) (s : json)
  (db : DB.saves) :
  DB.put_save (SaveManager.new_record JSON_stringify LZString compression gameId
                 w nm q s) db
  = inr (DB.insert Save.keyPath_id (KStr (SaveManager.new_id gameId w))
           (SaveManager.new_record JSON_stringify LZString compression gameId
              w nm q s) db).
Proof. reflexivity. Qed.

Lemma create_named (w : world) (name nm : string) (q : option Z) (s : json)
  (db : DB.saves) :
  SaveManager.capture w = inr s ->
  SaveManager.resolve_name name (DB.list gameId db) = Some nm ->
  SaveManager.create JSON_stringify LZString compression gameId w name q db
  = Some (DB.insert Save.keyPath_id (KStr (SaveManager.new_id gameId w))
            (SaveManager.new_record JSON_stringify LZString compression gameId
               w nm q s) db,
          inr tt).
Proof.
  intros Hc Hn. unfold SaveManager.create. now rewrite Hc, Hn, created_by_put.
Qed.

Lemma created_name_named (w : world) (name nm : string) (q : option Z) (s : json)
  (db : DB.saves) :
  SaveManager.capture w = inr s ->
  SaveManager.resolve_name name (DB.list gameId db) = Some nm ->
  created_name gameId w
    (SaveManager.create JSON_stringify LZString compression gameId w name q db)
  = Some nm.
Proof.
  intros Hc Hn. rewrite (create_named w name nm q s db Hc Hn).
  unfold created_name, DB.get_save. now rewrite get_insert.
Qed.

(** C6 (as amended). When capture succeeds and the given name is blank, the
    record that [create] stores is named "Save " followed by the text of
    M + 1, where M is the largest of 0 and the numbers that the title's
    records with a falsy quick field and a name starting with "Save " carry
    after that prefix, as converted by [Number] (so surrounding blanks are
    ignored, hexadecimal, octal or binary notation counts by its value, and
    fractions and exponents count as well); a remainder that is not a number
    contributes nothing. When M is an integer below 2^53 - 1, the name is
    "Save N" with the decimal digits of N = M + 1. *)
Theorem create_default_name (w : world) (name : string) (q : option Z) (s : json)
  (db : DB.saves) :
  SaveManager.capture w = inr s ->
  trim name = "" ->
  exists M,
    (M = Int 0 \/ exists r, counts gameId db r M)
    /\ M <> NaN
    /\ number_le (Int 0) M
    /\ (forall r v, counts gameId db r v -> v <> NaN -> number_le v M)
    /\ created_name gameId w
         (SaveManager.create JSON_stringify LZString compression gameId w name q db)
       = Some ("Save " ++ Number_toString (number_add M (Int 1)))
    /\ (forall z,
          M = Int z -> z < MAX_SAFE_INTEGER ->
          created_name gameId w
            (SaveManager.create JSON_stringify LZString compression gameId
               w name q db)
          = Some ("Save " ++ show_Z (z + 1))).
Proof.
  intros Hc Hblank.
  destruct (default_maximum db) as (Hat & Hn & H0 & Hub).
  set (M := SaveManager.max_number (DB.list gameId db)) in *.
  assert (Hname : created_name gameId w
                    (SaveManager.create JSON_stringify LZString compression
                       gameId w name q db)
                  = Some ("Save " ++ Number_toString (number_add M (Int 1)))).
  { apply created_name_named with s; [exact Hc |].
    unfold SaveManager.resolve_name, SaveManager.default_name.
    now rewrite Hblank. }
  exists M. repeat (split; [assumption |]).
  intros z Ez Hz. rewrite Hname, Ez.
  assert (Hz0 : 0 <= z).
  { unfold number_le in H0. rewrite Ez, !units_Int in H0.
    assert (0 < 2 ^ 1074) by (apply Z.pow_pos_nonneg; lia). nia. }
  assert (E53 : 2 ^ 53 = MAX_SAFE_INTEGER + 1) by reflexivity.
  rewrite add_one_integer, Number_toString_integer by lia. reflexivity.
Qed.
End CreateFacts.

(** C6 fails as stated: next to the manual saves "Save 1" and "Save 3", a
    manual save named "Save 0x10", or one named "Save  7" with two blanks,
    does not match "Save <integer>", yet a blank-named [create] then yields
    "Save 17", respectively "Save 8", not "Save 4". *)
Lemma create_default_name_counterexample :
  let hex := [manual_save "s1" "/game" "Save 1" 10;
              manual_save "s2" "/game" "Save 3" 20;
              manual_save "s3" "/game" "Save 0x10" 30] in
  let blanks := [manual_save "s1" "/game" "Save 1" 10;
                 manual_save "s2" "/game" "Save 3" 20;
                 manual_save "s3" "/game" "Save  7" 30] in
  let named db :=
    created_name "/game" (sample_world 40 "u")
      (SaveManager.create sample_stringify None true "/game"
         (sample_world 40 "u") "" None db) in
  (spec_pattern_number "Save 0x10" = None
   /\ spec_default_number "/game" hex = 4
   /\ named hex = Some "Save 17"
   /\ named hex <> Some ("Save " ++ show_Z (spec_default_number "/game" hex)))
  /\ (spec_pattern_number "Save  7" = None
      /\ spec_default_number "/game" blanks = 4
      /\ named blanks = Some "Save 8"
      /\ named blanks <> Some ("Save " ++ show_Z (spec_default_number "/game" blanks))).
Proof.
  cbn zeta. split; (split; [reflexivity | split; [reflexivity | split]]);
    try reflexivity; vm_compute; discriminate.
Qed.

Lemma create_default_name_witness :
  let db := [manual_save "s1" "/game" "Save 1" 10;
             manual_save "s2" "/game" "Save 3" 20] in
  created_name "/game" (sample_world 40 "u")
    (SaveManager.create sample_stringify None true "/game"
       (sample_world 40 "u") "  " None db)
  = Some "Save 4".
Proof.
  cbn zeta.
  set (db := [manual_save "s1" "/game" "Save 1" 10;
              manual_save "s2" "/game" "Save 3" 20]).
  destruct (create_default_name sample_stringify None true "/game"
              (sample_world 40 "u") "  " None
              (JObj [("stats", JObj [("sceneName", JStr "startup")])]) db
              eq_refl eq_refl)
    as (M & Hat & _ & _ & Hub & _ & Hint).
  assert (H3 : number_le (Int 3) M).
  { apply (Hub (manual_save "s2" "/game" "Save 3" 20)); [| discriminate].
    repeat split. right. now left. }
  assert (HM : M = Int 3).
  { unfold number_le in H3. rewrite units_Int in H3.
    assert (0 < 2 ^ 1074) by (apply Z.pow_pos_nonneg; lia).
    destruct Hat as [-> | (r & Hin & _ & _ & _ & Hn)].
    - rewrite units_Int in H3. nia.
    - destruct Hin as [<- | [<- | []]].
      + change (Number (slice 5 (Save.name (manual_save "s1" "/game" "Save 1" 10))))
          with (Int 1) in Hn.
        subst M. rewrite units_Int in H3. nia.
      + symmetry. exact Hn. }
  apply (Hint 3 HM). reflexivity.
Defined.

(** The default name next to one manual save of each kind. *)
Lemma create_default_name_examples :
  let next nm :=
    created_name "/game" (sample_world 40 "u")
      (SaveManager.create sample_stringify None true "/game"
         (sample_world 40 "u") "" None [manual_save "s1" "/game" nm 10]) in
  next "Save 1.5" = Some "Save 2.5"
  /\ next "Save 5." = Some "Save 6"
  /\ next "Save 1e3" = Some "Save 1001"
  /\ next "Save 0.1" = Some "Save 1.1"
  /\ next "Save e" = Some "Save 1"
  /\ next "Save -" = Some "Save 1"
  /\ next "Save ." = Some "Save 1"
  /\ next "Save 2024-05-01" = Some "Save 1"
  /\ next "Save -5" = Some "Save 1"
  /\ next "Save Infinity" = Some "Save Infinity"
  /\ next "Save 1e21" = Some "Save 1e+21"
  /\ next "Save 9007199254740992" = Some "Save 9007199254740992".
Proof. cbn zeta. repeat split; vm_compute; reflexivity. Qed.

(** ** Quick saves: the records and the eviction *)

Lemma filter_perm {A : Type} (f : A -> bool) (l l' : list A) :
  Permutation l l' -> Permutation (filter f l) (filter f l').
Proof.
  induction 1 as [|x l l' _ IH|x y l|l l' l'' _ IH1 _ IH2]; cbn.
  - constructor.
  - destruct (f x); [now constructor | exact IH].
  - destruct (f x), (f y); try apply Permutation_refl. apply perm_swap.
  - now apply perm_trans with (filter f l').
Qed.

Lemma filter_both {A : Type} (f g : A -> bool) (l : list A) :
  filter f (filter g l) = filter (fun x => g x && f x) l.
Proof.
  induction l as [|x l IH]; cbn; [reflexivity |].
  destruct (g x); cbn; [destruct (f x) |]; now rewrite IH.
Qed.

Lemma filter_comm {A : Type} (f g : A -> bool) (l : list A) :
  filter f (filter g l) = filter g (filter f l).
Proof.
  rewrite !filter_both. apply filter_ext. intros x. apply andb_comm.
Qed.

Lemma filter_all {A : Type} (f : A -> bool) (l : list A) :
  (forall x, f x = true) -> filter f l = l.
Proof.
  intros Hall. induction l as [|x l IH]; cbn; [reflexivity |].
  now rewrite Hall, IH.
Qed.

Lemma filter_length_lt {A : Type} (f : A -> bool) (l : list A) (x : A) :
  In x l -> f x = false -> (List.length (filter f l) < List.length l)%nat.
Proof.
  intros Hin Hf. induction l as [|y l IH]; [destruct Hin |]. cbn.
  pose proof (filter_length_le f l) as Hle.
  destruct Hin as [-> | Hin].
  - rewrite Hf. lia.
  - specialize (IH Hin). destruct (f y); cbn; lia.
Qed.

Lemma NoDup_map_filter {A B : Type} (h : A -> B) (f : A -> bool) (l : list A) :
  NoDup (map h l) -> NoDup (map h (filter f l)).
Proof.
  induction l as [|x l IH]; cbn; [trivial |].
  intros Hnd. apply NoDup_cons_iff in Hnd. destruct Hnd as [Hx Hnd].
  destruct (f x); cbn; [| now apply IH].
  constructor; [| now apply IH].
  intros Hin. apply Hx. apply in_map_iff in Hin.
  destruct Hin as (y & Hy & Hin). apply filter_In in Hin.
  apply in_map_iff. exists y. tauto.
Qed.

Section QuickFacts.
Variable gameId : string.

Lemma qSaves_perm (db : DB.saves) :
  Permutation (SaveManager.qSaves gameId db) (quick_records gameId db).
Proof.
  unfold SaveManager.qSaves, quick_records.
  eapply perm_trans; [apply Array_sort_perm |].
  eapply perm_trans; [apply filter_perm, list_perm |].
  rewrite filter_both. apply Permutation_refl.
Qed.

Lemma qSaves_In (db : DB.saves) (r : Save.t) :
  In r (SaveManager.qSaves gameId db) <-> In r (quick_records gameId db).
Proof.
  split; apply Permutation_in;
    [apply qSaves_perm | apply Permutation_sym, qSaves_perm].
Qed.

Lemma qSaves_length (db : DB.saves) :
  List.length (SaveManager.qSaves gameId db)
  = List.length (quick_records gameId db).
Proof. apply Permutation_length, qSaves_perm. Qed.

Lemma quick_records_In (db : DB.saves) (r : Save.t) :
  In r (quick_records gameId db)
  <-> In r db /\ Save.game r = gameId /\ exists z, Save.quick r = Some z.
Proof.
  unfold quick_records, is_quick_of, has_slot.
  rewrite filter_In, andb_true_iff, String.eqb_eq.
  destruct (Save.quick r) as [z|].
  - intuition eauto.
  - split; [intros (_ & _ & [=]) | intros (_ & _ & z & [=])].
Qed.

(** Conditional deletions, one per listed record, amount to one filter. *)
Lemma evict_filter (s : option Z) (qs : list Save.t) (db : DB.saves) :
  fold_left (fun d r => if SaveManager.slot_eqb (Save.quick r) s
                        then DB.delete_save (Save.id r) d
                        else d) qs db
  = filter (fun x =>
              forallb (fun r => negb (SaveManager.slot_eqb (Save.quick r) s
                                      && (Save.id r =? Save.id x)%string)) qs)
           db.
Proof.
  revert db. induction qs as [|r qs IH]; intros db; cbn [fold_left forallb].
  - induction db as [|x db IHdb]; cbn; [reflexivity | now rewrite <- IHdb].
  - rewrite IH. destruct (SaveManager.slot_eqb (Save.quick r) s); cbn [andb negb].
    + unfold DB.delete_save, DB.delete. rewrite filter_both.
      apply filter_ext. intros x. f_equal.
      unfold DB.has_key. cbn. f_equal.
      destruct (String.eqb_spec (Save.id r) (Save.id x)) as [E | E].
      * rewrite E. apply key_eqb_refl.
      * destruct (key_eqb _ _) eqn:K; [| reflexivity].
        apply key_eqb_eq in K. congruence.
    + reflexivity.
Qed.

Lemma evict_survivors (s : option Z) (db : DB.saves) :
  SaveManager.evict gameId s db = filter (survives gameId s db) db.
Proof. unfold SaveManager.evict. apply evict_filter. Qed.

Lemma slot_eqb_eq (a b : option Z) : SaveManager.slot_eqb a b = true <-> a = b.
Proof.
  destruct a as [x|], b as [y|]; cbn; try (split; [discriminate | intros [=]]).
  - rewrite Z.eqb_eq. split; [now intros -> | now intros [= ->]].
  - split; reflexivity.
Qed.

Lemma quick_records_evict (s : option Z) (db : DB.saves) :
  quick_records gameId (SaveManager.evict gameId s db)
  = filter (survives gameId s db) (quick_records gameId db).
Proof.
  unfold quick_records. rewrite evict_survivors. apply filter_comm.
Qed.

(** After the eviction no quick record of the title holds the slot. *)
Lemma evict_frees_slot (s : option Z) (db : DB.saves) :
  ~ In s (slots gameId (SaveManager.evict gameId s db)).
Proof.
  unfold slots. rewrite quick_records_evict. intros Hin.
  apply in_map_iff in Hin. destruct Hin as (x & Hx & Hin).
  apply filter_In in Hin. destruct Hin as [Hq Hsurv].
  unfold survives in Hsurv. rewrite forallb_forall in Hsurv.
  apply qSaves_In in Hq. specialize (Hsurv x Hq).
  rewrite String.eqb_refl, andb_true_r in Hsurv.
  apply negb_true_iff in Hsurv.
  assert (Heq : SaveManager.slot_eqb (Save.quick x) s = true)
    by now apply slot_eqb_eq.
  congruence.
Qed.

Lemma evict_invariant (s : option Z) (db : DB.saves) :
  NoDup (slots gameId db) ->
  NoDup (slots gameId (SaveManager.evict gameId s db)).
Proof.
  unfold slots. rewrite quick_records_evict. apply NoDup_map_filter.
Qed.

Lemma evict_length (s : option Z) (db : DB.saves) :
  (List.length (quick_records gameId (SaveManager.evict gameId s db))
   <= List.length (quick_records gameId db))%nat.
Proof. rewrite quick_records_evict. apply filter_length_le. Qed.

(** Evicting the slot of a quick record of the title removes a record. *)
Lemma evict_length_lt (r : Save.t) (db : DB.saves) :
  In r (quick_records gameId db) ->
  (List.length (quick_records gameId (SaveManager.evict gameId (Save.quick r) db))
   < List.length (quick_records gameId db))%nat.
Proof.
  intros Hin. rewrite quick_records_evict.
  apply filter_length_lt with r; [exact Hin |].
  unfold survives. apply not_true_is_false. intros Hall.
  rewrite forallb_forall in Hall.
  specialize (Hall r (proj2 (qSaves_In db r) Hin)).
  rewrite String.eqb_refl, andb_true_r in Hall.
  apply negb_true_iff in Hall.
  assert (SaveManager.slot_eqb (Save.quick r) (Save.quick r) = true)
    by now apply slot_eqb_eq.
  congruence.
Qed.

(** Nothing is evicted for a slot no quick record of the title holds. *)
Lemma evict_unused (s : option Z) (db : DB.saves) :
  ~ In s (slots gameId db) -> SaveManager.evict gameId s db = db.
Proof.
  intros Hfree. rewrite evict_survivors.
  assert (Hall : forall x, survives gameId s db x = true).
  { intros x. unfold survives. apply forallb_forall. intros r Hr.
    apply negb_true_iff, andb_false_iff. left.
    apply not_true_is_false. intros Heq. apply slot_eqb_eq in Heq.
    apply Hfree. unfold slots. apply in_map_iff. exists r.
    split; [exact Heq | now apply qSaves_In]. }
  now apply filter_all.
Qed.
End QuickFacts.

(** ** Quick saves: the name and the new record *)

Lemma trimEnd_cons (c : ascii) (t : string) :
  trimEnd t <> "" -> trimEnd (String c t) = String c (trimEnd t).
Proof.
  intros H. cbn. destruct (trimEnd t); [contradiction | reflexivity].
Qed.

Lemma trimEnd_before_slash (x : string) :
  trimEnd (x ++ "/5") = x ++ "/5".
Proof.
  induction x as [|c x IH]; [reflexivity |].
  cbn [append]. rewrite trimEnd_cons; rewrite IH; [reflexivity |].
  destruct x; discriminate.
Qed.

Lemma slot_name_trimmed (s : option Z) :
  trim (SaveManager.slot_name s) = SaveManager.slot_name s.
Proof.
  unfold SaveManager.slot_name.
  change (show_Z QUICK_SLOTS) with "5".
  change ("Slot " ++ SaveManager.show_slot s ++ "/" ++ "5")
    with (String "S" (String "l" (String "o" (String "t" (String " "
            (SaveManager.show_slot s ++ "/5")))))).
  pose proof (trimEnd_before_slash (SaveManager.show_slot s)) as H.
  assert (Hne : SaveManager.show_slot s ++ "/5" <> "")
    by (destruct (SaveManager.show_slot s); discriminate).
  unfold trim. change (trimStart (String "S" ?t)) with (String "S" t).
  set (tail := SaveManager.show_slot s ++ "/5") in *.
  assert (H5 : trimEnd (String " " tail) = String " " tail).
  { rewrite trimEnd_cons; rewrite H; [reflexivity | exact Hne]. }
  assert (H4 : trimEnd (String "t" (String " " tail))
               = String "t" (String " " tail)).
  { rewrite trimEnd_cons; rewrite H5; [reflexivity | discriminate]. }
  assert (H3 : trimEnd (String "o" (String "t" (String " " tail)))
               = String "o" (String "t" (String " " tail))).
  { rewrite trimEnd_cons; rewrite H4; [reflexivity | discriminate]. }
  assert (H2 : trimEnd (String "l" (String "o" (String "t" (String " " tail))))
               = String "l" (String "o" (String "t" (String " " tail)))).
  { rewrite trimEnd_cons; rewrite H3; [reflexivity | discriminate]. }
  rewrite trimEnd_cons; rewrite H2; [reflexivity | discriminate].
Qed.

Section QuickStep.
Variable JSON_stringify : json -> string.
Variable LZString : option lzstring.
Variable compression : bool.
Variable gameId : string.

(** The record a quick save stores for slot [s]. *)
Lemma slot_name_resolved (s : option Z) (rows : list Save.t) :
  SaveManager.resolve_name (SaveManager.slot_name s) rows
  = Some (SaveManager.slot_name s).
Proof.
  unfold SaveManager.resolve_name. rewrite slot_name_trimmed.
  destruct (String.eqb_spec (SaveManager.slot_name s) "") as [E|_];
    [discriminate E | reflexivity].
Qed.

(** [quick] in one step: evict, then store the new record if capture
    succeeds. *)
Lemma quick_unfold (w : world) (db : DB.saves) (s : option Z) :
  SaveManager.target_slot gameId db = inr s ->
  SaveManager.quick JSON_stringify LZString compression gameId w db
  = match SaveManager.capture w with
    | inl e => Some (SaveManager.evict gameId s db, inl e)
    | inr st =>
        Some (DB.insert Save.keyPath_id (KStr (SaveManager.new_id gameId w))
                (SaveManager.new_record JSON_stringify LZString compression
                   gameId w (SaveManager.slot_name s) s st)
                (SaveManager.evict gameId s db),
              inr tt)
    end.
Proof.
  intros Ht. unfold SaveManager.quick. rewrite Ht.
  destruct (SaveManager.capture w) as [e|st] eqn:Hc.
  - unfold SaveManager.create. now rewrite Hc.
  - apply create_named; [exact Hc | apply slot_name_resolved].
Qed.

(** The quick records after a write of record [o]. *)
Lemma quick_records_insert (o : Save.t) (db : DB.saves) :
  exists l1 l2,
    quick_records gameId (DB.insert Save.keyPath_id (KStr (Save.id o)) o db)
    = (l1 ++ (if is_quick_of gameId o then [o] else []) ++ l2)%list
    /\ (quick_records gameId db = (l1 ++ l2)%list
        \/ exists x, quick_records gameId db = (l1 ++ x :: l2)%list
                     /\ Save.id x = Save.id o).
Proof.
  destruct (insert_shape Save.keyPath_id (KStr (Save.id o)) o db)
    as (l1 & l2 & Hins & Hdb).
  exists (quick_records gameId l1), (quick_records gameId l2).
  unfold quick_records in *. rewrite Hins, filter_app. cbn [filter].
  split.
  - destruct (is_quick_of gameId o); reflexivity.
  - destruct Hdb as [-> | (x & -> & Hx)].
    + left. apply filter_app.
    + rewrite filter_app. cbn [filter].
      destruct (is_quick_of gameId x); [| now left].
      right. exists x. split; [reflexivity |]. now injection Hx.
Qed.

Lemma new_record_quick (w : world) (nm : string) (z : Z) (st : json) :
  is_quick_of gameId
    (SaveManager.new_record JSON_stringify LZString compression gameId
       w nm (Some z) st) = true.
Proof.
  unfold is_quick_of, has_slot. cbn. now rewrite String.eqb_refl.
Qed.

(** Storing a quick record in a slot that no record holds keeps the slots
    distinct and adds at most one quick record. *)
Lemma insert_slot_invariant (o : Save.t) (db : DB.saves) :
  is_quick_of gameId o = true ->
  NoDup (slots gameId db) ->
  ~ In (Save.quick o) (slots gameId db) ->
  NoDup (slots gameId (DB.insert Save.keyPath_id (KStr (Save.id o)) o db))
  /\ (List.length (quick_records gameId
                     (DB.insert Save.keyPath_id (KStr (Save.id o)) o db))
      <= S (List.length (quick_records gameId db)))%nat.
Proof.
  intros Hq Hnd Hfree. unfold slots in *.
  destruct (quick_records_insert o db) as (l1 & l2 & -> & Hdb).
  rewrite Hq. cbn [app].
  assert (Hrest : NoDup (map Save.quick (l1 ++ l2))
                  /\ ~ In (Save.quick o) (map Save.quick (l1 ++ l2))
                  /\ (List.length (l1 ++ l2)
                      <= List.length (quick_records gameId db))%nat).
  { destruct Hdb as [E | (x & E & _)]; rewrite E in *.
    - auto.
    - rewrite map_app in Hnd, Hfree. cbn [map] in Hnd, Hfree.
      rewrite map_app. split; [now apply NoDup_remove_1 in Hnd | split].
      + intros Hin. apply Hfree. apply in_app_iff in Hin.
        apply in_app_iff. destruct Hin; [now left | right; now right].
      + rewrite !length_app. cbn. lia. }
  destruct Hrest as (Hnd' & Hfree' & Hlen). split.
  - rewrite map_app. cbn [map].
    apply (Permutation_NoDup (Permutation_middle _ _ _)).
    constructor; rewrite <- map_app; assumption.
  - rewrite length_app in *. cbn. lia.
Qed.
End QuickStep.

(** ** Quick saves: the slot chosen *)

Lemma used_slot (usedSlots : list (option Z)) (i : Z) :
  existsb (fun u => match u with
                    | Some z => z =? i
                    | None => false
                    end) usedSlots = true
  <-> In (Some i) usedSlots.
Proof.
  rewrite existsb_exists. split.
  - intros ([z|] & Hin & Hz); [| discriminate].
    apply Z.eqb_eq in Hz. now subst.
  - intros Hin. exists (Some i). split; [exact Hin | apply Z.eqb_refl].
Qed.

(** The loop returns the first unused slot of its range, or the value it
    started with when the whole range is in use. *)
Lemma first_unused_spec (usedSlots : list (option Z)) (n : nat) (i s : Z) :
  let r := SaveManager.first_unused usedSlots i n s in
  (i <= r < i + Z.of_nat n
   /\ ~ In (Some r) usedSlots
   /\ forall j, i <= j < r -> In (Some j) usedSlots)
  \/ (r = s /\ forall j, i <= j < i + Z.of_nat n -> In (Some j) usedSlots).
Proof.
  revert i. induction n as [|n IH]; intros i; cbn zeta.
  - right. split; [reflexivity | intros j Hj; lia].
  - cbn [SaveManager.first_unused].
    destruct (existsb _ usedSlots) eqn:E; cbn [negb].
    + apply used_slot in E.
      destruct (IH (i + 1)) as [(Hr & Hfree & Hlow) | (Hr & Hall)].
      * left. split; [lia | split; [exact Hfree |]].
        intros j Hj. destruct (Z.eq_dec j i) as [-> | Hne]; [exact E |].
        apply Hlow. lia.
      * right. split; [exact Hr |].
        intros j Hj. destruct (Z.eq_dec j i) as [-> | Hne]; [exact E |].
        apply Hall. lia.
    + left. split; [lia | split].
      * intros Hin. apply used_slot in Hin. congruence.
      * intros j Hj. lia.
Qed.

(** Five slots in use need five records. *)
Lemma all_slots_used (usedSlots : list (option Z)) :
  (forall j, 1 <= j < 1 + 5 -> In (Some j) usedSlots) ->
  (5 <= List.length usedSlots)%nat.
Proof.
  intros Hall.
  change 5%nat with (List.length [Some 1; Some 2; Some 3; Some 4; Some 5]).
  apply NoDup_incl_length.
  - repeat constructor; cbn; intuition discriminate.
  - intros u Hu. cbn in Hu.
    destruct Hu as [<- | [<- | [<- | [<- | [<- | []]]]]]; apply Hall; lia.
Qed.

Section TargetSlot.
Variable gameId : string.

Lemma slots_qSaves (db : DB.saves) (u : option Z) :
  In u (map Save.quick (SaveManager.qSaves gameId db)) <-> In u (slots gameId db).
Proof.
  unfold slots. split; apply Permutation_in, Permutation_map;
    [apply qSaves_perm | apply Permutation_sym, qSaves_perm].
Qed.

(** With fewer than [QUICK_SLOTS] quick records, the chosen slot is the
    lowest slot of 1..5 that no quick record of the title holds. *)
Lemma target_slot_free (db : DB.saves) :
  (List.length (quick_records gameId db) < 5)%nat ->
  exists i,
    SaveManager.target_slot gameId db = inr (Some i)
    /\ 1 <= i <= 5
    /\ ~ In (Some i) (slots gameId db)
    /\ forall j, 1 <= j < i -> In (Some j) (slots gameId db).
Proof.
  intros Hlt. unfold SaveManager.target_slot. rewrite qSaves_length.
  destruct (Z.ltb_spec (Z.of_nat (List.length (quick_records gameId db)))
              QUICK_SLOTS) as [_ | Hge]; [| unfold QUICK_SLOTS in Hge; lia].
  eexists. split; [reflexivity |].
  change (Z.to_nat QUICK_SLOTS) with 5%nat.
  destruct (first_unused_spec (map Save.quick (SaveManager.qSaves gameId db))
              5 1 1) as [(Hr & Hfree & Hlow) | (_ & Hall)].
  - split; [lia | split].
    + intros Hin. apply Hfree. now apply slots_qSaves.
    + intros j Hj. apply slots_qSaves. now apply Hlow.
  - apply all_slots_used in Hall.
    rewrite length_map, qSaves_length in Hall. lia.
Qed.

(** With all slots taken, the chosen slot is that of the first record of
    the ascending listing. *)
Lemma target_slot_full (db : DB.saves) :
  (5 <= List.length (quick_records gameId db))%nat ->
  exists r0 rest z,
    SaveManager.qSaves gameId db = r0 :: rest
    /\ Save.quick r0 = Some z
    /\ SaveManager.target_slot gameId db = inr (Some z).
Proof.
  intros Hge. unfold SaveManager.target_slot. rewrite qSaves_length.
  destruct (Z.ltb_spec (Z.of_nat (List.length (quick_records gameId db)))
              QUICK_SLOTS) as [Hlt | _]; [unfold QUICK_SLOTS in Hlt; lia |].
  destruct (SaveManager.qSaves gameId db) as [|r0 rest] eqn:Eq.
  - pose proof (qSaves_length gameId db) as Hl. rewrite Eq in Hl. cbn in Hl. lia.
  - assert (Hin : In r0 (quick_records gameId db)).
    { apply qSaves_In. rewrite Eq. now left. }
    apply quick_records_In in Hin. destruct Hin as (_ & _ & z & Hz).
    exists r0, rest, z. rewrite Hz. auto.
Qed.

(** Either way a slot is chosen, and evicting it leaves room for one more
    quick record. *)
Lemma target_slot_room (db : DB.saves) :
  Z.of_nat (List.length (quick_records gameId db)) <= QUICK_SLOTS ->
  exists z,
    SaveManager.target_slot gameId db = inr (Some z)
    /\ (List.length (quick_records gameId
                       (SaveManager.evict gameId (Some z) db)) < 5)%nat.
Proof.
  intros Hinv. unfold QUICK_SLOTS in Hinv.
  destruct (Nat.lt_ge_cases (List.length (quick_records gameId db)) 5)
    as [Hlt | Hge].
  - destruct (target_slot_free db Hlt) as (i & Ht & _).
    exists i. split; [exact Ht |].
    pose proof (evict_length gameId (Some i) db). lia.
  - destruct (target_slot_full db Hge) as (r0 & rest & z & Eq & Hz & Ht).
    exists z. split; [exact Ht |].
    assert (Hin : In r0 (quick_records gameId db)).
    { apply qSaves_In. rewrite Eq. now left. }
    pose proof (evict_length_lt gameId r0 db Hin) as Hlt.
    rewrite Hz in Hlt. lia.
Qed.
End TargetSlot.

(** ** Slot exclusivity *)

Section Exclusivity.
Variable JSON_stringify : json -> string.
Variable LZString : option lzstring.
Variable compression : bool.
Variable gameId : string.

Lemma no_quick_records_invariant (db : DB.saves) :
  quick_records gameId db = [] -> slot_invariant gameId db.
Proof.
  intros H. unfold slot_invariant, slots. rewrite H. cbn.
  split; [constructor | unfold QUICK_SLOTS; lia].
Qed.

(** One [quick()] call, whether or not capture succeeds, takes a store that
    satisfies the invariant to one that does. *)
Lemma quick_preserves_invariant (w : world) (db : DB.saves) :
  slot_invariant gameId db ->
  exists db' res,
    SaveManager.quick JSON_stringify LZString compression gameId w db
    = Some (db', res)
    /\ slot_invariant gameId db'.
Proof.
  intros [Hnd Hlen].
  destruct (target_slot_room gameId db Hlen) as (z & Ht & Hroom).
  rewrite (quick_unfold JSON_stringify LZString compression gameId w db
             (Some z) Ht).
  pose proof (evict_invariant gameId (Some z) db Hnd) as Hnd'.
  destruct (SaveManager.capture w) as [e|st].
  - eexists. eexists. split; [reflexivity |].
    split; [exact Hnd' | unfold QUICK_SLOTS; lia].
  - eexists. eexists. split; [reflexivity |].
    set (o := SaveManager.new_record JSON_stringify LZString compression
                gameId w (SaveManager.slot_name (Some z)) (Some z) st).
    change (SaveManager.new_id gameId w) with (Save.id o).
    destruct (insert_slot_invariant gameId o
                (SaveManager.evict gameId (Some z) db)) as [Hnd'' Hlen''].
    + apply new_record_quick.
    + exact Hnd'.
    + apply evict_frees_slot.
    + split; [exact Hnd'' | unfold QUICK_SLOTS; lia].
Qed.

Lemma quick_run_invariant (ws : list world) (db : DB.saves) :
  slot_invariant gameId db ->
  exists trace,
    SaveManager.quick_run JSON_stringify LZString compression gameId ws db
    = Some trace
    /\ List.length trace = List.length ws
    /\ Forall (slot_invariant gameId) trace.
Proof.
  revert db. induction ws as [|w ws IH]; intros db Hinv; cbn.
  - exists []. repeat split. constructor.
  - destruct (quick_preserves_invariant w db Hinv) as (db' & res & Hq & Hinv').
    rewrite Hq. destruct (IH db' Hinv') as (trace & Hrun & Hl & Hall).
    rewrite Hrun. exists (db' :: trace).
    split; [reflexivity | split; [cbn; now rewrite Hl | now constructor]].
Qed.

(** C1. Slot exclusivity: from a store in which the title has no quick
    record, any sequence of [quick()] calls runs to the end (whatever the
    page answers to each call), and after each call no two quick records of
    the title hold the same slot and the title has at most [QUICK_SLOTS] = 5
    quick records. *)
Theorem quick_slot_exclusivity (ws : list world) (db : DB.saves) :
  quick_records gameId db = [] ->
  exists trace,
    SaveManager.quick_run JSON_stringify LZString compression gameId ws db
    = Some trace
    /\ List.length trace = List.length ws
    /\ Forall (fun db' =>
                 NoDup (slots gameId db')
                 /\ Z.of_nat (List.length (quick_records gameId db')) <= 5)
              trace.
Proof.
  intros Hempty.
  exact (quick_run_invariant ws db (no_quick_records_invariant db Hempty)).
Qed.
End Exclusivity.

Lemma quick_slot_exclusivity_witness :
  let ws := [sample_world 1 "a"; sample_world 2 "b"; sample_world 3 "c";
             sample_world 4 "d"; sample_world 5 "e"; sample_world 6 "f";
             sample_world 7 "g"] in
  let db := [manual_save "s1" "/game" "Save 1" 0] in
  quick_records "/game" db = []
  /\ exists trace,
       SaveManager.quick_run sample_stringify None true "/game" ws db = Some trace
       /\ List.length trace = 7%nat
       /\ Forall (fun db' =>
                    NoDup (slots "/game" db')
                    /\ Z.of_nat (List.length (quick_records "/game" db')) <= 5)
                 trace.
Proof.
  cbn zeta. split; [reflexivity |].
  exact (quick_slot_exclusivity sample_stringify None true "/game"
           [sample_world 1 "a"; sample_world 2 "b"; sample_world 3 "c";
            sample_world 4 "d"; sample_world 5 "e"; sample_world 6 "f";
            sample_world 7 "g"]
           [manual_save "s1" "/game" "Save 1" 0] eq_refl).
Defined.

(** ** Slot fill order *)

Section FillOrder.
Variable JSON_stringify : json -> string.
Variable LZString : option lzstring.
Variable compression : bool.
Variable gameId : string.

(** A quick save into a free slot deletes nothing and stores one record. *)
Lemma quick_into_free_slot (w : world) (db : DB.saves) (i : Z) (st : json) :
  SaveManager.target_slot gameId db = inr (Some i) ->
  ~ In (Some i) (slots gameId db) ->
  SaveManager.capture w = inr st ->
  SaveManager.quick JSON_stringify LZString compression gameId w db
  = Some (DB.insert Save.keyPath_id (KStr (SaveManager.new_id gameId w))
            (SaveManager.new_record JSON_stringify LZString compression gameId
               w (SaveManager.slot_name (Some i)) (Some i) st) db,
          inr tt).
Proof.
  intros Ht Hfree Hc.
  rewrite (quick_unfold JSON_stringify LZString compression gameId w db
             (Some i) Ht), Hc.
  now rewrite (evict_unused gameId (Some i) db Hfree).
Qed.

Lemma filled_length (k : nat) (db : DB.saves) :
  filled gameId k db -> List.length (quick_records gameId db) = k.
Proof.
  intros [Hnd Hmem].
  assert (Hperm : Permutation (slots gameId db)
                    (map (fun n => Some (Z.of_nat n)) (seq 1 k))).
  { apply NoDup_Permutation; [exact Hnd | |].
    - apply Finite.Injective_map_NoDup; [| apply seq_NoDup].
      intros a b [= E]. lia.
    - intros u. rewrite Hmem, in_map_iff. split.
      + intros (j & -> & Hj). exists (Z.to_nat j). split; [f_equal; lia |].
        apply in_seq. lia.
      + intros (n & <- & Hn). apply in_seq in Hn.
        exists (Z.of_nat n). split; [reflexivity | lia]. }
  apply Permutation_length in Hperm.
  unfold slots in Hperm. now rewrite !length_map, length_seq in Hperm.
Qed.

Lemma quick_slots_fill (ws : list world) :
  forall (k : nat) (db : DB.saves),
    (k + List.length ws <= 5)%nat ->
    filled gameId k db ->
    Forall (fun w => exists st, SaveManager.capture w = inr st) ws ->
    NoDup (map (SaveManager.new_id gameId) ws) ->
    (forall r, In r (quick_records gameId db) ->
               ~ In (Save.id r) (map (SaveManager.new_id gameId) ws)) ->
    SaveManager.quick_slots JSON_stringify LZString compression gameId ws db
    = map (fun n => inr (Some (Z.of_nat n))) (seq (S k) (List.length ws)).
Proof.
  induction ws as [|w ws IH]; intros k db Hk Hfill Hcap Hids Hfresh;
    [reflexivity |].
  cbn [List.length] in Hk. cbn [SaveManager.quick_slots].
  pose proof (filled_length k db Hfill) as Hlen.
  destruct Hfill as [Hnd Hmem].
  destruct (target_slot_free gameId db) as (i & Ht & Hi & Hfree & Hlow); [lia |].
  assert (Hik : i = Z.of_nat (S k)).
  { assert (~ (1 <= i <= Z.of_nat k)).
    { intros Hr. apply Hfree. apply Hmem. now exists i. }
    destruct (Z.lt_ge_cases (Z.of_nat (S k)) i) as [Hbig | Hsmall]; [| lia].
    assert (Hin : In (Some (Z.of_nat (S k))) (slots gameId db))
      by (apply Hlow; lia).
    apply Hmem in Hin. destruct Hin as (j & [= <-] & Hj). lia. }
  subst i.
  apply Forall_cons_iff in Hcap. destruct Hcap as [[st Hst] Hcap].
  cbn [map] in Hids. apply NoDup_cons_iff in Hids. destruct Hids as [Hw Hids].
  rewrite (quick_into_free_slot w db _ st Ht Hfree Hst), Ht.
  cbn [List.length seq map]. f_equal.
  set (o := SaveManager.new_record JSON_stringify LZString compression gameId
              w (SaveManager.slot_name (Some (Z.of_nat (S k))))
              (Some (Z.of_nat (S k))) st).
  change (SaveManager.new_id gameId w) with (Save.id o) in *.
  assert (Hqo : is_quick_of gameId o = true) by apply new_record_quick.
  destruct (insert_slot_invariant gameId o db Hqo Hnd Hfree) as [Hnd' _].
  destruct (quick_records_insert gameId o db) as (l1 & l2 & Hins & Hdb).
  rewrite Hqo in Hins.
  assert (Hold : quick_records gameId db = (l1 ++ l2)%list).
  { destruct Hdb as [E | (x & E & Hx)]; [exact E | exfalso].
    apply (Hfresh x); [rewrite E; apply in_elt |].
    cbn [map]. left. now rewrite Hx. }
  assert (Hin' : forall r,
             In r (quick_records gameId
                     (DB.insert Save.keyPath_id (KStr (Save.id o)) o db))
             <-> r = o \/ In r (quick_records gameId db)).
  { intros r. rewrite Hins, Hold, !in_app_iff. cbn [In]. intuition. }
  apply IH.
  - lia.
  - split; [exact Hnd' |]. intros u. unfold slots. rewrite in_map_iff. split.
    + intros (r & <- & Hr). apply Hin' in Hr. destruct Hr as [-> | Hr].
      * exists (Z.of_nat (S k)). split; [reflexivity | lia].
      * assert (Hu : In (Save.quick r) (slots gameId db))
          by (unfold slots; now apply in_map).
        apply Hmem in Hu. destruct Hu as (j & Hj & Hr'). exists j. split; [exact Hj | lia].
    + intros (j & -> & Hj).
      destruct (Z.eq_dec j (Z.of_nat (S k))) as [-> | Hne].
      * exists o. split; [reflexivity | apply Hin'; now left].
      * assert (Hu : In (Some j) (slots gameId db))
          by (apply Hmem; exists j; split; [reflexivity | lia]).
        unfold slots in Hu. apply in_map_iff in Hu.
        destruct Hu as (r & Hr & Hin). exists r.
        split; [exact Hr | apply Hin'; now right].
  - exact Hcap.
  - exact Hids.
  - intros r Hr Hin. apply Hin' in Hr. destruct Hr as [-> | Hr].
    + now apply Hw.
    + apply (Hfresh r Hr). cbn [map]. now right.
Qed.
End FillOrder.

Section FillOrderClaim.
Variable JSON_stringify : json -> string.
Variable LZString : option lzstring.
Variable compression : bool.
Variable gameId : string.

(** C4. With fewer than [QUICK_SLOTS] quick records for the title, [quick()]
    chooses the lowest slot of 1..5 that no quick record of the title holds
    and, when capture succeeds, stores the new record in that slot without
    deleting anything. In particular, from a store without quick records,
    five calls whose captures succeed and whose generated ids are distinct
    choose the slots 1, 2, 3, 4, 5 in that order. *)
Theorem quick_fills_lowest_unused (w : world) (ws : list world) (db : DB.saves) :
  (List.length (quick_records gameId db) < 5)%nat ->
  (exists i,
      SaveManager.target_slot gameId db = inr (Some i)
      /\ 1 <= i <= 5
      /\ ~ In (Some i) (slots gameId db)
      /\ (forall j, 1 <= j < i -> In (Some j) (slots gameId db))
      /\ forall st,
           SaveManager.capture w = inr st ->
           let o := SaveManager.new_record JSON_stringify LZString compression
                      gameId w (SaveManager.slot_name (Some i)) (Some i) st in
           SaveManager.quick JSON_stringify LZString compression gameId w db
           = Some (DB.insert Save.keyPath_id (KStr (Save.id o)) o db, inr tt)
           /\ DB.get_save (Save.id o)
                (DB.insert Save.keyPath_id (KStr (Save.id o)) o db) = Some o
           /\ Save.quick o = Some i)
  /\ (quick_records gameId db = [] ->
      List.length ws = 5%nat ->
      Forall (fun w => exists st, SaveManager.capture w = inr st) ws ->
      NoDup (map (SaveManager.new_id gameId) ws) ->
      SaveManager.quick_slots JSON_stringify LZString compression gameId ws db
      = [inr (Some 1); inr (Some 2); inr (Some 3); inr (Some 4); inr (Some 5)]).
Proof.
  intros Hlt. split.
  - destruct (target_slot_free gameId db Hlt) as (i & Ht & Hi & Hfree & Hlow).
    exists i. split; [exact Ht | split; [exact Hi | split; [exact Hfree |]]].
    split; [exact Hlow |]. intros st Hst o. split; [| split].
    + now apply quick_into_free_slot.
    + unfold DB.get_save. now apply get_insert.
    + reflexivity.
  - intros Hempty Hlen Hcap Hids.
    rewrite (quick_slots_fill JSON_stringify LZString compression gameId
               ws 0 db).
    + now rewrite Hlen.
    + rewrite Hlen. lia.
    + unfold filled, slots. rewrite Hempty. cbn. split; [constructor |].
      intros u. split; [intros [] | intros (j & _ & Hj); lia].
    + exact Hcap.
    + exact Hids.
    + rewrite Hempty. intros r [].
Qed.
End FillOrderClaim.

Lemma quick_fills_lowest_unused_witness :
  let ws := [sample_world 1 "a"; sample_world 2 "b"; sample_world 3 "c";
             sample_world 4 "d"; sample_world 5 "e"] in
  let db := [manual_save "s1" "/game" "Save 1" 0] in
  (List.length (quick_records "/game" db) < 5)%nat
  /\ SaveManager.quick_slots sample_stringify None true "/game" ws db
     = [inr (Some 1); inr (Some 2); inr (Some 3); inr (Some 4); inr (Some 5)].
Proof.
  cbn zeta.
  assert (Hlt : (List.length (quick_records "/game"
                                [manual_save "s1" "/game" "Save 1" 0]) < 5)%nat).
  { vm_compute. lia. }
  split; [exact Hlt |].
  destruct (quick_fills_lowest_unused sample_stringify None true "/game"
              (sample_world 1 "a")
              [sample_world 1 "a"; sample_world 2 "b"; sample_world 3 "c";
               sample_world 4 "d"; sample_world 5 "e"]
              [manual_save "s1" "/game" "Save 1" 0] Hlt) as [_ Hseq].
  apply Hseq.
  - reflexivity.
  - reflexivity.
  - repeat (constructor; [eexists; reflexivity |]). constructor.
  - match goal with |- NoDup ?l => set (ids := l) end.
    replace ids with (nodup string_dec ids) by (vm_compute; reflexivity).
    apply NoDup_nodup.
Defined.

(** ** The ascending listing: oldest first, stable *)

Section SortByKey.
Context {A : Type}.
Variable f : A -> Z.

Lemma sort_insert_sorted (x : A) (l : list A) :
  StronglySorted (fun a b => f a <= f b) l ->
  StronglySorted (fun a b => f a <= f b) (sort_insert (fun a b => f a - f b) x l).
Proof.
  induction 1 as [|y l Hs IH Hy]; cbn.
  - constructor; constructor.
  - destruct (Z.leb_spec (f x - f y) 0) as [Hle | Hgt].
    + constructor; [now constructor |].
      constructor; [lia |].
      eapply Forall_impl; [| exact Hy]. cbn. intros z Hz. lia.
    + constructor; [exact IH |].
      apply Forall_forall. intros z Hz.
      apply (Permutation_in _ (sort_insert_perm (fun a b => f a - f b) x l)) in Hz.
      destruct Hz as [<- | Hz]; [lia |].
      rewrite Forall_forall in Hy. now apply Hy.
Qed.

Lemma Array_sort_sorted (l : list A) :
  StronglySorted (fun a b => f a <= f b) (Array_sort (fun a b => f a - f b) l).
Proof.
  induction l as [|x l IH]; cbn; [constructor | now apply sort_insert_sorted].
Qed.

(** The first element of the sorted list has the smallest key. *)
Lemma Array_sort_head_min (l rest : list A) (x : A) :
  Array_sort (fun a b => f a - f b) l = x :: rest -> forall y, In y l -> f x <= f y.
Proof.
  intros E y Hy. pose proof (Array_sort_sorted l) as Hs. rewrite E in Hs.
  apply StronglySorted_inv in Hs. destruct Hs as [_ Hall].
  apply (Array_sort_In (fun a b => f a - f b)) in Hy. rewrite E in Hy.
  destruct Hy as [<- | Hy]; [lia |].
  rewrite Forall_forall in Hall. now apply Hall.
Qed.

(** Stability: elements with equal keys keep their order. *)
Lemma sort_insert_stable (t : Z) (x : A) (l : list A) :
  filter (fun a => f a =? t) (sort_insert (fun a b => f a - f b) x l)
  = filter (fun a => f a =? t) (x :: l).
Proof.
  induction l as [|y l IH]; [reflexivity |].
  cbn [sort_insert].
  destruct (Z.leb_spec (f x - f y) 0) as [Hle | Hgt]; [reflexivity |].
  cbn [filter] in *. rewrite IH.
  destruct (Z.eqb_spec (f x) t) as [Hx | Hx]; [| reflexivity].
  destruct (Z.eqb_spec (f y) t) as [Hy | Hy]; [lia | reflexivity].
Qed.

Lemma Array_sort_stable (t : Z) (l : list A) :
  filter (fun a => f a =? t) (Array_sort (fun a b => f a - f b) l)
  = filter (fun a => f a =? t) l.
Proof.
  induction l as [|x l IH]; [reflexivity |].
  cbn [Array_sort fold_right]. fold (Array_sort (fun a b => f a - f b) l).
  rewrite sort_insert_stable. cbn [filter]. now rewrite IH.
Qed.

Lemma filter_head_find (p : A -> bool) (l rest : list A) (x : A) :
  filter p l = x :: rest -> find p l = Some x.
Proof.
  induction l as [|y l IH]; cbn; [discriminate |].
  destruct (p y); [now intros [= ->] | exact IH].
Qed.

(** The first element of the sorted list is the first of the input among
    the elements with the smallest key. *)
Lemma Array_sort_head_first (l rest : list A) (x : A) :
  Array_sort (fun a b => f a - f b) l = x :: rest ->
  find (fun a => f a =? f x) l = Some x.
Proof.
  intros E. pose proof (Array_sort_stable (f x) l) as Hst.
  rewrite E in Hst. cbn [filter] in Hst. rewrite Z.eqb_refl in Hst.
  symmetry in Hst. now apply filter_head_find in Hst.
Qed.
End SortByKey.

Lemma unique_id (db : DB.saves) (r x : Save.t) :
  NoDup (map Save.id db) -> In r db -> In x db -> Save.id r = Save.id x -> r = x.
Proof.
  induction db as [|y db IH]; cbn; [intros _ [] |].
  intros Hnd Hr Hx E. apply NoDup_cons_iff in Hnd. destruct Hnd as [Hy Hnd].
  destruct Hr as [-> | Hr], Hx as [-> | Hx].
  - reflexivity.
  - exfalso. apply Hy. rewrite E. now apply in_map.
  - exfalso. apply Hy. rewrite <- E. now apply in_map.
  - now apply IH.
Qed.

(** ** Slot eviction *)

Section Eviction.
Variable JSON_stringify : json -> string.
Variable LZString : option lzstring.
Variable compression : bool.
Variable gameId : string.

(** In a store with one record per id, the eviction of slot [s] deletes the
    quick records of the title that hold [s], and only them. *)
Lemma evict_holders (s : option Z) (db : DB.saves) :
  NoDup (map Save.id db) ->
  SaveManager.evict gameId s db
  = filter (fun x => negb (holds_slot gameId s x)) db.
Proof.
  intros Hnd. rewrite evict_survivors. apply filter_ext_in. intros x Hx.
  unfold survives, holds_slot.
  destruct (is_quick_of gameId x && SaveManager.slot_eqb (Save.quick x) s)
    eqn:Hh; cbn [negb].
  - apply andb_true_iff in Hh. destruct Hh as [Hq Hs].
    apply not_true_is_false. intros Hall. rewrite forallb_forall in Hall.
    assert (Hin : In x (SaveManager.qSaves gameId db)).
    { apply qSaves_In. unfold quick_records. apply filter_In. now split. }
    specialize (Hall x Hin). rewrite Hs, String.eqb_refl in Hall. discriminate.
  - apply forallb_forall. intros r Hr.
    apply negb_true_iff, not_true_is_false. intros Hboth.
    apply andb_true_iff in Hboth. destruct Hboth as [Hs Hid].
    apply String.eqb_eq in Hid.
    apply qSaves_In in Hr. unfold quick_records in Hr.
    apply filter_In in Hr. destruct Hr as [Hrdb Hrq].
    assert (r = x) by now apply unique_id with db. subst r.
    rewrite Hrq, Hs in Hh. discriminate.
Qed.

(** C5 (as amended). With at least [QUICK_SLOTS] quick records for the
    title, [quick()] takes the slot of the quick record with the smallest
    timestamp (among records with that timestamp, the one the newest-first
    listing presents first) and deletes every record of the title holding
    that slot and no other record. When capture then succeeds, the new
    quick record is stored in that slot: it is found under its id, it is
    the only record of the title holding the slot, and the records that
    held the slot are no longer found. When capture fails, the deletion
    stands and no record is stored. *)
Theorem quick_evicts_oldest (w : world) (db : DB.saves) :
  NoDup (map Save.id db) ->
  (5 <= List.length (quick_records gameId db))%nat ->
  exists r0 s,
    hd_error (SaveManager.qSaves gameId db) = Some r0
    /\ In r0 (quick_records gameId db)
    /\ Save.quick r0 = Some s
    /\ (forall r, In r (quick_records gameId db) -> Save.ts r0 <= Save.ts r)
    /\ find (fun r => Save.ts r =? Save.ts r0)
            (filter has_slot (DB.list gameId db)) = Some r0
    /\ SaveManager.target_slot gameId db = inr (Some s)
    /\ SaveManager.evict gameId (Some s) db
       = filter (fun x => negb (holds_slot gameId (Some s) x)) db
    /\ (forall st,
          SaveManager.capture w = inr st ->
          let o := SaveManager.new_record JSON_stringify LZString compression
                     gameId w (SaveManager.slot_name (Some s)) (Some s) st in
          let db' := DB.insert Save.keyPath_id (KStr (Save.id o)) o
                       (filter (fun x => negb (holds_slot gameId (Some s) x)) db) in
          SaveManager.quick JSON_stringify LZString compression gameId w db
          = Some (db', inr tt)
          /\ DB.get_save (Save.id o) db' = Some o
          /\ Save.quick o = Some s
          /\ Save.name o = SaveManager.slot_name (Some s)
          /\ (forall x, In x db' -> holds_slot gameId (Some s) x = true -> x = o)
          /\ (forall x, In x db -> holds_slot gameId (Some s) x = true ->
                        Save.id x <> Save.id o ->
                        DB.get_save (Save.id x) db' = None))
    /\ (forall e,
          SaveManager.capture w = inl e ->
          SaveManager.quick JSON_stringify LZString compression gameId w db
          = Some (filter (fun x => negb (holds_slot gameId (Some s) x)) db,
                  inl e)).
Proof.
  intros Hnd Hfull.
  destruct (target_slot_full gameId db Hfull) as (r0 & rest & s & Eq & Hs & Ht).
  exists r0, s.
  assert (Hin : In r0 (quick_records gameId db)).
  { apply qSaves_In. rewrite Eq. now left. }
  split; [now rewrite Eq |].
  split; [exact Hin |].
  split; [exact Hs |].
  split.
  { intros r Hr. apply qSaves_In in Hr. unfold SaveManager.qSaves in *.
    apply (proj1 (Array_sort_In (fun a b => Save.ts a - Save.ts b) r _)) in Hr.
    exact (Array_sort_head_min Save.ts _ rest r0 Eq r Hr). }
  split.
  { exact (Array_sort_head_first Save.ts _ rest r0 Eq). }
  split; [exact Ht |].
  split; [now apply evict_holders |].
  split.
  - intros st Hst o db'.
    set (kept := filter (fun x => negb (holds_slot gameId (Some s) x)) db) in *.
    split; [| split; [| split; [reflexivity | split; [reflexivity | split]]]].
    + rewrite (quick_unfold JSON_stringify LZString compression gameId w db
                 (Some s) Ht), Hst.
      now rewrite (evict_holders (Some s) db Hnd).
    + unfold DB.get_save, db'. now apply get_insert.
    + intros x Hx Hh. unfold db' in Hx.
      destruct (insert_shape Save.keyPath_id (KStr (Save.id o)) o kept)
        as (l1 & l2 & Hins & Hold).
      rewrite Hins in Hx. apply in_app_iff in Hx.
      assert (Hkept : In x kept -> False).
      { intros Hk. unfold kept in Hk. apply filter_In in Hk.
        destruct Hk as [_ Hk]. rewrite Hh in Hk. discriminate Hk. }
      destruct Hold as [E | (y & E & _)];
        destruct Hx as [Hx | [<- | Hx]]; try reflexivity; exfalso;
        apply Hkept; rewrite E; apply in_app_iff; cbn [In]; tauto.
    + intros x Hx Hh Hid. unfold DB.get_save, db'.
      rewrite get_insert_other; [| reflexivity | congruence].
      unfold DB.get. destruct (find _ kept) as [y|] eqn:E; [exfalso | reflexivity].
      apply find_some in E. destruct E as [Hy Hkey].
      apply has_key_iff in Hkey. injection Hkey as Hkey.
      unfold kept in Hy. apply filter_In in Hy. destruct Hy as [Hy Hny].
      assert (y = x) by (apply (unique_id db); assumption). subst y.
      rewrite Hh in Hny. discriminate Hny.
  - intros e He.
    rewrite (quick_unfold JSON_stringify LZString compression gameId w db
               (Some s) Ht), He.
    now rewrite (evict_holders (Some s) db Hnd).
Qed.
End Eviction.

(** C5 fails as stated: with all five slots in use and a page on which the
    state cannot be captured, [quick()] deletes the oldest quick record and
    stores nothing, so that no record holds the slot afterwards. *)
Lemma quick_evicts_oldest_counterexample :
  let w := {| getCSApi := false; restoreObject := None;
              now_id := 60; uid := "u"; now_ts := 60 |} in
  (5 <= List.length (quick_records "/game" full_store))%nat
  /\ SaveManager.target_slot "/game" full_store = inr (Some 2)
  /\ exists db',
       SaveManager.quick sample_stringify None true "/game" w full_store
       = Some (db', inl (Error "Game API not found." None))
       /\ map Save.id db' = ["m1"; "q1"; "q3"; "q4"; "q5"; "x1"]
       /\ ~ In (Some 2) (slots "/game" db').
Proof.
  cbn zeta. split; [vm_compute; lia | split; [reflexivity |]].
  eexists. split; [vm_compute; reflexivity | split; [reflexivity |]].
  cbn. intros [H | [H | [H | [H | []]]]]; discriminate H.
Qed.

Lemma quick_evicts_oldest_witness :
  let w := sample_world 60 "u" in
  let o := SaveManager.new_record sample_stringify None true "/game" w
             (SaveManager.slot_name (Some 2)) (Some 2)
             (JObj [("stats", JObj [("sceneName", JStr "startup")])]) in
  NoDup (map Save.id full_store)
  /\ (5 <= List.length (quick_records "/game" full_store))%nat
  /\ SaveManager.target_slot "/game" full_store = inr (Some 2)
  /\ exists db',
       SaveManager.quick sample_stringify None true "/game" w full_store
       = Some (db', inr tt)
       /\ map Save.id db'
          = ["/game_60_u"; "m1"; "q1"; "q3"; "q4"; "q5"; "x1"]
       /\ DB.get_save "/game_60_u" db' = Some o
       /\ Save.quick o = Some 2
       /\ DB.get_save "q2" db' = None.
Proof.
  cbn zeta.
  assert (Hnd : NoDup (map Save.id full_store)).
  { replace (map Save.id full_store)
      with (nodup string_dec (map Save.id full_store))
      by (vm_compute; reflexivity).
    apply NoDup_nodup. }
  assert (Hfull : (5 <= List.length (quick_records "/game" full_store))%nat).
  { vm_compute. lia. }
  split; [exact Hnd | split; [exact Hfull |]].
  destruct (quick_evicts_oldest sample_stringify None true "/game"
              (sample_world 60 "u") full_store Hnd Hfull)
    as (r0 & s & Hhd & _ & Hs & _ & _ & Ht & _ & Hok & _).
  vm_compute in Hhd. injection Hhd as <-.
  vm_compute in Hs. injection Hs as <-.
  split; [exact Ht |].
  destruct (Hok _ eq_refl) as (Hq & Hget & Hslot & _ & _ & Hgone).
  eexists. split; [exact Hq | split; [vm_compute; reflexivity |]].
  split; [exact Hget | split; [exact Hslot |]].
  apply (Hgone (quick_save "q2" "/game" 2 10)).
  - right. right. now left.
  - reflexivity.
  - discriminate.
Defined.

(** ** Well-formed stores *)

Lemma well_formed_unique_ids (db : DB.saves) :
  well_formed Save.keyPath_id db -> NoDup (map Save.id db).
Proof.
  intros [Hs _]. induction Hs as [|x db Hs IH Hx]; cbn; constructor.
  - intros Hin. apply in_map_iff in Hin. destruct Hin as (y & Hid & Hy).
    rewrite Forall_forall in Hx.
    destruct (Hx y Hy) as (kx & ky & [= <-] & [= <-] & Hlt).
    rewrite Hid, key_compare_refl in Hlt. discriminate.
  - exact IH.
Qed.

Section WellFormedEngine.
Variable JSON_stringify : json -> string.
Variable LZString : option lzstring.
Variable compression : bool.
Variable gameId : string.

Lemma create_well_formed (w : world) (name : string) (q : option Z)
  (db db' : DB.saves) (res : result unit) :
  well_formed Save.keyPath_id db ->
  SaveManager.create JSON_stringify LZString compression gameId w name q db
  = Some (db', res) ->
  well_formed Save.keyPath_id db'.
Proof.
  intros Hwf. unfold SaveManager.create.
  destruct (SaveManager.capture w) as [e|st]; [now intros [= <- _] |].
  destruct (SaveManager.resolve_name name _) as [nm|]; [| discriminate].
  rewrite created_by_put. intros [= <- _].
  now apply insert_well_formed.
Qed.

Lemma evict_well_formed (s : option Z) (db : DB.saves) :
  well_formed Save.keyPath_id db ->
  well_formed Save.keyPath_id (SaveManager.evict gameId s db).
Proof.
  intros Hwf. rewrite evict_survivors. now apply filter_well_formed.
Qed.

(** [quick()] takes a well-formed store to a well-formed store, so the
    stores reached from the empty store hold one record per id. *)
Lemma quick_well_formed (w : world) (db db' : DB.saves) (res : result unit) :
  well_formed Save.keyPath_id db ->
  SaveManager.quick JSON_stringify LZString compression gameId w db
  = Some (db', res) ->
  well_formed Save.keyPath_id db'.
Proof.
  intros Hwf. unfold SaveManager.quick.
  destruct (SaveManager.target_slot gameId db) as [e|s]; [now intros [= <- _] |].
  apply create_well_formed. now apply evict_well_formed.
Qed.
End WellFormedEngine.

(** * Further properties of the code *)

(** ** The object store: put, get, delete *)

(** X1. A record written with [put] is the one [get] returns under its id,
    and the records under every other id are as before. *)
Theorem put_get_roundtrip (r : Save.t) (db : DB.saves) :
  exists db',
    DB.put_save r db = inr db'
    /\ DB.get_save (Save.id r) db' = Some r
    /\ forall i, i <> Save.id r -> DB.get_save i db' = DB.get_save i db.
Proof.
  eexists. split; [reflexivity | split].
  - unfold DB.get_save. now apply get_insert.
  - intros i Hne. unfold DB.get_save.
    apply get_insert_other; [reflexivity | congruence].
Qed.

Lemma get_filter_other {V : Type} (keyPath_id : V -> option idbkey)
  (k k' : idbkey) (db : list V) :
  k <> k' ->
  DB.get keyPath_id k' (DB.delete keyPath_id k db) = DB.get keyPath_id k' db.
Proof.
  intros Hne. unfold DB.get, DB.delete.
  induction db as [|x db IH]; cbn; [reflexivity |].
  destruct (DB.has_key keyPath_id k x) eqn:Ek; cbn.
  - apply has_key_iff in Ek.
    destruct (DB.has_key keyPath_id k' x) eqn:Ek'; [| exact IH].
    apply has_key_iff in Ek'. congruence.
  - destruct (DB.has_key keyPath_id k' x); [reflexivity | exact IH].
Qed.

Lemma get_delete_same {V : Type} (keyPath_id : V -> option idbkey)
  (k : idbkey) (db : list V) :
  DB.get keyPath_id k (DB.delete keyPath_id k db) = None.
Proof.
  unfold DB.get, DB.delete.
  induction db as [|x db IH]; cbn; [reflexivity |].
  destruct (DB.has_key keyPath_id k x) eqn:Ek; cbn; [exact IH |].
  now rewrite Ek.
Qed.

Lemma delete_absent {V : Type} (keyPath_id : V -> option idbkey)
  (k : idbkey) (db : list V) :
  DB.get keyPath_id k db = None -> DB.delete keyPath_id k db = db.
Proof.
  unfold DB.get, DB.delete.
  induction db as [|x db IH]; cbn; [reflexivity |].
  destruct (DB.has_key keyPath_id k x); cbn; [discriminate |].
  intros H. now rewrite IH.
Qed.

(** X2. After [delete(id)] no record is found under the id, the records
    under other ids are as before, and deleting an id that is not in the
    store (in particular deleting twice) changes nothing. *)
Theorem delete_removes (i : string) (db : DB.saves) :
  DB.get_save i (DB.delete_save i db) = None
  /\ (forall j, j <> i -> DB.get_save j (DB.delete_save i db) = DB.get_save j db)
  /\ (DB.get_save i db = None -> DB.delete_save i db = db)
  /\ DB.delete_save i (DB.delete_save i db) = DB.delete_save i db.
Proof.
  unfold DB.get_save, DB.delete_save. split; [| split; [| split]].
  - apply get_delete_same.
  - intros j Hne. apply get_filter_other. congruence.
  - apply delete_absent.
  - apply delete_absent, get_delete_same.
Qed.

(** ** The listing of a title *)

Lemma Array_sort_ext {A : Type} (c1 c2 : A -> A -> Z) (l : list A) :
  (forall a b, c1 a b = c2 a b) -> Array_sort c1 l = Array_sort c2 l.
Proof.
  intros E. unfold Array_sort.
  induction l as [|x l IH]; cbn [fold_right]; [reflexivity |].
  rewrite IH. generalize (fold_right (sort_insert c2) [] l). intros s.
  induction s as [|y s IHs]; cbn; [reflexivity |].
  now rewrite E, IHs.
Qed.

Lemma StronglySorted_weaken {A : Type} (R S : A -> A -> Prop) (l : list A) :
  (forall a b, R a b -> S a b) -> StronglySorted R l -> StronglySorted S l.
Proof.
  intros HRS. induction 1 as [|x l Hs IH Hx]; constructor; [exact IH |].
  eapply Forall_impl; [| exact Hx]. apply HRS.
Qed.

Lemma list_as_sort (g : string) (db : DB.saves) :
  DB.list g db
  = Array_sort (fun a b => (- Save.ts a) - (- Save.ts b))
      (filter (fun r => (Save.game r =? g)%string) db).
Proof.
  unfold DB.list. rewrite getAll_game_filter.
  apply Array_sort_ext. intros a b. lia.
Qed.

(** X3. [list(g)] returns the records of game [g] and no other, each as
    often as the store holds it, newest first; records with the same
    timestamp come in the order in which the store holds them. *)
Theorem list_newest_first (g : string) (db : DB.saves) :
  (forall r, In r (DB.list g db) <-> In r db /\ Save.game r = g)
  /\ Permutation (DB.list g db) (filter (fun r => (Save.game r =? g)%string) db)
  /\ StronglySorted (fun a b => Save.ts b <= Save.ts a) (DB.list g db)
  /\ forall t,
       filter (fun r => Save.ts r =? t) (DB.list g db)
       = filter (fun r => Save.ts r =? t)
           (filter (fun r => (Save.game r =? g)%string) db).
Proof.
  split; [intros r; apply list_In | split; [apply list_perm | split]].
  - rewrite list_as_sort.
    pose proof (Array_sort_sorted (fun r => - Save.ts r)
                  (filter (fun r => (Save.game r =? g)%string) db)) as Hs.
    eapply StronglySorted_weaken; [| exact Hs].
    cbn. intros a b Hab. lia.
  - intros t. rewrite list_as_sort.
    pose proof (Array_sort_stable (fun r => - Save.ts r) (- t)
                  (filter (fun r => (Save.game r =? g)%string) db)) as Hst.
    assert (Hext : forall l : list Save.t,
               filter (fun r => - Save.ts r =? - t) l
               = filter (fun r => Save.ts r =? t) l).
    { intros l. apply filter_ext. intros r.
      destruct (Z.eqb_spec (Save.ts r) t), (Z.eqb_spec (- Save.ts r) (- t));
        try reflexivity; lia. }
    now rewrite !Hext in Hst.
Qed.

(** ** esc *)

Lemma all_chars_app (p : ascii -> bool) (a b : string) :
  all_chars p (a ++ b) = all_chars p a && all_chars p b.
Proof.
  induction a as [|c a IH]; cbn; [reflexivity |].
  now rewrite IH, andb_assoc.
Qed.

(** What [esc_char] makes of a character: one of the five entities, or the
    character itself when it is none of the five. *)
Lemma esc_char_cases (c : ascii) :
  (c = "&"%char /\ esc_char c = "&amp;")
  \/ (c = "<"%char /\ esc_char c = "&lt;")
  \/ (c = ">"%char /\ esc_char c = "&gt;")
  \/ (c = QUOTE /\ esc_char c = "&quot;")
  \/ (c = "'"%char /\ esc_char c = "&#39;")
  \/ (c <> "&"%char /\ markup_char c = false /\ esc_char c = String c EmptyString).
Proof.
  unfold esc_char, markup_char.
  destruct (Ascii.eqb_spec c "&") as [-> | H1]; [now left |].
  destruct (Ascii.eqb_spec c "<") as [-> | H2]; [right; now left |].
  destruct (Ascii.eqb_spec c ">") as [-> | H3]; [right; right; now left |].
  destruct (Ascii.eqb_spec c QUOTE) as [-> | H4];
    [right; right; right; now left |].
  destruct (Ascii.eqb_spec c "'") as [-> | H5];
    [right; right; right; right; now left |].
  repeat right. auto.
Qed.

(** X4. The text [esc] produces contains none of the characters
    [<], [>], double quote and single quote, whatever the input; and a text
    without these and without [&] is left as it is. *)
Theorem esc_no_markup (s : option string) :
  all_chars (fun c => negb (markup_char c)) (esc s) = true
  /\ (forall t, s = Some t ->
        all_chars (fun c => negb (markup_char c) && negb (Ascii.eqb c "&")) t = true ->
        esc s = t).
Proof.
  unfold esc. split.
  - generalize (match s with Some t => t | None => "" end). intros t.
    induction t as [|c t IH]; [reflexivity |].
    cbn [replace_chars]. rewrite all_chars_app, IH, andb_true_r.
    destruct (esc_char_cases c)
      as [[_ ->] | [[_ ->] | [[_ ->] | [[_ ->] | [[_ ->] | (_ & Hm & ->)]]]]];
      try reflexivity.
    cbn. now rewrite Hm.
  - intros t -> Hsafe. induction t as [|c t IH]; [reflexivity |].
    cbn in Hsafe. apply andb_true_iff in Hsafe. destruct Hsafe as [Hc Ht].
    apply andb_true_iff in Hc. destruct Hc as [Hm Ha].
    cbn [replace_chars]. rewrite (IH Ht).
    destruct (esc_char_cases c)
      as [[-> _] | [[-> _] | [[-> _] | [[-> _] | [[-> _] | (_ & _ & ->)]]]]];
      try discriminate; reflexivity.
Qed.

(** X5. [esc] loses nothing: two different texts never escape to the same
    text. *)
Theorem esc_injective (a b : string) :
  esc (Some a) = esc (Some b) -> a = b.
Proof.
  unfold esc. revert b. induction a as [|x a IH]; intros [|y b] H.
  - reflexivity.
  - cbn in H.
    destruct (esc_char_cases y)
      as [[_ E] | [[_ E] | [[_ E] | [[_ E] | [[_ E] | (_ & _ & E)]]]]];
      rewrite E in H; discriminate.
  - cbn in H.
    destruct (esc_char_cases x)
      as [[_ E] | [[_ E] | [[_ E] | [[_ E] | [[_ E] | (_ & _ & E)]]]]];
      rewrite E in H; discriminate.
  - cbn [replace_chars] in H.
    destruct (esc_char_cases x)
      as [[-> Ex] | [[-> Ex] | [[-> Ex] | [[-> Ex] | [[-> Ex] | (Hx & Hmx & Ex)]]]]];
    destruct (esc_char_cases y)
      as [[-> Ey] | [[-> Ey] | [[-> Ey] | [[-> Ey] | [[-> Ey] | (Hy & Hmy & Ey)]]]]];
    rewrite ?Ex, ?Ey in H; cbn in H;
    try (injection H as H; f_equal; now apply IH);
    try discriminate H;
    try (injection H as H0 H; congruence).
    injection H as -> H. f_equal. now apply IH.
Qed.

(** ** toast *)

Lemma drop_oldest_skipn (children : list string) :
  drop_oldest children = skipn (List.length children - 4) children.
Proof.
  induction children as [|x rest IH]; [reflexivity |].
  cbn [drop_oldest]. destruct (Nat.leb_spec 5 (List.length (x :: rest))) as [H | H];
    cbn [List.length] in *.
  - rewrite IH. replace (S (List.length rest) - 4)%nat
      with (S (List.length rest - 4)) by lia. reflexivity.
  - replace (S (List.length rest) - 4)%nat with 0%nat by lia. reflexivity.
Qed.

Lemma esc_injective_witness :
  esc (Some "a<b") = esc (Some "a<b") /\ "a<b" = "a<b".
Proof.
  split; [reflexivity | apply (esc_injective "a<b" "a<b"); reflexivity].
Defined.

(** X6. After [toast(m)] the host shows at most five toasts: the new one
    last, preceded by the (at most four) most recent of those shown
    before. *)
Theorem toast_at_most_five (m : string) (children : list string) :
  toast m children
  = (skipn (List.length children - 4) children ++ [m])%list
  /\ List.length (toast m children) = S (Nat.min (List.length children) 4)
  /\ (List.length (toast m children) <= 5)%nat.
Proof.
  unfold toast. rewrite drop_oldest_skipn.
  split; [reflexivity |].
  rewrite length_app, length_skipn. cbn. lia.
Qed.

(** ** gameSlug and gameId *)

Lemma replace_chars_single (f : ascii -> ascii) (p : ascii -> bool) (s : string) :
  (forall c, p (f c) = true) ->
  all_chars p (replace_chars (fun c => String (f c) EmptyString) s) = true.
Proof.
  intros Hp. induction s as [|c s IH]; [reflexivity |].
  cbn. now rewrite Hp, IH.
Qed.

Lemma last_nonempty (l : list string) (d : string) :
  d <> "" -> Forall (fun x => x <> "") l -> last l d <> "".
Proof.
  intros Hd Hl. induction Hl as [|x l Hx Hl IH]; [exact Hd |].
  cbn. destruct l; [exact Hx | exact IH].
Qed.

(** X7. [gameSlug()] is never empty and contains none of the characters
    that [/[<>:...|?*]/] lists, whatever the path of the page. *)
Theorem gameSlug_file_name (pg : page) :
  gameSlug pg <> ""
  /\ all_chars (fun c => negb (forbidden c)) (gameSlug pg) = true.
Proof.
  unfold gameSlug.
  set (piece := last _ "game").
  assert (Hpiece : piece <> "").
  { apply last_nonempty; [discriminate |].
    apply Forall_forall. intros x Hx. apply filter_In in Hx.
    destruct Hx as [_ Hx]. apply negb_true_iff, String.eqb_neq in Hx. exact Hx. }
  assert (Hshape : forall s,
             replace_chars (fun c => if forbidden c then "_"
                                     else String c EmptyString) s
             = replace_chars (fun c => String (if forbidden c then "_"%char else c)
                                              EmptyString) s).
  { induction s as [|c s IH]; [reflexivity |].
    cbn [replace_chars]. rewrite IH. now destruct (forbidden c). }
  rewrite Hshape. split.
  - destruct piece; [contradiction | discriminate].
  - apply replace_chars_single. intros c.
    destruct (forbidden c) eqn:E; [reflexivity | now rewrite E].
Qed.

Lemma lower_of_alnum (c : ascii) :
  alnum c = true -> lower_alnum (lower_char c) = true.
Proof.
  destruct c as [[] [] [] [] [] [] [] []]; vm_compute;
    intros H; try reflexivity; discriminate H.
Qed.

Lemma split_head_clean (sep : ascii) (s : string) :
  all_chars (fun c => negb (Ascii.eqb c sep)) (hd EmptyString (split sep s)) = true.
Proof.
  induction s as [|c s IH]; [reflexivity |].
  cbn [split]. destruct (Ascii.eqb c sep) eqn:E; [reflexivity |].
  destruct (split sep s) as [|piece pieces]; cbn in *; now rewrite E.
Qed.

Lemma all_chars_weaken (p q : ascii -> bool) (s : string) :
  (forall c, p c = true -> q c = true) ->
  all_chars p s = true -> all_chars q s = true.
Proof.
  intros Hpq. induction s as [|c s IH]; [reflexivity |]. cbn.
  intros H. apply andb_true_iff in H. destruct H as [Hc Hs].
  now rewrite (Hpq c Hc), IH.
Qed.

Lemma split_head_sub (sep : ascii) (p : ascii -> bool) (s : string) :
  all_chars p s = true -> all_chars p (hd EmptyString (split sep s)) = true.
Proof.
  induction s as [|c s IH]; [reflexivity |]. cbn [split all_chars].
  intros H. apply andb_true_iff in H. destruct H as [Hc Hs].
  destruct (Ascii.eqb c sep); [reflexivity |].
  specialize (IH Hs).
  destruct (split sep s) as [|piece pieces]; cbn in *; now rewrite Hc.
Qed.

(** X8. Without a store name, [gameId()] on an itch.zone host is never
    empty and is made of lowercase letters and digits, unless it is the
    fixed name for pages without a usable title; on any other host it
    contains neither [?] nor [#]. *)
Theorem gameId_shape (pg : page) :
  storeName pg = None ->
  (includes "itch.zone" (hostname pg) = true ->
   gameId pg <> ""
   /\ (gameId pg = "unknown_itch_game"
       \/ all_chars lower_alnum (gameId pg) = true))
  /\ (includes "itch.zone" (hostname pg) = false ->
      all_chars (fun c => negb (Ascii.eqb c "?") && negb (Ascii.eqb c "#"))
                (gameId pg) = true).
Proof.
  intros Hstore. unfold gameId. rewrite Hstore. split; intros Hhost; rewrite Hhost.
  - set (t := toLowerCase _).
    destruct (String.eqb_spec t "") as [E | E]; [split; [discriminate | now left] |].
    split; [exact E | right]. subst t.
    generalize (title pg). intros s.
    induction s as [|c s IH]; [reflexivity |].
    cbn [replace_chars]. destruct (alnum c) eqn:Ec; cbn; [| exact IH].
    now rewrite (lower_of_alnum c Ec), IH.
  - set (path := drop_final_slash (pathname pg)).
    assert (H1 : all_chars (fun c => negb (Ascii.eqb c "?"))
                   (hd EmptyString (split "?" path)) = true)
      by apply split_head_clean.
    assert (H2 : all_chars (fun c => negb (Ascii.eqb c "?"))
                   (hd EmptyString (split "#" (hd EmptyString (split "?" path))))
                 = true)
      by now apply split_head_sub.
    pose proof (split_head_clean "#" (hd EmptyString (split "?" path))) as H3.
    revert H2 H3. generalize (hd EmptyString (split "#" (hd EmptyString (split "?" path)))).
    intros s. induction s as [|c s IH]; [reflexivity |]. cbn.
    intros Ha Hb. apply andb_true_iff in Ha, Hb.
    destruct Ha as [Ha1 Ha2], Hb as [Hb1 Hb2].
    now rewrite Ha1, Hb1, IH.
Qed.

Lemma gameId_shape_witness :
  let pg := {| storeName := None; hostname := "html-classic.itch.zone";
               title := "My Game! 2"; pathname := "/html/123/index.html" |} in
  storeName pg = None /\ gameId pg = "mygame2".
Proof.
  cbn zeta. split; [reflexivity |].
  destruct (gameId_shape
              {| storeName := None; hostname := "html-classic.itch.zone";
                 title := "My Game! 2"; pathname := "/html/123/index.html" |}
              eq_refl) as [Hitch _].
  destruct (Hitch eq_refl) as [_ _]. reflexivity.
Defined.

(** ** Settings *)

(** X9. Whatever local storage holds, the settings the script starts with
    have one of the four known button positions; they are the built-in
    defaults when storage cannot be read, when its text does not parse or
    parses to [null]; and a stored compression flag of [false] is kept. *)
Theorem read_settings_sound (JSON_parse : string -> result json)
  (getItem : result (option string)) :
  known_position
    (Settings.position (Settings.btns (read_settings JSON_parse getItem))) = true
  /\ (forall e, getItem = inl e -> read_settings JSON_parse getItem = defOpts)
  /\ (forall stored,
        getItem = inr stored ->
        (exists e, JSON_parse (stored_text stored) = inl e)
        \/ JSON_parse (stored_text stored) = inr JNull ->
        read_settings JSON_parse getItem = defOpts)
  /\ (forall stored fields,
        getItem = inr stored ->
        JSON_parse (stored_text stored) = inr (JObj fields) ->
        assoc "compression" fields = Some (JBool false) ->
        Settings.compression (read_settings JSON_parse getItem) = JBool false).
Proof.
  split; [| split; [| split]].
  - unfold read_settings.
    match goal with
    | |- context [if known_position ?p then ?a else ?b] =>
        destruct (known_position p) eqn:E; [exact E | reflexivity]
    end.
  - intros e ->. reflexivity.
  - intros stored -> H. unfold read_settings. fold (stored_text stored).
    destruct H as [[e ->] | ->]; reflexivity.
  - intros stored fields -> Hp Hc. unfold read_settings.
    fold (stored_text stored). rewrite Hp. cbn [prop]. rewrite Hc.
    match goal with
    | |- context [if ?c then _ else _] => destruct c; reflexivity
    end.
Qed.

(** ** Bootstrap *)

Lemma boot_run_shape (apis : list bool) :
  forall k,
    0 <= k <= 100 ->
    exists n,
      (n <= Z.to_nat (100 - k))%nat
      /\ (boot_run apis {| didBoot := false; bootTries := k |} = repeat Retry n
          \/ boot_run apis {| didBoot := false; bootTries := k |}
             = (repeat Retry n ++ [Idle])%list
          \/ boot_run apis {| didBoot := false; bootTries := k |}
             = (repeat Retry n ++ [Inject])%list).
Proof.
  induction apis as [|api rest IH]; intros k Hk.
  - exists 0%nat. split; [lia | now left].
  - destruct api; cbn [boot_run boot didBoot bootTries negb].
    + exists 0%nat. split; [lia | right; now right].
    + destruct (Z.ltb_spec k 100) as [Hlt | Hge].
      * destruct (IH (k + 1)) as (n & Hn & Hshape); [lia |].
        exists (S n). split; [lia |].
        destruct Hshape as [-> | [-> | ->]]; cbn; auto.
      * exists 0%nat. split; [lia | right; now left].
Qed.

Lemma boot_run_gives_up (apis : list bool) :
  forall k,
    0 <= k <= 100 ->
    (Z.to_nat (101 - k) <= List.length apis)%nat ->
    Forall (fun api => api = false) (firstn (Z.to_nat (101 - k)) apis) ->
    boot_run apis {| didBoot := false; bootTries := k |}
    = (repeat Retry (Z.to_nat (100 - k)) ++ [Idle])%list.
Proof.
  induction apis as [|api rest IH]; intros k Hk Hlen Hall.
  - cbn [List.length] in Hlen. lia.
  - replace (Z.to_nat (101 - k)) with (S (Z.to_nat (100 - k))) in * by lia.
    cbn [firstn] in Hall. apply Forall_cons_iff in Hall.
    destruct Hall as [-> Hall]. cbn [List.length] in Hlen.
    cbn [boot_run boot didBoot bootTries negb].
    destruct (Z.ltb_spec k 100) as [Hlt | Hge].
    + replace (Z.to_nat (100 - k)) with (S (Z.to_nat (100 - (k + 1)))) in * by lia.
      cbn [repeat app]. f_equal. apply IH; [lia | |].
      * replace (Z.to_nat (101 - (k + 1))) with (S (Z.to_nat (100 - (k + 1))))
          by lia. lia.
      * replace (Z.to_nat (101 - (k + 1))) with (S (Z.to_nat (100 - (k + 1))))
          by lia. exact Hall.
    + replace (Z.to_nat (100 - k)) with 0%nat by lia. reflexivity.
Qed.

(** X10. From the start of the script, the calls of [boot()] that follow
    one another through the timer are at most 100 retries, ended by nothing
    more, by a call that gives up, or by the one call that adds the
    controls to the page; if the game is not found in the first 101 calls,
    there are exactly 100 retries and then nothing. *)
Theorem boot_retries_bounded (apis : list bool) :
  (exists n,
      (n <= 100)%nat
      /\ (boot_run apis boot_start = repeat Retry n
          \/ boot_run apis boot_start = (repeat Retry n ++ [Idle])%list
          \/ boot_run apis boot_start = (repeat Retry n ++ [Inject])%list))
  /\ ((101 <= List.length apis)%nat ->
      Forall (fun api => api = false) (firstn 101 apis) ->
      boot_run apis boot_start = (repeat Retry 100 ++ [Idle])%list).
Proof.
  split.
  - destruct (boot_run_shape apis 0) as (n & Hn & H); [lia |].
    exists n. split; [exact Hn | exact H].
  - intros Hlen Hall. apply (boot_run_gives_up apis 0); [lia | exact Hlen | exact Hall].
Qed.

(** ** Well-formed stores, continued *)

Section WellFormedFacts.
Context {V : Type}.
Variable keyPath_id : V -> option idbkey.

Lemma well_formed_tail (x : V) (db : list V) :
  well_formed keyPath_id (x :: db) -> well_formed keyPath_id db.
Proof.
  intros [Hs Hk]. apply StronglySorted_inv in Hs.
  apply Forall_cons_iff in Hk. split; tauto.
Qed.

Lemma well_formed_head (x : V) (db : list V) :
  well_formed keyPath_id (x :: db) ->
  exists kx, keyPath_id x = Some kx
             /\ forall y, In y db ->
                  exists ky, keyPath_id y = Some ky /\ key_compare kx ky = Lt.
Proof.
  intros [Hs Hk]. apply StronglySorted_inv in Hs. destruct Hs as [_ Hx].
  apply Forall_cons_iff in Hk. destruct Hk as [Hkx _].
  destruct (keyPath_id x) as [kx|] eqn:Ex; [| contradiction].
  exists kx. split; [reflexivity |]. intros y Hy.
  rewrite Forall_forall in Hx. destruct (Hx y Hy) as (k1 & k2 & H1 & H2 & H3).
  rewrite Ex in H1. injection H1 as <-. now exists k2.
Qed.

(** In a well-formed store a record is the one found under its key. *)
Lemma get_member (x : V) (k : idbkey) (db : list V) :
  well_formed keyPath_id db -> In x db -> keyPath_id x = Some k ->
  DB.get keyPath_id k db = Some x.
Proof.
  intros Hwf Hin Hk. unfold DB.get.
  induction db as [|y db IH]; [destruct Hin |].
  destruct (well_formed_head y db Hwf) as (ky & Ey & Hlt).
  cbn. destruct Hin as [-> | Hin].
  - now rewrite (has_key_own keyPath_id k x Hk).
  - destruct (Hlt x Hin) as (kx & Ex & Hc).
    assert (kx = k) by congruence. subst kx.
    unfold DB.has_key at 1. rewrite Ey. unfold key_eqb. rewrite Hc.
    apply IH; [now apply well_formed_tail with y | exact Hin].
Qed.

(** Writing under the key of a stored record replaces that record in
    place. *)
Lemma insert_replaces (x o : V) (k : idbkey) (db : list V) :
  well_formed keyPath_id db -> In x db -> keyPath_id x = Some k ->
  exists l1 l2,
    db = (l1 ++ x :: l2)%list
    /\ DB.insert keyPath_id k o db = (l1 ++ o :: l2)%list.
Proof.
  intros Hwf Hin Hk.
  induction db as [|y db IH]; [destruct Hin |].
  destruct (well_formed_head y db Hwf) as (ky & Ey & Hlt).
  cbn [DB.insert]. rewrite Ey. destruct Hin as [-> | Hin].
  - assert (ky = k) by congruence. subst ky. rewrite key_compare_refl.
    now exists [], db.
  - destruct (Hlt x Hin) as (kx & Ex & Hc).
    assert (kx = k) by congruence. subst kx.
    rewrite (key_compare_antisym k ky), Hc. cbn [CompOpp].
    destruct IH as (l1 & l2 & -> & ->);
      [now apply well_formed_tail with y | exact Hin |].
    now exists (y :: l1), l2.
Qed.

(** Two well-formed stores that answer every [get] alike are the same. *)
Lemma well_formed_ext (db1 db2 : list V) :
  well_formed keyPath_id db1 -> well_formed keyPath_id db2 ->
  (forall k, DB.get keyPath_id k db1 = DB.get keyPath_id k db2) ->
  db1 = db2.
Proof.
  revert db2. induction db1 as [|x db1 IH]; intros [|y db2] H1 H2 Hget.
  - reflexivity.
  - destruct (well_formed_head y db2 H2) as (ky & Ey & _).
    specialize (Hget ky). rewrite (get_member y ky (y :: db2) H2) in Hget;
      [discriminate | now left | exact Ey].
  - destruct (well_formed_head x db1 H1) as (kx & Ex & _).
    specialize (Hget kx). rewrite (get_member x kx (x :: db1) H1) in Hget;
      [discriminate | now left | exact Ex].
  - destruct (well_formed_head x db1 H1) as (kx & Ex & Hx).
    destruct (well_formed_head y db2 H2) as (ky & Ey & Hy).
    assert (Gx : DB.get keyPath_id kx (y :: db2) = Some x).
    { rewrite <- Hget. apply get_member; [exact H1 | now left | exact Ex]. }
    assert (Gy : DB.get keyPath_id ky (x :: db1) = Some y).
    { rewrite Hget. apply get_member; [exact H2 | now left | exact Ey]. }
    assert (Hxy : x = y).
    { apply find_some in Gx, Gy. destruct Gx as [[<- | Inx] _]; [reflexivity |].
      destruct Gy as [[-> | Iny] _]; [reflexivity |].
      destruct (Hy x Inx) as (k1 & E1 & C1). destruct (Hx y Iny) as (k2 & E2 & C2).
      assert (k1 = kx) by congruence. assert (k2 = ky) by congruence. subst.
      pose proof (key_compare_trans ky kx ky C1 C2) as Hbad.
      rewrite key_compare_refl in Hbad. discriminate. }
    subst y. f_equal.
    assert (ky = kx) by congruence. subst ky.
    apply IH; [now apply well_formed_tail with x | now apply well_formed_tail with x |].
    intros k. specialize (Hget k). unfold DB.get in *. cbn in Hget.
    destruct (DB.has_key keyPath_id k x) eqn:Ek; [| exact Hget].
    apply has_key_iff in Ek. assert (k = kx) by congruence. subst k.
    assert (Hnone : forall db, (forall z, In z db ->
                       exists kz, keyPath_id z = Some kz /\ key_compare kx kz = Lt) ->
                     find (DB.has_key keyPath_id kx) db = None).
    { intros db H. destruct (find _ db) as [z|] eqn:F; [| reflexivity].
      apply find_some in F. destruct F as [Inz Hz].
      destruct (H z Inz) as (kz & Ez & Cz). apply has_key_iff in Hz.
      assert (kz = kx) by congruence. subst kz.
      rewrite key_compare_refl in Cz. discriminate. }
    now rewrite (Hnone db1 Hx), (Hnone db2 Hy).
Qed.
End WellFormedFacts.

Lemma well_formed_empty {V : Type} (keyPath_id : V -> option idbkey) :
  well_formed keyPath_id [].
Proof. split; constructor. Qed.

(** X11. [put] and [delete] keep the object store well formed (every
    record under a valid key, keys strictly ascending), so a store built
    by them holds at most one record per id, and each stored record is the
    one [get] finds under its id. *)
Theorem store_stays_well_formed (r : Save.t) (i : string) (db : DB.saves) :
  well_formed Save.keyPath_id db ->
  (exists db', DB.put_save r db = inr db' /\ well_formed Save.keyPath_id db')
  /\ well_formed Save.keyPath_id (DB.delete_save i db)
  /\ NoDup (map Save.id db)
  /\ forall x, In x db -> DB.get_save (Save.id x) db = Some x.
Proof.
  intros Hwf. split; [| split; [| split]].
  - eexists. split; [reflexivity |]. now apply insert_well_formed.
  - now apply delete_well_formed.
  - now apply well_formed_unique_ids.
  - intros x Hx. unfold DB.get_save. now apply get_member.
Qed.

Lemma store_stays_well_formed_witness :
  let a := manual_save "a" "/game" "Save 1" 10 in
  let b := quick_save "b" "/game" 1 20 in
  well_formed Save.keyPath_id [a; b]
  /\ NoDup (map Save.id [a; b])
  /\ DB.get_save "b" [a; b] = Some b.
Proof.
  cbn zeta.
  set (a := manual_save "a" "/game" "Save 1" 10).
  set (b := quick_save "b" "/game" 1 20).
  assert (Hwf : well_formed Save.keyPath_id [a; b]).
  { change [a; b]
      with (DB.insert Save.keyPath_id (KStr "b") b
              (DB.insert Save.keyPath_id (KStr "a") a [])).
    apply insert_well_formed; [reflexivity |].
    apply insert_well_formed; [reflexivity |].
    apply well_formed_empty. }
  split; [exact Hwf |].
  destruct (store_stays_well_formed a "a" [a; b] Hwf) as (_ & _ & Hnd & Hget).
  split; [exact Hnd |].
  apply (Hget b). right. now left.
Defined.

(** ** Renaming and deleting from the dialog *)

Lemma get_save_found (rid : string) (db : DB.saves) (obj : Save.t) :
  DB.get_save rid db = Some obj -> In obj db /\ Save.id obj = rid.
Proof.
  unfold DB.get_save, DB.get. intros H. apply find_some in H.
  destruct H as [Hin Hk]. split; [exact Hin |].
  apply has_key_iff in Hk. now injection Hk.
Qed.

(** X12. Renaming replaces the record in place by one that differs in its
    name only; the name is the trimmed text, or "Unnamed Save" when that is
    blank, and never empty; every other record keeps its place. Renaming
    an id that is not in the store changes nothing. *)
Theorem rename_changes_name_only (rid value : string) (db : DB.saves) :
  well_formed Save.keyPath_id db ->
  (forall obj,
      DB.get_save rid db = Some obj ->
      exists obj' l1 l2,
        db = (l1 ++ obj :: l2)%list
        /\ Modal.rename rid value db = inr (l1 ++ obj' :: l2)%list
        /\ Save.name obj' = (if (trim value =? "")%string then "Unnamed Save"
                             else trim value)
        /\ Save.name obj' <> ""
        /\ Save.id obj' = Save.id obj
        /\ Save.game obj' = Save.game obj
        /\ Save.quick obj' = Save.quick obj
        /\ Save.ts obj' = Save.ts obj
        /\ Meta.scene (Save.meta obj') = Meta.scene (Save.meta obj)
        /\ Meta.fmt (Save.meta obj') = Meta.fmt (Save.meta obj)
        /\ Save.payload obj' = Save.payload obj)
  /\ (DB.get_save rid db = None -> Modal.rename rid value db = inr db).
Proof.
  intros Hwf. split.
  - intros obj Hget. destruct (get_save_found rid db obj Hget) as [Hin Hid].
    unfold Modal.rename. rewrite Hget.
    match goal with
    | |- context [DB.put_save ?o db] => set (obj' := o)
    end.
    destruct (insert_replaces Save.keyPath_id obj obj' (KStr (Save.id obj)) db
                Hwf Hin eq_refl) as (l1 & l2 & Hdb & Hins).
    exists obj', l1, l2. split; [exact Hdb |].
    split; [unfold DB.put_save, DB.put; cbn; now rewrite <- Hins |].
    split; [reflexivity |].
    split; [| repeat split].
    subst obj'. unfold Save.name. cbn.
    destruct (String.eqb_spec (trim value) ""); [discriminate | assumption].
  - intros Hnone. unfold Modal.rename. now rewrite Hnone.
Qed.

Lemma rename_changes_name_only_witness :
  let a := manual_save "a" "/game" "Save 1" 10 in
  let b := quick_save "b" "/game" 1 20 in
  well_formed Save.keyPath_id [a; b]
  /\ exists b' l1 l2,
       [a; b] = (l1 ++ b :: l2)%list
       /\ Modal.rename "b" "  before the duel " [a; b] = inr (l1 ++ b' :: l2)%list
       /\ Save.name b' = "before the duel"
       /\ Save.quick b' = Some 1.
Proof.
  cbn zeta.
  set (a := manual_save "a" "/game" "Save 1" 10).
  set (b := quick_save "b" "/game" 1 20).
  assert (Hwf : well_formed Save.keyPath_id [a; b]).
  { change [a; b]
      with (DB.insert Save.keyPath_id (KStr "b") b
              (DB.insert Save.keyPath_id (KStr "a") a [])).
    apply insert_well_formed; [reflexivity |].
    apply insert_well_formed; [reflexivity |].
    apply well_formed_empty. }
  split; [exact Hwf |].
  destruct (rename_changes_name_only "b" "  before the duel " [a; b] Hwf)
    as [Hfound _].
  destruct (Hfound b eq_refl)
    as (b' & l1 & l2 & Hdb & Hren & Hname & _ & _ & _ & Hq & _).
  exists b', l1, l2.
  split; [exact Hdb | split; [exact Hren | split; [| exact Hq]]].
  rewrite Hname. reflexivity.
Defined.

Lemma delete_selected_filter (sel : list string) (db : DB.saves) :
  Modal.delete_selected sel db
  = filter (fun r => negb (existsb (String.eqb (Save.id r)) sel)) db.
Proof.
  unfold Modal.delete_selected. revert db.
  induction sel as [|i sel IH]; intros db; cbn [fold_left existsb].
  - symmetry. now apply filter_all.
  - rewrite IH. unfold DB.delete_save, DB.delete. rewrite filter_both.
    apply filter_ext. intros r. rewrite negb_orb. f_equal. f_equal.
    unfold DB.has_key. cbn.
    destruct (String.eqb_spec (Save.id r) i) as [-> | Hne].
    + apply key_eqb_refl.
    + destruct (key_eqb _ _) eqn:K; [| reflexivity].
      apply key_eqb_eq in K. congruence.
Qed.

(** X13. "Delete selected" removes exactly the records whose id is
    selected: the others stay, in their order, and none of the selected ids
    is found afterwards. *)
Theorem delete_selected_exact (sel : list string) (db : DB.saves) :
  Modal.delete_selected sel db
  = filter (fun r => negb (existsb (String.eqb (Save.id r)) sel)) db
  /\ (forall r, In r (Modal.delete_selected sel db)
                <-> In r db /\ ~ In (Save.id r) sel)
  /\ (forall i, In i sel -> DB.get_save i (Modal.delete_selected sel db) = None).
Proof.
  split; [apply delete_selected_filter |].
  assert (Hmem : forall r, In r (Modal.delete_selected sel db)
                           <-> In r db /\ ~ In (Save.id r) sel).
  { intros r. rewrite delete_selected_filter, filter_In, negb_true_iff.
    split; intros [Hin Hsel]; (split; [exact Hin |]).
    - intros Hi. assert (E : existsb (String.eqb (Save.id r)) sel = true).
      { apply existsb_exists. exists (Save.id r). split; [exact Hi | apply String.eqb_refl]. }
      congruence.
    - apply not_true_is_false. intros E. apply existsb_exists in E.
      destruct E as (j & Hj & Ej). apply String.eqb_eq in Ej. now subst j. }
  split; [exact Hmem |].
  intros i Hi. destruct (DB.get_save i _) as [r|] eqn:G; [| reflexivity].
  apply get_save_found in G. destruct G as [Hin Hid].
  apply Hmem in Hin. destruct Hin as [_ Hn]. subst i. contradiction.
Qed.

(** ** Slot exclusivity under every action of the page *)

Section ActionFacts.
Variable JSON_stringify : json -> string.
Variable LZString : option lzstring.
Variable compression : bool.
Variable gameId : string.

Lemma filter_slot_invariant (f : Save.t -> bool) (db : DB.saves) :
  slot_invariant gameId db -> slot_invariant gameId (filter f db).
Proof.
  intros [Hnd Hlen]. unfold slot_invariant, slots, quick_records in *.
  rewrite (filter_comm (is_quick_of gameId) f db). split.
  - now apply NoDup_map_filter.
  - pose proof (filter_length_le f (filter (is_quick_of gameId) db)). lia.
Qed.

Lemma insert_manual_invariant (o : Save.t) (db : DB.saves) :
  is_quick_of gameId o = false ->
  slot_invariant gameId db ->
  slot_invariant gameId (DB.insert Save.keyPath_id (KStr (Save.id o)) o db).
Proof.
  intros Hq [Hnd Hlen]. unfold slot_invariant, slots in *.
  destruct (quick_records_insert gameId o db) as (l1 & l2 & -> & Hdb).
  rewrite Hq. cbn [app].
  destruct Hdb as [E | (x & E & _)]; rewrite E in *.
  - split; assumption.
  - rewrite map_app in *. cbn [map] in Hnd. split.
    + now apply NoDup_remove_1 in Hnd.
    + rewrite length_app in *. cbn [List.length] in Hlen. lia.
Qed.

Lemma replace_same_slot (obj obj' : Save.t) (l1 l2 : list Save.t) :
  Save.game obj' = Save.game obj -> Save.quick obj' = Save.quick obj ->
  slots gameId (l1 ++ obj' :: l2)%list = slots gameId (l1 ++ obj :: l2)%list
  /\ List.length (quick_records gameId (l1 ++ obj' :: l2)%list)
     = List.length (quick_records gameId (l1 ++ obj :: l2)%list).
Proof.
  intros Hg Hq. unfold slots, quick_records.
  rewrite !filter_app. cbn [filter].
  assert (E : is_quick_of gameId obj' = is_quick_of gameId obj)
    by (unfold is_quick_of, has_slot; now rewrite Hg, Hq).
  rewrite E. destruct (is_quick_of gameId obj).
  - rewrite !map_app, !length_app. cbn. now rewrite Hq.
  - split; reflexivity.
Qed.

Lemma act_keeps_invariant (a : action) (db db' : DB.saves) :
  well_formed Save.keyPath_id db ->
  slot_invariant gameId db ->
  act JSON_stringify LZString compression gameId a db = Some db' ->
  well_formed Save.keyPath_id db' /\ slot_invariant gameId db'.
Proof.
  intros Hwf Hinv. destruct a as [w name | w | rid value | rid | sel]; cbn [act].
  - destruct (SaveManager.create _ _ _ _ w name None db) as [[d res]|] eqn:E;
      [| discriminate]. cbn. intros [= <-].
    split; [exact (create_well_formed JSON_stringify LZString compression gameId
                     w name None db d res Hwf E) |].
    unfold SaveManager.create in E.
    destruct (SaveManager.capture w) as [e|st]; [now injection E as <- _ |].
    destruct (SaveManager.resolve_name name _) as [nm|]; [| discriminate].
    rewrite created_by_put in E. injection E as <- _.
    apply (insert_manual_invariant
             (SaveManager.new_record JSON_stringify LZString compression gameId
                w nm None st)); [| exact Hinv].
    unfold is_quick_of, has_slot. cbn. apply andb_false_r.
  - destruct (SaveManager.quick _ _ _ _ w db) as [[d res]|] eqn:E;
      [| discriminate]. cbn. intros [= <-].
    split; [exact (quick_well_formed JSON_stringify LZString compression gameId
                     w db d res Hwf E) |].
    destruct (quick_preserves_invariant JSON_stringify LZString compression
                gameId w db Hinv) as (d' & res' & E' & Hinv').
    rewrite E in E'. now injection E' as <- _.
  - destruct (DB.get_save rid db) as [obj|] eqn:G.
    + destruct (rename_changes_name_only rid value db Hwf) as [Hfound _].
      destruct (Hfound obj G)
        as (obj' & l1 & l2 & Hdb & Hren & _ & _ & _ & Hg & Hq & _).
      rewrite Hren. intros [= <-]. split.
      * unfold Modal.rename in Hren. rewrite G in Hren.
        unfold DB.put_save, DB.put in Hren. cbn in Hren.
        injection Hren as <-. now apply insert_well_formed.
      * destruct (replace_same_slot obj obj' l1 l2 Hg Hq) as [Hs Hl].
        destruct Hinv as [Hnd Hlen]. rewrite Hdb in Hnd, Hlen.
        split; [now rewrite Hs | now rewrite Hl].
    + unfold Modal.rename. rewrite G. intros [= <-]. now split.
  - intros [= <-]. split; [now apply delete_well_formed |].
    unfold DB.delete_save, DB.delete. now apply filter_slot_invariant.
  - intros [= <-]. rewrite delete_selected_filter. split.
    + now apply filter_well_formed.
    + now apply filter_slot_invariant.
Qed.

(** X14. Saving, quick saving, renaming and deleting, in any order and
    whether or not single steps fail, take a well-formed store in which the
    title's quick records hold distinct slots and number at most five to a
    store of the same kind. *)
Theorem actions_keep_slot_exclusivity (actions : list action) (db db' : DB.saves) :
  well_formed Save.keyPath_id db ->
  slot_invariant gameId db ->
  act_all JSON_stringify LZString compression gameId actions db = Some db' ->
  well_formed Save.keyPath_id db' /\ slot_invariant gameId db'.
Proof.
  revert db. induction actions as [|a rest IH]; intros db Hwf Hinv; cbn.
  - intros [= <-]. now split.
  - destruct (act _ _ _ _ a db) as [d|] eqn:E; [| discriminate].
    destruct (act_keeps_invariant a db d Hwf Hinv E) as [Hwf' Hinv'].
    now apply IH.
Qed.
End ActionFacts.

Lemma actions_keep_slot_exclusivity_witness :
  let actions :=
    [DoQuick (sample_world 1 "a"); DoCreate (sample_world 2 "b") "";
     DoQuick (sample_world 3 "c"); DoRename "/game_1_a" "first";
     DoQuick (sample_world 4 "d"); DoDelete "/game_3_c";
     DoQuick (sample_world 5 "e"); DoQuick (sample_world 6 "f");
     DoQuick (sample_world 7 "g"); DoQuick (sample_world 8 "h");
     DoDeleteSelected ["/game_2_b"; "/game_5_e"]] in
  exists db',
    act_all sample_stringify None true "/game" actions [] = Some db'
    /\ map Save.quick db' = [Some 3; Some 4; Some 5; Some 1]
    /\ well_formed Save.keyPath_id db'
    /\ slot_invariant "/game" db'.
Proof.
  cbn zeta.
  destruct (act_all sample_stringify None true "/game" _ []) as [db'|] eqn:E.
  - exists db'. split; [reflexivity |]. split.
    + pose proof E as E2. vm_compute in E2. injection E2 as <-. reflexivity.
    + exact (actions_keep_slot_exclusivity sample_stringify None true "/game"
               _ [] db' (well_formed_empty Save.keyPath_id)
               (no_quick_records_invariant "/game" [] eq_refl) E).
  - vm_compute in E. discriminate E.
Defined.

(** ** Quick saves: failure and the other records *)

Lemma full_store_well_formed : well_formed Save.keyPath_id full_store.
Proof.
  change full_store
    with (DB.insert Save.keyPath_id (KStr "x1") (quick_save "x1" "/other" 2 1)
         (DB.insert Save.keyPath_id (KStr "q5") (quick_save "q5" "/game" 5 40)
         (DB.insert Save.keyPath_id (KStr "q4") (quick_save "q4" "/game" 4 50)
         (DB.insert Save.keyPath_id (KStr "q3") (quick_save "q3" "/game" 3 10)
         (DB.insert Save.keyPath_id (KStr "q2") (quick_save "q2" "/game" 2 10)
         (DB.insert Save.keyPath_id (KStr "q1") (quick_save "q1" "/game" 1 30)
         (DB.insert Save.keyPath_id (KStr "m1")
            (manual_save "m1" "/game" "Save 1" 5) []))))))).
  repeat (apply insert_well_formed; [reflexivity |]).
  apply well_formed_empty.
Qed.

Section QuickEdges.
Variable JSON_stringify : json -> string.
Variable LZString : option lzstring.
Variable compression : bool.
Variable gameId : string.

(** X15. A quick save whose capture fails reports the capture error. With
    fewer than five quick records the store is then unchanged; with all
    slots in use the oldest quick record has already been deleted, so the
    title is left with fewer quick records than before. *)
Theorem quick_failure_after_eviction (w : world) (db : DB.saves) (e : error) :
  SaveManager.capture w = inl e ->
  ((List.length (quick_records gameId db) < 5)%nat ->
   SaveManager.quick JSON_stringify LZString compression gameId w db
   = Some (db, inl e))
  /\ ((5 <= List.length (quick_records gameId db))%nat ->
      exists db',
        SaveManager.quick JSON_stringify LZString compression gameId w db
        = Some (db', inl e)
        /\ (List.length (quick_records gameId db')
            < List.length (quick_records gameId db))%nat
        /\ forall r, In r db' -> In r db).
Proof.
  intros Hc. split.
  - intros Hlt.
    destruct (target_slot_free gameId db Hlt) as (i & Ht & _ & Hfree & _).
    rewrite (quick_unfold JSON_stringify LZString compression gameId w db
               (Some i) Ht), Hc.
    now rewrite (evict_unused gameId (Some i) db Hfree).
  - intros Hfull.
    destruct (target_slot_full gameId db Hfull) as (r0 & rest & z & Eq & Hz & Ht).
    rewrite (quick_unfold JSON_stringify LZString compression gameId w db
               (Some z) Ht), Hc.
    eexists. split; [reflexivity | split].
    + rewrite <- Hz. apply evict_length_lt. apply qSaves_In. rewrite Eq. now left.
    + intros r. rewrite evict_survivors, filter_In. tauto.
Qed.

(** X16. In a well-formed store, a quick save whose generated id is not
    yet in use leaves every record that is not a quick record of the title
    (manual saves, and all saves of other titles) where it was: each is
    still found under its id, unchanged. *)
Theorem quick_keeps_other_records (w : world) (db db' : DB.saves)
  (res : result unit) :
  well_formed Save.keyPath_id db ->
  (forall x, In x db -> Save.id x <> SaveManager.new_id gameId w) ->
  SaveManager.quick JSON_stringify LZString compression gameId w db
  = Some (db', res) ->
  forall x, In x db -> is_quick_of gameId x = false ->
            DB.get_save (Save.id x) db' = Some x.
Proof.
  intros Hwf Hfresh Hq x Hx Hnq. unfold DB.get_save.
  assert (Hkeep : forall s, In x (SaveManager.evict gameId s db)).
  { intros s. rewrite evict_survivors. apply filter_In. split; [exact Hx |].
    unfold survives. apply forallb_forall. intros r Hr.
    apply negb_true_iff, not_true_is_false. intros Hboth.
    apply andb_true_iff in Hboth. destruct Hboth as [_ Hid].
    apply String.eqb_eq in Hid. apply qSaves_In in Hr.
    unfold quick_records in Hr. apply filter_In in Hr. destruct Hr as [Hrdb Hrq].
    assert (r = x)
      by (apply unique_id with db; auto using well_formed_unique_ids).
    subst r. congruence. }
  assert (Hget : forall s,
             DB.get Save.keyPath_id (KStr (Save.id x))
               (SaveManager.evict gameId s db) = Some x).
  { intros s. apply get_member; [now apply evict_well_formed | apply Hkeep |].
    reflexivity. }
  unfold SaveManager.quick in Hq.
  destruct (SaveManager.target_slot gameId db) as [e|s] eqn:Ht.
  - injection Hq as <- _. now apply get_member.
  - fold (SaveManager.quick JSON_stringify LZString compression gameId w db) in Hq.
    unfold SaveManager.create in Hq.
    destruct (SaveManager.capture w) as [e|st]; [injection Hq as <- _; apply Hget |].
    destruct (SaveManager.resolve_name _ _) as [nm|]; [| discriminate].
    rewrite created_by_put in Hq. injection Hq as <- _.
    rewrite get_insert_other; [apply Hget | reflexivity |].
    intros [= E]. apply (Hfresh x Hx). now symmetry.
Qed.
End QuickEdges.

Lemma quick_failure_after_eviction_witness :
  let w := {| getCSApi := false; restoreObject := None;
              now_id := 60; uid := "u"; now_ts := 60 |} in
  SaveManager.capture w = inl (Error "Game API not found." None)
  /\ exists db',
       SaveManager.quick sample_stringify None true "/game" w full_store
       = Some (db', inl (Error "Game API not found." None))
       /\ (List.length (quick_records "/game" db') < 5)%nat.
Proof.
  cbn zeta. split; [reflexivity |].
  destruct (quick_failure_after_eviction sample_stringify None true "/game"
              {| getCSApi := false; restoreObject := None;
                 now_id := 60; uid := "u"; now_ts := 60 |}
              full_store (Error "Game API not found." None) eq_refl)
    as [_ Hfull].
  destruct Hfull as (db' & Hq & Hlen & _); [vm_compute; lia |].
  exists db'. split; [exact Hq |].
  assert (E : List.length (quick_records "/game" full_store) = 5%nat)
    by (vm_compute; reflexivity).
  lia.
Defined.

Lemma quick_keeps_other_records_witness :
  let m := manual_save "m1" "/game" "Save 1" 5 in
  exists db',
    SaveManager.quick sample_stringify None true "/game" (sample_world 60 "u")
      full_store = Some (db', inr tt)
    /\ DB.get_save "m1" db' = Some m
    /\ DB.get_save "x1" db' = Some (quick_save "x1" "/other" 2 1).
Proof.
  cbn zeta.
  destruct (SaveManager.quick sample_stringify None true "/game"
              (sample_world 60 "u") full_store) as [[db' res]|] eqn:E.
  - assert (Hres : res = inr tt).
    { pose proof E as E2. vm_compute in E2. now injection E2 as _ <-. }
    subst res. exists db'. split; [reflexivity |].
    assert (Hfresh : forall x, In x full_store ->
                       Save.id x <> SaveManager.new_id "/game" (sample_world 60 "u")).
    { intros x Hx.
      repeat (destruct Hx as [<- | Hx]; [vm_compute; discriminate |]).
      destruct Hx. }
    pose proof (quick_keeps_other_records sample_stringify None true "/game"
                  (sample_world 60 "u") full_store db' (inr tt)
                  full_store_well_formed Hfresh E) as Hkeep.
    split.
    + apply (Hkeep (manual_save "m1" "/game" "Save 1" 5)); [now left | reflexivity].
    + apply (Hkeep (quick_save "x1" "/other" 2 1)); [| reflexivity].
      do 6 right. now left.
  - vm_compute in E. discriminate E.
Defined.

(** ** create: what is stored *)

Lemma codec_roundtrip (JSON_stringify : json -> string)
  (JSON_parse : string -> result json) (LZString : option lzstring)
  (compression : bool) (x : json) :
  serializable JSON_stringify JSON_parse x ->
  lz_reversible LZString (JSON_stringify x) ->
  dec JSON_parse LZString (enc JSON_stringify LZString compression x) = inr x.
Proof.
  intros Hser Hlz. unfold enc, HAS_LZ.
  destruct LZString as [lz|]; destruct compression; cbn [andb]; unfold plain;
    rewrite ?dec_lz, ?dec_plain, ?(Hlz lz eq_refl); cbn [parse_nullable];
    now rewrite Hser.
Qed.

Lemma resolved_name_not_empty (name nm : string) (rows : list Save.t) :
  SaveManager.resolve_name name rows = Some nm -> nm <> "".
Proof.
  unfold SaveManager.resolve_name, SaveManager.default_name.
  destruct (String.eqb_spec (trim name) "") as [E | E].
  - intros [= <-]. discriminate.
  - now intros [= <-].
Qed.

Section CreateEffect.
Variable JSON_stringify : json -> string.
Variable JSON_parse : string -> result json.
Variable LZString : option lzstring.
Variable compression : bool.
Variable gameId : string.

(** X17. When capture fails, [create] reports that error and leaves the
    store as it was. When it succeeds, the record found under the new id
    has a name that is not empty, belongs to the current title, carries the
    current format version and the given slot, and its payload decodes to
    the state that was captured (for a serializable state); the records
    under all other ids are as before. *)
Theorem create_stores_captured_state (w : world) (name : string) (q : option Z)
  (db : DB.saves) :
  (forall e, SaveManager.capture w = inl e ->
     SaveManager.create JSON_stringify LZString compression gameId w name q db
     = Some (db, inl e))
  /\ (forall s nm,
        SaveManager.capture w = inr s ->
        SaveManager.resolve_name name (DB.list gameId db) = Some nm ->
        exists db' r,
          SaveManager.create JSON_stringify LZString compression gameId w name q db
          = Some (db', inr tt)
          /\ DB.get_save (SaveManager.new_id gameId w) db' = Some r
          /\ Save.name r = nm /\ nm <> ""
          /\ Save.game r = gameId
          /\ Save.quick r = q
          /\ Save.ts r = now_ts w
          /\ Meta.fmt (Save.meta r) = METADATA_FORMAT_VERSION
          /\ (serializable JSON_stringify JSON_parse s ->
              lz_reversible LZString (JSON_stringify s) ->
              dec JSON_parse LZString (Save.payload r) = inr s)
          /\ forall j, j <> SaveManager.new_id gameId w ->
                       DB.get_save j db' = DB.get_save j db).
Proof.
  split.
  - intros e Hc. unfold SaveManager.create. now rewrite Hc.
  - intros s nm Hc Hn.
    rewrite (create_named JSON_stringify LZString compression gameId
               w name nm q s db Hc Hn).
    eexists. eexists. split; [reflexivity |].
    split; [unfold DB.get_save; now apply get_insert |].
    split; [reflexivity |].
    split; [now apply resolved_name_not_empty with name (DB.list gameId db) |].
    do 4 (split; [reflexivity |]).
    split.
    + intros Hser Hlz.
      pose proof (codec_roundtrip JSON_stringify JSON_parse LZString compression
                    s Hser Hlz) as Hrt.
      unfold Save.payload, SaveManager.new_record. cbn.
      destruct (enc JSON_stringify LZString compression s); exact Hrt.
    + intros j Hj. unfold DB.get_save.
      apply get_insert_other; [reflexivity | congruence].
Qed.
End CreateEffect.

(** ** load: what reaches the game *)

Section LoadEffect.
Variable JSON_parse : string -> result json.
Variable LZString : option lzstring.

(** X18. [load] writes a state into the game, or starts the game's own
    restore, only for a record that exists and whose payload decodes, on a
    page that exposes the game's API and whose store initialises: a missing
    or undecodable save never changes the running game. *)
Theorem load_injects_only_decoded (api : option SaveManager.csapi) (id : string)
  (db : DB.saves) :
  In SaveManager.HardInject (fst (SaveManager.load JSON_parse LZString api id db))
  \/ In SaveManager.StandardLoad
        (fst (SaveManager.load JSON_parse LZString api id db)) ->
  exists r a s,
    DB.get_save id db = Some r
    /\ api = Some a
    /\ dec JSON_parse LZString (Save.payload r) = inr s
    /\ SaveManager.initStore a = inr tt.
Proof.
  unfold SaveManager.load, SaveManager.load_body.
  destruct (DB.get_save id db) as [r|] eqn:Hget;
    [| cbn; intros [[H | [H | []]] | [H | [H | []]]]; discriminate H].
  destruct api as [a|];
    [| cbn; intros [[H | [H | []]] | [H | [H | []]]]; discriminate H].
  destruct (dec JSON_parse LZString (Save.payload r)) as [e|s] eqn:Hdec;
    [cbn; intros [[H | [H | []]] | [H | [H | []]]]; discriminate H |].
  destruct (SaveManager.initStore a) as [x|[]] eqn:Hinit.
  { destruct (SaveManager.message_text x); cbn;
      [intros [[] | []] | intros [[H | [H | []]] | [H | [H | []]]]; discriminate H]. }
  intros _. exists r, a, s. repeat split; assumption || reflexivity.
Qed.
End LoadEffect.

Lemma load_injects_only_decoded_witness :
  let r := {| Save.id := "a"; Save.game := "/game";
              Save.meta := {| Meta.name := "Save 1"; Meta.scene := JStr "";
                              Meta.ts := 1; Meta.quick := None; Meta.fmt := 1 |};
              Save.state := "true"; Save.enc := "plain" |} in
  let page := {| SaveManager.initStore := inr tt;
                 SaveManager.saveCookie := None;
                 SaveManager.set_slot :=
                   {| SaveManager.calls_back := true;
                      SaveManager.outcome := inr tt |};
                 SaveManager.set_state := inr tt;
                 SaveManager.set_state_run := inr tt;
                 SaveManager.restore_fn := false;
                 SaveManager.clearScreen := None |} in
  SaveManager.load sample_parse None (Some page) "a" [r]
  = ([SaveManager.HardInject], inr tt)
  /\ exists r' a s,
       DB.get_save "a" [r] = Some r'
       /\ Some page = Some a
       /\ dec sample_parse None (Save.payload r') = inr s
       /\ SaveManager.initStore a = inr tt.
Proof.
  cbn zeta. split; [reflexivity |].
  apply load_injects_only_decoded. left. cbn. now left.
Defined.

(** ** import: the store afterwards, in general *)

Section ImportEffect.
Variable JSON_parse : string -> result json.
Variable gameId : string.

Lemma put_all_store (valid : list json) (db : SaveManager.objects) :
  fst (SaveManager.put_all gameId valid db) = persisted gameId valid db.
Proof.
  revert db. induction valid as [|r valid IH]; intros db; [reflexivity |].
  cbn [SaveManager.put_all]. unfold DB.put, persisted. cbn [fold_left].
  rewrite rehome_key.
  destruct (SaveManager.json_keyPath_id r) as [k|]; [apply IH |].
  cbn. apply IH.
Qed.

Lemma put_all_outcome (valid : list json) (db : SaveManager.objects) :
  snd (SaveManager.put_all gameId valid db) = None
  <-> Forall (fun r => SaveManager.json_keyPath_id r <> None) valid.
Proof.
  revert db. induction valid as [|r valid IH]; intros db.
  - cbn. split; [constructor | reflexivity].
  - cbn [SaveManager.put_all]. unfold DB.put. rewrite rehome_key.
    destruct (SaveManager.json_keyPath_id r) as [k|] eqn:Er.
    + rewrite IH, Forall_cons_iff, Er. split; [| tauto].
      intros H. split; [discriminate | exact H].
    + cbn. split; [discriminate |].
      intros H. apply Forall_cons_iff in H. destruct H as [H _]. contradiction.
Qed.

Lemma get_persisted_any (k : idbkey) (valid : list json) (db : SaveManager.objects) :
  DB.get SaveManager.json_keyPath_id k (persisted gameId valid db)
  = match last_with_key k valid with
    | Some r => Some (SaveManager.rehome gameId r)
    | None => DB.get SaveManager.json_keyPath_id k db
    end.
Proof.
  revert db. induction valid as [|r valid IH]; intros db; [reflexivity |].
  unfold persisted, last_with_key in *. cbn [fold_left rev].
  rewrite IH, find_snoc.
  destruct (find _ (rev valid)); [reflexivity |].
  unfold DB.has_key at 1.
  destruct (SaveManager.json_keyPath_id r) as [kr|] eqn:Er; [| reflexivity].
  rewrite get_insert_cases by (now rewrite rehome_key).
  unfold DB.has_key. rewrite rehome_key, Er.
  destruct (key_eqb kr k); reflexivity.
Qed.

Lemma persisted_well_formed (valid : list json) (db : SaveManager.objects) :
  well_formed SaveManager.json_keyPath_id db ->
  well_formed SaveManager.json_keyPath_id (persisted gameId valid db).
Proof.
  revert db. induction valid as [|r valid IH]; intros db Hwf; [exact Hwf |].
  unfold persisted in *. cbn [fold_left].
  destruct (SaveManager.json_keyPath_id r) as [k|] eqn:Er; [| now apply IH].
  apply IH. apply insert_well_formed; [now rewrite rehome_key | exact Hwf].
Qed.

(** The store [import] leaves behind, read off the bundle. *)
Lemma import_store (json_text : string) (db : SaveManager.objects) :
  fst (SaveManager.import JSON_parse gameId json_text db)
  = match JSON_parse json_text with
    | inr (JArr parsed) =>
        if strict_eq_num (SaveManager.version parsed) METADATA_FORMAT_VERSION
        then persisted gameId (filter SaveManager.valid_entry parsed) db
        else db
    | _ => db
    end.
Proof.
  unfold SaveManager.import, SaveManager.import_body.
  destruct (JSON_parse json_text) as [e|[| | | |parsed|]]; try reflexivity.
  destruct (strict_eq_num _ _); [| reflexivity]. cbn [negb].
  destruct (filter SaveManager.valid_entry parsed) as [|r valid] eqn:Ev;
    [reflexivity |].
  rewrite <- (put_all_store (r :: valid) db).
  destruct (SaveManager.put_all gameId (r :: valid) db) as [d [e|]]; reflexivity.
Qed.

(** X19. [import] succeeds exactly when the text parses to a sequence
    whose first entry has the current format version, some entry passes the
    filter, and every entry that passes has an id the store accepts as a
    key. Whenever it fails with a message other than the one for a
    corrupted file, the store is as it was. *)
Theorem import_outcome (json_text : string) (db : SaveManager.objects) :
  (snd (SaveManager.import JSON_parse gameId json_text db) = inr tt
   <-> exists parsed,
         JSON_parse json_text = inr (JArr parsed)
         /\ first_fmt parsed = Some (JNum METADATA_FORMAT_VERSION)
         /\ filter SaveManager.valid_entry parsed <> []
         /\ Forall (fun r => SaveManager.json_keyPath_id r <> None)
                   (filter SaveManager.valid_entry parsed))
  /\ (forall e,
        snd (SaveManager.import JSON_parse gameId json_text db) = inl e ->
        message e <> "Invalid or corrupted JSON file." ->
        fst (SaveManager.import JSON_parse gameId json_text db) = db).
Proof.
  unfold SaveManager.import, SaveManager.import_body.
  destruct (JSON_parse json_text) as [e0|[| | | |parsed|]] eqn:Hp;
    try (split; [split; [discriminate | intros (p & [=] & _)] | reflexivity]).
  destruct (strict_eq_num (SaveManager.version parsed) METADATA_FORMAT_VERSION)
    eqn:Hv; cbn [negb].
  - apply js_or_is_num in Hv; [| discriminate].
    destruct (filter SaveManager.valid_entry parsed) as [|r valid] eqn:Ev.
    + split; [| reflexivity]. split; [discriminate |].
      intros (p & [= <-] & _ & Hne & _). rewrite Ev in Hne. contradiction.
    + pose proof (put_all_outcome (r :: valid) db) as Hout.
      destruct (SaveManager.put_all gameId (r :: valid) db) as [d [e|]] eqn:Hput;
        cbn [snd fst] in *.
      * split.
        -- split; [discriminate |].
           intros (p & [= <-] & _ & _ & Hk). rewrite Ev in Hk.
           apply Hout in Hk. discriminate.
        -- intros e1 [= <-] Hm. exfalso. apply Hm. cbn.
           assert (Hmsg : message e = "DataError").
           { clear -Hput. revert db d e Hput.
             generalize (r :: valid). intros l.
             induction l as [|x l IH]; intros db d e; cbn; [discriminate |].
             unfold DB.put. destruct (SaveManager.json_keyPath_id _).
             - apply IH.
             - now intros [= _ <-]. }
           now rewrite Hmsg.
      * split; [| discriminate]. split; [| reflexivity].
        intros _. exists parsed. rewrite Ev.
        split; [reflexivity | split; [exact Hv | split; [discriminate |]]].
        now apply Hout.
  - split; [| reflexivity]. split; [discriminate |].
    intros (p & [= <-] & Hf & _).
    apply version_gate_open in Hf. congruence.
Qed.

(** X20. [import] never touches a record whose key no surviving entry of
    the bundle has: whatever the text and the outcome, such a record is
    found afterwards exactly as before. *)
Theorem import_keeps_other_keys (json_text : string) (db : SaveManager.objects)
  (k : idbkey) :
  (forall parsed r,
      JSON_parse json_text = inr (JArr parsed) ->
      In r parsed -> SaveManager.valid_entry r = true ->
      SaveManager.json_keyPath_id r <> Some k) ->
  DB.get SaveManager.json_keyPath_id k
    (fst (SaveManager.import JSON_parse gameId json_text db))
  = DB.get SaveManager.json_keyPath_id k db.
Proof.
  intros Hother. rewrite import_store.
  destruct (JSON_parse json_text) as [e0|[| | | |parsed|]] eqn:Hp; try reflexivity.
  destruct (strict_eq_num _ _); [| reflexivity].
  rewrite get_persisted_any.
  destruct (last_with_key k _) as [r|] eqn:Hl; [| reflexivity].
  unfold last_with_key in Hl. apply find_some in Hl. destruct Hl as [Hin Hk].
  apply in_rev, filter_In in Hin. destruct Hin as [Hin Hv].
  apply has_key_iff in Hk. exfalso. now apply (Hother parsed r eq_refl Hin Hv).
Qed.

(** X21. Importing the same bundle a second time changes nothing: on a
    well-formed store, the store after two imports of a text is the store
    after one. *)
Theorem import_idempotent (json_text : string) (db : SaveManager.objects) :
  well_formed SaveManager.json_keyPath_id db ->
  fst (SaveManager.import JSON_parse gameId json_text
         (fst (SaveManager.import JSON_parse gameId json_text db)))
  = fst (SaveManager.import JSON_parse gameId json_text db).
Proof.
  intros Hwf. rewrite !import_store.
  destruct (JSON_parse json_text) as [e0|[| | | |parsed|]]; try reflexivity.
  destruct (strict_eq_num _ _); [| reflexivity].
  set (valid := filter SaveManager.valid_entry parsed).
  apply (well_formed_ext SaveManager.json_keyPath_id).
  - now apply persisted_well_formed, persisted_well_formed.
  - now apply persisted_well_formed.
  - intros k. rewrite !get_persisted_any.
    destruct (last_with_key k valid); reflexivity.
Qed.
End ImportEffect.

Lemma import_keeps_other_keys_witness :
  let kept := JObj [("id", JStr "z"); ("game", JStr "/game")] in
  DB.get SaveManager.json_keyPath_id (KStr "z")
    (fst (SaveManager.import sample_bundle_parse "/game" "[...]" [kept]))
  = Some kept.
Proof.
  cbn zeta.
  rewrite (import_keeps_other_keys sample_bundle_parse "/game" "[...]" _ (KStr "z")).
  - reflexivity.
  - intros parsed r [= <-] Hin _.
    destruct Hin as [<- | [<- | []]]; discriminate.
Defined.

Lemma import_idempotent_witness :
  well_formed SaveManager.json_keyPath_id []
  /\ fst (SaveManager.import sample_bundle_parse "/game" "[...]"
            (fst (SaveManager.import sample_bundle_parse "/game" "[...]" [])))
     = fst (SaveManager.import sample_bundle_parse "/game" "[...]" []).
Proof.
  split; [apply well_formed_empty |].
  apply import_idempotent. apply well_formed_empty.
Defined.

(** ** Export, then import *)

Lemma append_not_empty (a b : string) : b <> "" -> a ++ b <> "".
Proof.
  intros Hb. destruct a; [exact Hb | discriminate].
Qed.

Lemma truthy_string (t : string) : t <> "" -> truthy (Some (JStr t)) = true.
Proof.
  intros H. cbn. now destruct (String.eqb_spec t "").
Qed.

Section ExportImport.
Variable JSON_stringify : json -> string.
Variable JSON_parse : string -> result json.
Variable LZString : option lzstring.
Variable compression : bool.

(** X22. The file written by "export current state" is one that [import]
    accepts: when capture succeeds and the encoded state is not empty, the
    import (on any title, given that [JSON.parse] reads back the bundle)
    passes the version gate and the filter and writes the one exported
    entry, re-homed to the importing title. *)
Theorem export_current_imports (exporting importing : string) (w : world)
  (s : json) (db : SaveManager.objects) :
  SaveManager.capture w = inr s ->
  Encoded.state (enc JSON_stringify LZString compression s) <> "" ->
  serializable JSON_stringify JSON_parse
    (JArr [exported_entry JSON_stringify LZString compression exporting w s]) ->
  exists json_text entry,
    exportCurrent JSON_stringify LZString compression exporting w = inr json_text
    /\ entry = exported_entry JSON_stringify LZString compression exporting w s
    /\ SaveManager.import JSON_parse importing json_text db
       = (DB.insert SaveManager.json_keyPath_id
            (KStr (exporting ++ "_export_" ++ show_Z (now_id w) ++ "_" ++ uid w))
            (SaveManager.rehome importing entry) db,
          inr tt)
    /\ prop "game" (SaveManager.rehome importing entry) = Some (JStr importing)
    /\ prop "state" (SaveManager.rehome importing entry) = prop "state" entry
    /\ prop "meta" (SaveManager.rehome importing entry) = prop "meta" entry.
Proof.
  intros Hc Hstate Hser.
  eexists. eexists. split; [unfold exportCurrent; rewrite Hc; reflexivity |].
  split; [reflexivity |].
  set (entry := exported_entry JSON_stringify LZString compression exporting w s)
    in *.
  assert (Hid : exporting ++ "_export_" ++ show_Z (now_id w) ++ "_" ++ uid w <> "").
  { apply append_not_empty. discriminate. }
  assert (Hvalid : SaveManager.valid_entry entry = true).
  { unfold SaveManager.valid_entry.
    change (prop "id" entry)
      with (Some (JStr (exporting ++ "_export_" ++ show_Z (now_id w) ++ "_" ++ uid w))).
    change (prop "state" entry)
      with (Some (JStr (Encoded.state (enc JSON_stringify LZString compression s)))).
    change (chain "ts" (prop "meta" entry)) with (Some (JNum (now_ts w))).
    rewrite (truthy_string _ Hid), (truthy_string _ Hstate). reflexivity. }
  split; [| split; [| split]]; try reflexivity.
  unfold SaveManager.import, SaveManager.import_body.
  unfold serializable in Hser. rewrite Hser.
  assert (Hv : strict_eq_num (SaveManager.version [entry]) METADATA_FORMAT_VERSION
               = true) by reflexivity.
  rewrite Hv. cbn [negb filter]. rewrite Hvalid.
  cbn [SaveManager.put_all]. reflexivity.
Qed.
End ExportImport.

Lemma export_current_imports_witness :
  let w := sample_world 7 "u" in
  let s := JObj [("stats", JObj [("sceneName", JStr "startup")])] in
  let entry := exported_entry sample_stringify None true "/game" w s in
  let parse := fun _ : string => inr (JArr [entry]) in
  exists json_text,
    exportCurrent sample_stringify None true "/game" w = inr json_text
    /\ SaveManager.import parse "/elsewhere" json_text []
       = ([SaveManager.rehome "/elsewhere" entry], inr tt).
Proof.
  cbn zeta.
  destruct (export_current_imports sample_stringify
              (fun _ : string =>
                 inr (JArr [exported_entry sample_stringify None true "/game"
                              (sample_world 7 "u")
                              (JObj [("stats", JObj [("sceneName", JStr "startup")])])]))
              None true "/game" "/elsewhere" (sample_world 7 "u")
              (JObj [("stats", JObj [("sceneName", JStr "startup")])]) [])
    as (json_text & entry & Hexp & -> & Himp & _).
  - reflexivity.
  - discriminate.
  - reflexivity.
  - exists json_text. split; [exact Hexp | exact Himp].
Defined.

Section ExportAll.
Variable JSON_stringify : json -> string.
Variable JSON_parse : string -> result json.

Lemma json_of_save_valid (r : Save.t) :
  Save.id r <> "" -> Save.state r <> "" ->
  SaveManager.valid_entry (json_of_save r) = true.
Proof.
  intros Hid Hst. unfold SaveManager.valid_entry.
  change (prop "id" (json_of_save r)) with (Some (JStr (Save.id r))).
  change (prop "state" (json_of_save r)) with (Some (JStr (Save.state r))).
  change (chain "ts" (prop "meta" (json_of_save r))) with (Some (JNum (Save.ts r))).
  now rewrite (truthy_string _ Hid), (truthy_string _ Hst).
Qed.

Lemma json_of_save_rehomed (g : string) (r : Save.t) :
  SaveManager.rehome g (json_of_save r) = json_of_save (rehomed g r).
Proof. reflexivity. Qed.

Lemma last_with_key_row (rows : list Save.t) (r : Save.t) :
  NoDup (map Save.id rows) -> In r rows ->
  last_with_key (KStr (Save.id r)) (map json_of_save rows) = Some (json_of_save r).
Proof.
  intros Hnd Hin. unfold last_with_key.
  destruct (find _ (rev (map json_of_save rows))) as [y|] eqn:F.
  - apply find_some in F. destruct F as [Hy Hk].
    apply in_rev, in_map_iff in Hy. destruct Hy as (r' & <- & Hr').
    apply has_key_iff in Hk. injection Hk as Hid.
    f_equal. f_equal. now apply unique_id with rows.
  - exfalso.
    assert (Hin' : In (json_of_save r) (rev (map json_of_save rows))).
    { apply in_rev. rewrite rev_involutive. now apply in_map. }
    pose proof (find_none _ _ F (json_of_save r) Hin') as Hk.
    rewrite (has_key_own SaveManager.json_keyPath_id (KStr (Save.id r))
               (json_of_save r) eq_refl) in Hk.
    discriminate.
Qed.

(** X23. The file written by "export all" is one that [import] accepts
    and restores in full: when the first exported
    record has the current format version and no exported record has an
    empty id or an empty payload, the import writes every exported record,
    and each is then found under its id with the importing title and with
    its name, scene, timestamp, slot and payload as exported. *)
Theorem export_all_imports (importing : string) (rows : list Save.t)
  (r0 : Save.t) (db : SaveManager.objects) :
  hd_error rows = Some r0 ->
  Meta.fmt (Save.meta r0) = METADATA_FORMAT_VERSION ->
  Forall (fun r => Save.id r <> "" /\ Save.state r <> "") rows ->
  NoDup (map Save.id rows) ->
  serializable JSON_stringify JSON_parse (JArr (map json_of_save rows)) ->
  SaveManager.import JSON_parse importing (export_all JSON_stringify rows) db
  = (persisted importing (map json_of_save rows) db, inr tt)
  /\ forall r, In r rows ->
       DB.get SaveManager.json_keyPath_id (KStr (Save.id r))
         (persisted importing (map json_of_save rows) db)
       = Some (json_of_save (rehomed importing r)).
Proof.
  intros Hhd Hfmt Hall Hnd Hser. split.
  - unfold SaveManager.import, SaveManager.import_body, export_all.
    unfold serializable in Hser. rewrite Hser.
    assert (Hv : strict_eq_num (SaveManager.version (map json_of_save rows))
                   METADATA_FORMAT_VERSION = true).
    { destruct rows as [|r rows']; [discriminate |]. injection Hhd as ->.
      apply version_gate_open. unfold first_fmt. cbn [map nth_error].
      change (chain "fmt" (chain "meta" (Some (json_of_save r0))))
        with (Some (JNum (Meta.fmt (Save.meta r0)))).
      now rewrite Hfmt. }
    rewrite Hv. cbn [negb].
    assert (Hf : filter SaveManager.valid_entry (map json_of_save rows)
                 = map json_of_save rows).
    { clear -Hall. induction Hall as [|r rows [Hid Hst] _ IH]; [reflexivity |].
      cbn [map filter]. now rewrite (json_of_save_valid r Hid Hst), IH. }
    rewrite Hf.
    rewrite (put_all_persisted importing (map json_of_save rows) db).
    + destruct rows; [discriminate | reflexivity].
    + apply Forall_forall. intros y Hy. apply in_map_iff in Hy.
      destruct Hy as (r & <- & _). discriminate.
  - intros r Hr. rewrite get_persisted_any, (last_with_key_row rows r Hnd Hr).
    now rewrite json_of_save_rehomed.
Qed.
End ExportAll.

Lemma export_all_imports_witness :
  let rows := [quick_save "q1" "/game" 1 30; manual_save "m1" "/game" "Save 1" 5] in
  let parse := fun _ : string => inr (JArr (map json_of_save rows)) in
  SaveManager.import parse "/elsewhere" (export_all sample_stringify rows) []
  = ([json_of_save (manual_save "m1" "/elsewhere" "Save 1" 5);
      json_of_save (quick_save "q1" "/elsewhere" 1 30)], inr tt).
Proof.
  cbn zeta.
  destruct (export_all_imports sample_stringify
              (fun _ : string =>
                 inr (JArr (map json_of_save
                              [quick_save "q1" "/game" 1 30;
                               manual_save "m1" "/game" "Save 1" 5])))
              "/elsewhere"
              [quick_save "q1" "/game" 1 30; manual_save "m1" "/game" "Save 1" 5]
              (quick_save "q1" "/game" 1 30) [])
    as [Himp _].
  - reflexivity.
  - reflexivity.
  - repeat constructor; discriminate.
  - replace (map Save.id _) with (nodup string_dec ["q1"; "m1"])
      by (vm_compute; reflexivity).
    apply NoDup_nodup.
  - reflexivity.
  - rewrite Himp. reflexivity.
Defined.

(** ** The rows shown by the dialog *)

Lemma filter_rows_spec (q : string) (rows kept : list Save.t) :
  Modal.filter_rows q rows = inr kept -> kept = filter (shown_for q) rows.
Proof.
  revert kept. induction rows as [|r rows IH]; intros kept; cbn.
  - now intros [= <-].
  - unfold shown_for. destruct (Modal.row_matches q r) as [e|b]; cbn; [discriminate |].
    destruct (Modal.filter_rows q rows) as [e|kept']; cbn; [discriminate |].
    intros [= <-]. rewrite (IH kept' eq_refl). now destruct b.
Qed.

(** X24. What the dialog lists is a rearrangement of rows it was given:
    with a blank search text, all of them; otherwise exactly the rows whose
    lowercased name or scene contains the lowercased, trimmed search text.
    No row is listed twice or made up. Under "oldest" the list ascends by
    timestamp; under any order other than "oldest" and "name" it
    descends. *)
Theorem sortRows_lists_matches (localeCompare : string -> string -> Z)
  (query sort : string) (rows shown : list Save.t) :
  Modal.sortRows localeCompare query sort rows = inr shown ->
  let q := toLowerCase (trim query) in
  (q = "" -> Permutation shown rows)
  /\ (q <> "" -> Permutation shown (filter (shown_for q) rows))
  /\ (forall r, In r shown -> In r rows)
  /\ (sort = "oldest" ->
      StronglySorted (fun a b => Save.ts a <= Save.ts b) shown)
  /\ (sort <> "oldest" -> sort <> "name" ->
      StronglySorted (fun a b => Save.ts b <= Save.ts a) shown).
Proof.
  intros H q. unfold Modal.sortRows in H. fold q in H.
  set (cmp := fun a b : Save.t =>
                if (sort =? "oldest")%string then Save.ts a - Save.ts b
                else if (sort =? "name")%string
                     then localeCompare (Save.name a) (Save.name b)
                     else Save.ts b - Save.ts a) in H.
  assert (Hkept : exists kept,
             shown = Array_sort cmp kept
             /\ kept = (if (q =? "")%string then rows else filter (shown_for q) rows)).
  { destruct (String.eqb_spec q "") as [E | E]; cbn in H.
    - injection H as <-. now exists rows.
    - destruct (Modal.filter_rows q rows) as [e|kept] eqn:F; cbn in H; [discriminate |].
      injection H as <-. exists kept. split; [reflexivity |].
      now apply filter_rows_spec. }
  destruct Hkept as (kept & -> & Hkept).
  pose proof (Array_sort_perm cmp kept) as Hperm.
  split; [| split; [| split; [| split]]].
  - intros E. rewrite E in Hkept. cbn in Hkept. now subst kept.
  - intros E. destruct (String.eqb_spec q ""); [contradiction | now subst kept].
  - intros r Hr. apply (Permutation_in _ Hperm) in Hr.
    destruct (q =? "")%string; subst kept; [exact Hr |].
    apply filter_In in Hr. tauto.
  - intros ->.
    rewrite (Array_sort_ext cmp (fun a b => Save.ts a - Save.ts b)).
    + apply (Array_sort_sorted Save.ts).
    + intros a b. reflexivity.
  - intros H1 H2.
    rewrite (Array_sort_ext cmp (fun a b => (- Save.ts a) - (- Save.ts b))).
    + eapply StronglySorted_weaken;
        [| apply (Array_sort_sorted (fun r => - Save.ts r))].
      cbn. intros a b Hab. lia.
    + intros a b. unfold cmp.
      destruct (String.eqb_spec sort "oldest"); [contradiction |].
      destruct (String.eqb_spec sort "name"); [contradiction | lia].
Qed.

Lemma sortRows_lists_matches_witness :
  let rows := [manual_save "m1" "/game" "Before the Duel" 5;
               quick_save "q1" "/game" 1 30;
               manual_save "m2" "/game" "duel won" 20] in
  exists shown,
    Modal.sortRows (fun _ _ => 0) " DUEL " "oldest" rows = inr shown
    /\ map Save.id shown = ["m1"; "m2"]
    /\ forall r, In r shown -> In r rows.
Proof.
  cbn zeta.
  destruct (Modal.sortRows (fun _ _ => 0) " DUEL " "oldest" _) as [e|shown] eqn:E.
  - vm_compute in E. discriminate E.
  - exists shown. split; [reflexivity | split].
    + pose proof E as E2. vm_compute in E2. injection E2 as <-. reflexivity.
    + destruct (sortRows_lists_matches (fun _ _ => 0) " DUEL " "oldest" _ shown E)
        as (_ & _ & Hin & _).
      exact Hin.
Defined.

(** ** Default names *)

Lemma Int_defined (z : Z) : Int z <> NaN.
Proof.
  unfold Int, make. destruct (Z.abs z); try discriminate.
  destruct (strip p 0). discriminate.
Qed.

Section DefaultNameFacts.
Variable JSON_stringify : json -> string.
Variable LZString : option lzstring.
Variable compression : bool.
Variable gameId : string.

(** X25. The name [create] makes up for a blank name is new: when every
    number found in the names that count is an integer below 2^53 - 1, no
    record of the title with a falsy [quick] field already bears it. *)
Theorem default_name_unused (w : world) (name : string) (q : option Z) (s : json)
  (db : DB.saves) :
  SaveManager.capture w = inr s ->
  trim name = "" ->
  (forall r v, counts gameId db r v ->
               v = NaN \/ exists z, v = Int z /\ z < MAX_SAFE_INTEGER) ->
  exists nm,
    created_name gameId w
      (SaveManager.create JSON_stringify LZString compression gameId w name q db)
    = Some nm
    /\ forall r, In r db -> Save.game r = gameId ->
         SaveManager.quick_truthy (Save.quick r) = false ->
         Save.name r <> nm.
Proof.
  intros Hc Hblank Hsafe.
  destruct (default_maximum gameId db) as (Hat & Hn & H0 & Hub).
  set (M := SaveManager.max_number (DB.list gameId db)) in *.
  assert (H1074 : 0 < 2 ^ 1074) by (apply Z.pow_pos_nonneg; lia).
  assert (E53 : 2 ^ 53 = MAX_SAFE_INTEGER + 1) by reflexivity.
  assert (HM : exists z, M = Int z /\ 0 <= z < MAX_SAFE_INTEGER).
  { destruct Hat as [E | (r & Hr)].
    - exists 0. split; [exact E | split; [lia | reflexivity]].
    - destruct (Hsafe r M Hr) as [E | (z & E & Hz)]; [contradiction |].
      exists z. split; [exact E | split; [| exact Hz]].
      unfold number_le in H0. rewrite E, !units_Int in H0. nia. }
  destruct HM as (z & EM & Hz).
  exists ("Save " ++ show_Z (z + 1)). split.
  - apply created_name_named with s; [exact Hc |].
    unfold SaveManager.resolve_name, SaveManager.default_name.
    rewrite Hblank. fold M. rewrite EM.
    now rewrite add_one_integer, Number_toString_integer by lia.
  - intros r Hin Hg Hq Hnm.
    assert (Hcounts : counts gameId db r (Int (z + 1))).
    { repeat split; try assumption.
      - rewrite Hnm. apply startsWith_append.
      - rewrite Hnm. change (slice 5 ("Save " ++ show_Z (z + 1)))
          with (show_Z (z + 1)).
        apply Number_show_Z. lia. }
    apply Hub in Hcounts; [| apply Int_defined].
    unfold number_le in Hcounts. rewrite EM, !units_Int in Hcounts. nia.
Qed.

End DefaultNameFacts.

Lemma default_name_unused_witness :
  let db := [manual_save "s1" "/game" "Save 1" 10;
             manual_save "s2" "/game" "Save 3" 20] in
  exists nm,
    created_name "/game" (sample_world 40 "u")
      (SaveManager.create sample_stringify None true "/game"
         (sample_world 40 "u") "  " None db)
    = Some nm
    /\ forall r, In r db -> Save.game r = "/game" ->
         SaveManager.quick_truthy (Save.quick r) = false ->
         Save.name r <> nm.
Proof.
  cbn zeta.
  set (db := [manual_save "s1" "/game" "Save 1" 10;
              manual_save "s2" "/game" "Save 3" 20]).
  assert (Hsafe : forall r v, counts "/game" db r v ->
                    v = NaN \/ exists z, v = Int z /\ z < MAX_SAFE_INTEGER).
  { intros r v (Hin & _ & _ & _ & Hn). right.
    destruct Hin as [<- | [<- | []]].
    - exists 1. split; [symmetry; exact Hn | reflexivity].
    - exists 3. split; [symmetry; exact Hn | reflexivity]. }
  exact (default_name_unused sample_stringify None true "/game"
           (sample_world 40 "u") "  " None
           (JObj [("stats", JObj [("sceneName", JStr "startup")])]) db
           eq_refl eq_refl Hsafe).
Defined.

(** ** Quick saves in turn *)

Lemma mod_five_period (k : nat) : (5 <= k)%nat -> ((k - 5) mod 5 = k mod 5)%nat.
Proof.
  intros Hk. remember (k - 5)%nat as j eqn:Hj.
  replace k with (j + 1 * 5)%nat by lia.
  symmetry. apply Nat.Div0.mod_add.
Qed.

Lemma filter_all_In {A : Type} (f : A -> bool) (l : list A) :
  (forall x, In x l -> f x = true) -> filter f l = l.
Proof.
  induction l as [|a l IH]; intros H; [reflexivity |].
  cbn [filter]. rewrite (H a (or_introl eq_refl)). f_equal.
  apply IH. intros x Hx. apply H. now right.
Qed.

Lemma StronglySorted_snoc {A : Type} (R : A -> A -> Prop) (l : list A) (x : A) :
  StronglySorted R l -> (forall y, In y l -> R y x) ->
  StronglySorted R (l ++ [x]).
Proof.
  induction 1 as [|a l Hs IH Ha]; intros Hx; cbn [app].
  - constructor; [constructor | constructor].
  - constructor.
    + apply IH. intros y Hy. apply Hx. now right.
    + apply Forall_app. split; [exact Ha |].
      constructor; [| constructor]. apply Hx. now left.
Qed.

Lemma NoDup_snoc {A : Type} (l : list A) (x : A) :
  NoDup l -> ~ In x l -> NoDup (l ++ [x]).
Proof.
  intros Hl Hx. apply NoDup_app.
  - exact Hl.
  - constructor; [intros [] | constructor].
  - intros y Hy [<- | []]. now apply Hx.
Qed.

Section Rotation.
Variable JSON_stringify : json -> string.
Variable LZString : option lzstring.
Variable compression : bool.
Variable gameId : string.

Lemma insert_in_turn (w : world) (nm : string) (z : Z) (st : json)
  (db : DB.saves) (Q : list Save.t) :
  Permutation (quick_records gameId db) Q ->
  ~ In (SaveManager.new_id gameId w) (map Save.id Q) ->
  Permutation
    (quick_records gameId
       (DB.insert Save.keyPath_id (KStr (SaveManager.new_id gameId w))
          (SaveManager.new_record JSON_stringify LZString compression gameId
             w nm (Some z) st) db))
    (Q ++ [SaveManager.new_record JSON_stringify LZString compression gameId
             w nm (Some z) st])%list.
Proof.
  intros HP Hfresh.
  set (o := SaveManager.new_record JSON_stringify LZString compression gameId
              w nm (Some z) st).
  change (SaveManager.new_id gameId w) with (Save.id o) in *.
  assert (Hqo : is_quick_of gameId o = true) by apply new_record_quick.
  destruct (quick_records_insert gameId o db) as (l1 & l2 & Hins & Hdb).
  rewrite Hqo in Hins. rewrite Hins.
  destruct Hdb as [E | (x & E & Hx)].
  - rewrite E in HP. cbn [app].
    apply Permutation_trans with (o :: l1 ++ l2)%list.
    + apply Permutation_sym, Permutation_middle.
    + apply Permutation_trans with (o :: Q).
      * now constructor.
      * apply Permutation_cons_append.
  - exfalso. apply Hfresh. rewrite <- Hx. apply in_map.
    apply (Permutation_in _ HP). rewrite E. apply in_elt.
Qed.

Lemma in_turn_length (k : nat) (db : DB.saves) (Q : list Save.t) :
  in_turn gameId k db Q ->
  List.length Q = Nat.min k 5
  /\ List.length (quick_records gameId db) = Nat.min k 5.
Proof.
  intros (HP & _ & _ & _ & Hs).
  assert (HQ : List.length Q = Nat.min k 5).
  { rewrite <- (length_map Save.quick Q), Hs, length_map, length_seq.
    reflexivity. }
  split; [exact HQ |]. rewrite <- HQ. now apply Permutation_length.
Qed.

Lemma in_turn_room_slots (k : nat) (db : DB.saves) (Q : list Save.t) (j : Z) :
  in_turn gameId k db Q -> (k < 5)%nat ->
  In (Some j) (slots gameId db) <-> 1 <= j <= Z.of_nat k.
Proof.
  intros (HP & _ & _ & _ & Hs) Hk.
  replace (k - Nat.min k 5)%nat with 0%nat in Hs by lia.
  replace (Nat.min k 5) with k in Hs by lia.
  assert (Hmem : In (Some j) (slots gameId db) <-> In (Some j) (map Save.quick Q)).
  { unfold slots. split; apply Permutation_in, Permutation_map;
      [exact HP | now apply Permutation_sym]. }
  rewrite Hmem, Hs, in_map_iff. unfold slot_in_turn. split.
  - intros (m & Hj & Hm). apply in_seq in Hm.
    rewrite Nat.mod_small in Hj by lia. injection Hj as <-. lia.
  - intros Hj. exists (Z.to_nat (j - 1)). split.
    + rewrite Nat.mod_small by lia. f_equal. lia.
    + apply in_seq. lia.
Qed.

Lemma quick_in_turn (w : world) (st : json) (k : nat) (db : DB.saves)
  (Q : list Save.t) :
  in_turn gameId k db Q ->
  SaveManager.capture w = inr st ->
  ~ In (SaveManager.new_id gameId w) (map Save.id Q) ->
  (forall r, In r Q -> Save.ts r < now_ts w) ->
  SaveManager.target_slot gameId db = inr (slot_in_turn k)
  /\ exists db' Q',
       SaveManager.quick JSON_stringify LZString compression gameId w db
       = Some (db', inr tt)
       /\ in_turn gameId (S k) db' Q'
       /\ forall r, In r Q' ->
            In r Q \/ (Save.id r = SaveManager.new_id gameId w
                       /\ Save.ts r = now_ts w).
Proof.
  intros Hturn Hcap Hfresh Hts.
  destruct (in_turn_length k db Q Hturn) as [HlenQ Hlen].
  pose proof Hturn as (HP & Hsorted & Hids & Hslots & Hs).
  destruct (Nat.lt_ge_cases k 5) as [Hk | Hk].
  - (* a slot is still unused *)
    destruct (target_slot_free gameId db) as (i & Ht & Hi & Hfree & Hlow);
      [lia |].
    assert (Hik : Some i = slot_in_turn k).
    { unfold slot_in_turn. rewrite Nat.mod_small by lia. f_equal.
      assert (~ (1 <= i <= Z.of_nat k)).
      { intros Hr. apply Hfree. now apply (in_turn_room_slots k db Q). }
      destruct (Z.lt_ge_cases (Z.of_nat k + 1) i) as [Hbig | Hsmall]; [| lia].
      assert (Hin : In (Some (Z.of_nat k + 1)) (slots gameId db))
        by (apply Hlow; lia).
      apply (in_turn_room_slots k db Q) in Hin; [lia | exact Hturn | exact Hk]. }
    split; [now rewrite Ht, Hik |].
    rewrite (quick_unfold JSON_stringify LZString compression gameId w db
               (Some i) Ht), Hcap.
    rewrite (evict_unused gameId (Some i) db Hfree).
    set (o := SaveManager.new_record JSON_stringify LZString compression gameId
                w (SaveManager.slot_name (Some i)) (Some i) st).
    exists (DB.insert Save.keyPath_id (KStr (SaveManager.new_id gameId w)) o db),
           (Q ++ [o])%list.
    split; [reflexivity | split; [| ]].
    + split; [| split; [| split; [| split]]].
      * now apply insert_in_turn.
      * apply StronglySorted_snoc; [exact Hsorted | exact Hts].
      * rewrite map_app. apply NoDup_snoc; [exact Hids | exact Hfresh].
      * rewrite map_app. apply NoDup_snoc; [exact Hslots |].
        cbn [map Save.quick Save.meta Meta.quick o SaveManager.new_record].
        intros Hin. apply Hfree. unfold slots.
        apply (Permutation_in _ (Permutation_map Save.quick
                                   (Permutation_sym HP)) Hin).
      * rewrite map_app, Hs.
        replace (k - Nat.min k 5)%nat with 0%nat by lia.
        replace (S k - Nat.min (S k) 5)%nat with 0%nat by lia.
        replace (Nat.min k 5) with k by lia.
        replace (Nat.min (S k) 5) with (S k) by lia.
        rewrite seq_S, map_app. cbn [map Nat.add]. f_equal.
        f_equal. exact Hik.
    + intros r Hr. apply in_app_iff in Hr.
      destruct Hr as [Hr | [<- | []]]; [now left | right; now split].
  - (* all five slots are taken *)
    replace (Nat.min k 5) with 5%nat in * by lia.
    destruct Q as [|q0 Qt]; [discriminate HlenQ |].
    destruct (target_slot_full gameId db) as (r0 & rest & z & Hq & Hz & Ht);
      [lia |].
    assert (Hin0 : forall r, In r (SaveManager.qSaves gameId db)
                             <-> In r (q0 :: Qt)).
    { intros r. rewrite qSaves_In. split; apply Permutation_in;
        [exact HP | now apply Permutation_sym]. }
    assert (Hr0 : r0 = q0).
    { assert (Hle : Save.ts r0 <= Save.ts q0).
      { pose proof (Array_sort_sorted Save.ts
                      (filter (fun r => match Save.quick r with
                                        | Some _ => true
                                        | None => false
                                        end) (DB.list gameId db))) as Hsort.
        change (Array_sort _ _) with (SaveManager.qSaves gameId db) in Hsort.
        rewrite Hq in Hsort. apply StronglySorted_inv in Hsort.
        destruct Hsort as [_ Hall].
        assert (Hq0 : In q0 (r0 :: rest))
          by (rewrite <- Hq; apply Hin0; now left).
        destruct Hq0 as [-> | Hq0]; [lia |].
        rewrite Forall_forall in Hall. now apply Hall. }
      assert (Hr : In r0 (q0 :: Qt)) by (apply Hin0; rewrite Hq; now left).
      destruct Hr as [-> | Hr]; [reflexivity | exfalso].
      apply StronglySorted_inv in Hsorted. destruct Hsorted as [_ Hall].
      rewrite Forall_forall in Hall. specialize (Hall r0 Hr). lia. }
    subst r0.
    assert (Hzk : Some z = slot_in_turn k).
    { rewrite <- Hz. cbn [map seq] in Hs. injection Hs as Hs0 _.
      rewrite Hs0. unfold slot_in_turn. now rewrite mod_five_period. }
    split; [now rewrite Ht, Hzk |].
    rewrite (quick_unfold JSON_stringify LZString compression gameId w db
               (Some z) Ht), Hcap.
    set (o := SaveManager.new_record JSON_stringify LZString compression gameId
                w (SaveManager.slot_name (Some z)) (Some z) st).
    assert (Hgone : survives gameId (Some z) db q0 = false).
    { destruct (survives gameId (Some z) db q0) eqn:E; [exfalso | reflexivity].
      unfold survives in E. rewrite forallb_forall in E.
      specialize (E q0 (proj2 (Hin0 q0) (or_introl eq_refl))).
      rewrite (proj2 (slot_eqb_eq _ _) Hz), String.eqb_refl in E.
      discriminate E. }
    cbn [map] in Hids, Hslots.
    apply NoDup_cons_iff in Hids. destruct Hids as [Hid0 Hids].
    apply NoDup_cons_iff in Hslots. destruct Hslots as [Hslot0 Hslots].
    assert (Hkept : forall x, In x Qt -> survives gameId (Some z) db x = true).
    { intros x Hx. unfold survives. apply forallb_forall. intros r Hr.
      destruct (SaveManager.slot_eqb (Save.quick r) (Some z)) eqn:E1;
        [| reflexivity].
      destruct (String.eqb_spec (Save.id r) (Save.id x)) as [E2 |];
        [exfalso | reflexivity].
      apply slot_eqb_eq in E1. apply Hin0 in Hr.
      destruct Hr as [<- | Hr].
      - apply Hid0. rewrite E2. now apply in_map.
      - assert (r = x).
        { apply (unique_id Qt r x Hids Hr Hx E2). }
        subst r. apply Hslot0. rewrite Hz, <- E1. now apply in_map. }
    assert (HP' : Permutation
                    (quick_records gameId (SaveManager.evict gameId (Some z) db))
                    Qt).
    { rewrite quick_records_evict.
      apply Permutation_trans
        with (filter (survives gameId (Some z) db) (q0 :: Qt)).
      - now apply filter_perm.
      - cbn [filter]. rewrite Hgone, (filter_all_In _ Qt Hkept).
        apply Permutation_refl. }
    assert (Hfresh' : ~ In (SaveManager.new_id gameId w) (map Save.id Qt)).
    { intros Hin. apply Hfresh. cbn [map]. now right. }
    exists (DB.insert Save.keyPath_id (KStr (SaveManager.new_id gameId w)) o
              (SaveManager.evict gameId (Some z) db)),
           (Qt ++ [o])%list.
    split; [reflexivity | split; [| ]].
    + split; [| split; [| split; [| split]]].
      * now apply insert_in_turn.
      * apply StronglySorted_inv in Hsorted. destruct Hsorted as [Hsorted _].
        apply StronglySorted_snoc; [exact Hsorted |].
        intros y Hy. apply Hts. now right.
      * rewrite map_app. apply NoDup_snoc; [exact Hids | exact Hfresh'].
      * rewrite map_app. apply NoDup_snoc; [exact Hslots |].
        cbn [map Save.quick Save.meta Meta.quick o SaveManager.new_record].
        now rewrite <- Hz.
      * rewrite map_app.
        replace (Nat.min (S k) 5) with 5%nat by lia.
        replace (S k - 5)%nat with (S (k - 5)) by lia.
        change 5%nat with (S 4) at 2. rewrite seq_S, map_app.
        cbn [seq map] in Hs. injection Hs as _ Hs. rewrite Hs.
        cbn [seq map app]. do 5 f_equal.
        replace (S (k - 5) + 4)%nat with k by lia.
        exact Hzk.
    + intros r Hr. apply in_app_iff in Hr.
      destruct Hr as [Hr | [<- | []]];
        [left; now right | right; now split].
Qed.

Lemma quick_slots_in_turn (ws : list world) :
  forall (k : nat) (db : DB.saves) (Q : list Save.t),
    in_turn gameId k db Q ->
    Forall (fun w => exists st, SaveManager.capture w = inr st) ws ->
    NoDup (map (SaveManager.new_id gameId) ws) ->
    StronglySorted (fun a b => now_ts a < now_ts b) ws ->
    (forall r w, In r Q -> In w ws ->
                 Save.id r <> SaveManager.new_id gameId w
                 /\ Save.ts r < now_ts w) ->
    SaveManager.quick_slots JSON_stringify LZString compression gameId ws db
    = map (fun j => inr (slot_in_turn j)) (seq k (List.length ws)).
Proof.
  induction ws as [|w ws IH]; intros k db Q Hturn Hcap Hids Hclock Hold;
    [reflexivity |].
  apply Forall_cons_iff in Hcap. destruct Hcap as [[st Hst] Hcap].
  cbn [map] in Hids. apply NoDup_cons_iff in Hids. destruct Hids as [Hw Hids].
  apply StronglySorted_inv in Hclock. destruct Hclock as [Hclock Hlater].
  rewrite Forall_forall in Hlater.
  destruct (quick_in_turn w st k db Q Hturn Hst) as (Ht & db' & Q' & Hq & Hturn' & HQ').
  { intros Hin. apply in_map_iff in Hin. destruct Hin as (r & Hr & Hin).
    now apply (proj1 (Hold r w Hin (or_introl eq_refl))). }
  { intros r Hr. now apply (Hold r w Hr (or_introl eq_refl)). }
  cbn [SaveManager.quick_slots List.length seq map]. rewrite Ht, Hq.
  f_equal. apply (IH (S k) db' Q' Hturn' Hcap Hids Hclock).
  intros r w' Hr Hw'. destruct (HQ' r Hr) as [Hr' | [Hid Hts]].
  - apply (Hold r w' Hr'). now right.
  - rewrite Hid, Hts. split.
    + intros E. apply Hw. rewrite E. now apply in_map.
    + now apply Hlater.
Qed.

(** X26. Quick saves take the slots in turn: starting from a store without
    quick records of the title, when every capture succeeds, the generated
    ids differ and the clock strictly advances from one call to the next,
    the k-th call (counting from 0) saves to slot (k mod 5) + 1, so that from
    the sixth call on each call replaces the oldest quick save. *)
Theorem quick_slots_rotate (ws : list world) (db : DB.saves) :
  quick_records gameId db = [] ->
  Forall (fun w => exists st, SaveManager.capture w = inr st) ws ->
  NoDup (map (SaveManager.new_id gameId) ws) ->
  StronglySorted (fun a b => now_ts a < now_ts b) ws ->
  SaveManager.quick_slots JSON_stringify LZString compression gameId ws db
  = map (fun j => inr (Some (Z.of_nat (j mod 5) + 1))) (seq 0 (List.length ws)).
Proof.
  intros Hempty Hcap Hids Hclock.
  apply (quick_slots_in_turn ws 0 db [] ); try assumption.
  - unfold in_turn. rewrite Hempty. cbn.
    repeat split; constructor.
  - intros r w [].
Qed.

End Rotation.

Lemma quick_slots_rotate_witness :
  let ws := [sample_world 1 "a"; sample_world 2 "b"; sample_world 3 "c";
             sample_world 4 "d"; sample_world 5 "e"; sample_world 6 "f";
             sample_world 7 "g"] in
  let db := [manual_save "s1" "/game" "Save 1" 0] in
  SaveManager.quick_slots sample_stringify None true "/game" ws db
  = [inr (Some 1); inr (Some 2); inr (Some 3); inr (Some 4); inr (Some 5);
     inr (Some 1); inr (Some 2)].
Proof.
  cbn zeta.
  rewrite (quick_slots_rotate sample_stringify None true "/game").
  - reflexivity.
  - reflexivity.
  - repeat constructor; eexists; reflexivity.
  - match goal with
    | |- NoDup ?l =>
        replace l with (nodup string_dec l) by (vm_compute; reflexivity)
    end.
    apply NoDup_nodup.
  - repeat constructor; cbn; lia.
Defined.
